(** * Line-label placement (src/labels/label_line.js)

    A shallow embedding of the [LabelLine] class: the segment cursor
    ([getNextSegment], [getCurrentSegment]), the fit evaluator
    ([doesSegmentFit], [fitKinkedSegment]), the angle calculator
    ([getAngleFromSegment], [getCurrentAngle], [inAngleBounds]), the
    bounding-box builder ([updateBBoxes], [getOBB]) and the candidate
    controller (the constructor, [getNextFittingSegment], [nextLabel]).

    Conventions of the embedding.
    - A JavaScript number is a [num]: a real number, or one of the three
      special values +Infinity, -Infinity and NaN.  Arithmetic on finite
      values is exact (no rounding, no overflow, one unsigned zero); the
      special values follow IEEE 754 as JavaScript does (x/0, Infinity*0,
      comparisons with NaN, ...).  Where the program's double-precision
      arithmetic decides a statement, the statement is made on the
      comparison the code evaluates and not on its value over the reals;
      the straight fit test is given a second time in binary64
      ([Double.straight_fit]) to show where the two part.  The zero
      [Fin 0] stands for +0; -0 is not represented.
    - [undefined] is [None]; reading a property of [undefined] raises
      [TypeError].
    - A method of the class is a function in the monad [M]: it takes the
      object ([this]) and returns a value and the mutated object, or
      raises.
    - Indices are integers and [placement] is one of the two modes.  The
      field [align] and the pruning rule handed to the label group play no
      part in placement and are left out.  *)

From Stdlib Require Import Floats.
From Stdlib Require Import Reals Lra Lia ZArith List Bool.
Import ListNotations.

Local Open Scope R_scope.

(** ** JavaScript numbers *)

Inductive num : Type :=
| Fin (r : R)
| PInf
| NInf
| NaN.

Declare Scope js_scope.
Delimit Scope js_scope with js.
Bind Scope js_scope with num.

(** Three-way case analysis on the sign of a real. *)
Definition Rsign_case {A : Type} (r : R) (neg zero pos : A) : A :=
  match total_order_T r 0 with
  | inleft (left _) => neg
  | inleft (right _) => zero
  | inright _ => pos
  end.

Definition js_neg (a : num) : num :=
  match a with
  | Fin x => Fin (- x)
  | PInf => NInf
  | NInf => PInf
  | NaN => NaN
  end.

Definition js_add (a b : num) : num :=
  match a, b with
  | NaN, _ | _, NaN => NaN
  | Fin x, Fin y => Fin (x + y)
  | PInf, NInf | NInf, PInf => NaN
  | PInf, _ | _, PInf => PInf
  | NInf, _ | _, NInf => NInf
  end.

Definition js_sub (a b : num) : num := js_add a (js_neg b).

Definition js_mul (a b : num) : num :=
  match a, b with
  | NaN, _ | _, NaN => NaN
  | Fin x, Fin y => Fin (x * y)
  | Fin x, PInf | PInf, Fin x => Rsign_case x NInf NaN PInf
  | Fin x, NInf | NInf, Fin x => Rsign_case x PInf NaN NInf
  | PInf, PInf | NInf, NInf => PInf
  | PInf, NInf | NInf, PInf => NInf
  end.

Definition js_div (a b : num) : num :=
  match a, b with
  | NaN, _ | _, NaN => NaN
  | Fin x, Fin y =>
      if Req_dec_T y 0 then Rsign_case x NInf NaN PInf else Fin (x / y)
  | Fin _, (PInf | NInf) => Fin 0
  | PInf, Fin y => Rsign_case y NInf PInf PInf
  | NInf, Fin y => Rsign_case y PInf NInf NInf
  | (PInf | NInf), (PInf | NInf) => NaN
  end.

Definition js_lt (a b : num) : bool :=
  match a, b with
  | NaN, _ | _, NaN => false
  | Fin x, Fin y => if Rlt_dec x y then true else false
  | NInf, (Fin _ | PInf) => true
  | Fin _, PInf => true
  | _, _ => false
  end.

Definition js_le (a b : num) : bool :=
  match a, b with
  | NaN, _ | _, NaN => false
  | Fin x, Fin y => if Rle_dec x y then true else false
  | NInf, _ => true
  | _, PInf => true
  | _, _ => false
  end.

Definition js_gt (a b : num) : bool := js_lt b a.
Definition js_ge (a b : num) : bool := js_le b a.

(** [a !== b] on numbers. *)
Definition js_neq (a b : num) : bool :=
  match a, b with
  | Fin x, Fin y => if Req_dec_T x y then false else true
  | PInf, PInf | NInf, NInf => false
  | _, _ => true
  end.

Notation "a + b" := (js_add a b) : js_scope.
Notation "a - b" := (js_sub a b) : js_scope.
Notation "a * b" := (js_mul a b) : js_scope.
Notation "a / b" := (js_div a b) : js_scope.
Notation "- a" := (js_neg a) : js_scope.
Notation "a <? b" := (js_lt a b) (at level 70, no associativity) : js_scope.
Notation "a <=? b" := (js_le a b) (at level 70, no associativity) : js_scope.
Notation "a >? b" := (js_gt a b) (at level 70, no associativity) : js_scope.
Notation "a >=? b" := (js_ge a b) (at level 70, no associativity) : js_scope.

(** The [Math] object. *)
Module Math.

Definition PI : num := Fin Rtrigo1.PI.

Definition abs (a : num) : num :=
  match a with
  | Fin x => Fin (Rabs x)
  | PInf | NInf => PInf
  | NaN => NaN
  end.

Definition min (a b : num) : num :=
  match a, b with
  | NaN, _ | _, NaN => NaN
  | Fin x, Fin y => Fin (Rmin x y)
  | NInf, _ | _, NInf => NInf
  | PInf, c | c, PInf => c
  end.

Definition sqrt (a : num) : num :=
  match a with
  | Fin x => if Rlt_dec x 0 then NaN else Fin (R_sqrt.sqrt x)
  | PInf => PInf
  | NInf | NaN => NaN
  end.

Definition cos (a : num) : num :=
  match a with Fin x => Fin (Rtrigo_def.cos x) | _ => NaN end.

Definition sin (a : num) : num :=
  match a with Fin x => Fin (Rtrigo_def.sin x) | _ => NaN end.

Definition tan (a : num) : num :=
  match a with
  | Fin x => (Fin (Rtrigo_def.sin x) / Fin (Rtrigo_def.cos x))%js
  | _ => NaN
  end.

(** The two-argument arctangent on reals, [y] first.  Zero is
    unsigned and stands for +0: [atan2R 0 x] with [x < 0] is pi, the
    program's answer on +0; on -0 the program answers -pi. *)
Definition atan2R (y x : R) : R :=
  match total_order_T x 0 with
  | inright _ => atan (y / x)
  | inleft (left _) =>
      if Rle_dec 0 y then atan (y / x) + Rtrigo1.PI
      else atan (y / x) - Rtrigo1.PI
  | inleft (right _) =>
      Rsign_case y (- (Rtrigo1.PI / 2)) 0 (Rtrigo1.PI / 2)
  end.

Definition atan2 (y x : num) : num :=
  match y, x with
  | NaN, _ | _, NaN => NaN
  | Fin b, Fin a => Fin (atan2R b a)
  | Fin _, PInf => Fin 0
  | Fin b, NInf =>
      if Rlt_dec b 0 then Fin (- Rtrigo1.PI) else Fin Rtrigo1.PI
  | PInf, Fin _ => Fin (Rtrigo1.PI / 2)
  | NInf, Fin _ => Fin (- (Rtrigo1.PI / 2))
  | PInf, PInf => Fin (Rtrigo1.PI / 4)
  | PInf, NInf => Fin (3 * Rtrigo1.PI / 4)
  | NInf, PInf => Fin (- (Rtrigo1.PI / 4))
  | NInf, NInf => Fin (- (3 * Rtrigo1.PI / 4))
  end.

End Math.

(** Truncation toward zero, and the remainder operator [a % b], whose
    result takes the sign of the dividend. *)
Definition Rtrunc (r : R) : Z :=
  if Rlt_dec r 0 then (- Int_part (- r))%Z else Int_part r.

Definition js_mod (a b : num) : num :=
  match a, b with
  | NaN, _ | _, NaN => NaN
  | (PInf | NInf), _ => NaN
  | Fin x, (PInf | NInf) => Fin x
  | Fin x, Fin y =>
      if Req_dec_T y 0 then NaN else Fin (x - y * IZR (Rtrunc (x / y)))
  end.

(** ** Exceptions and the method monad *)

(** [TypeError]: a property read on [undefined].  [ReferenceError]: a
    read of a [let] variable before its declaration has run. *)
Inductive js_error : Type := TypeError | ReferenceError.

(** The outcome of running a piece of code: a value, a raised exception,
    or [Diverge] when the recursion budget of the model is used up (the
    theorems below show that this last outcome never occurs). *)
Inductive result (A : Type) : Type :=
| Ok (a : A)
| Throw (e : js_error)
| Diverge.

Arguments Ok {A} a.
Arguments Throw {A} e.
Arguments Diverge {A}.

Definition point : Type := (num * num)%type.
Definition vec : Type := (num * num)%type.

(** A segment is the array returned by [getCurrentSegment]: two or three
    entries of [lines], each possibly [undefined]. *)
Definition Segment : Type := list (option point).

(** [a[i]] on an array: [undefined] out of range. *)
Definition js_nth {A : Type} (a : list A) (i : Z) : option A :=
  if (i <? 0)%Z then None else nth_error a (Z.to_nat i).

(** [a[i]] on an array of optional entries. *)
Definition js_nth_opt {A : Type} (a : list (option A)) (i : Z) : option A :=
  match js_nth a i with
  | Some v => v
  | None => None
  end.

(** A numeric array element used in arithmetic: [undefined] coerces to
    NaN. *)
Definition js_num_at (a : list num) (i : Z) : num :=
  match js_nth a i with
  | Some v => v
  | None => NaN
  end.

(** Modelled from the spec: the vector primitives of [../vector]
    (subtract, length, rotate, add), which are not part of this file.
    They read the components [v[0]] and [v[1]] of their arguments, so an
    [undefined] argument raises [TypeError]. *)
Module Vector.

Definition sub (v1 v2 : option vec) : result vec :=
  match v1, v2 with
  | Some (a0, a1), Some (b0, b1) => Ok ((a0 - b0)%js, (a1 - b1)%js)
  | _, _ => Throw TypeError
  end.

Definition add (v1 v2 : vec) : vec :=
  ((fst v1 + fst v2)%js, (snd v1 + snd v2)%js).

Definition length (v : vec) : num :=
  Math.sqrt (fst v * fst v + snd v * snd v)%js.

Definition rot (v : vec) (a : num) : vec :=
  let c := Math.cos a in
  let s := Math.sin a in
  ((fst v * c - snd v * s)%js, (fst v * s + snd v * c)%js).

End Vector.

(** ** Data model *)

Inductive PLACEMENT : Type := MID_POINT | CORNER.

Definition MAX_ANGLE : num := (Math.PI / Fin 2)%js.

(** The layout configuration.  Optional fields are [None] when absent.
    [line_exceed] and [units_per_pixel] are only ever used in arithmetic,
    where an absent value behaves as NaN. *)
Record Layout : Type := mkLayout {
  layout_placement : option PLACEMENT;
  layout_segment_size : option (list num);
  layout_spread_factor : option num;
  layout_articulated : option bool;
  layout_segment_index : option Z;
  layout_segment_start : option Z;
  layout_segment_end : option Z;
  layout_line_exceed : num;
  layout_units_per_pixel : num;
  layout_buffer : option vec;
  layout_offset : option vec
}.

(** Modelled from the spec: the oriented box of [../utils/obb], built
    from center, angle and size. *)
Record OBB : Type := new_OBB {
  obb_x : num;
  obb_y : num;
  obb_angle : num;
  obb_width : num;
  obb_height : num
}.

(** The axis-aligned extent of a box, an array of numbers. *)
Definition AABB : Type := list num.

(** Modelled from the spec: a label candidate of [./label]: pixel size,
    layout, oriented box, extent, pixel offset, position and angle. *)
Record Label : Type := mkLabel {
  label_size : vec;
  label_layout : Layout;
  label_obb : OBB;
  label_aabb : AABB;
  label_offset : vec;
  label_position : option vec;
  label_angle : num
}.

(** The fields of a [LabelLine] object.  [labels] is the candidate store
    of the label group the class extends. *)
Record LabelLine : Type := mkLabelLine {
  size : vec;
  layout : Layout;
  lines : list point;
  position : option vec;
  placement : PLACEMENT;
  isArticulated : bool;
  segment_size : option (list num);
  collapsed_size : list num;
  kink_index : Z;
  spread_factor : num;
  should_articulate : bool;
  segment_index : Z;
  segment_max : Z;
  throw_away : bool;
  angle : option (list num);
  labels : list (Z * Label)
}.

(** Field assignments. *)
Definition set_position (v : option vec) (t : LabelLine) : LabelLine :=
  mkLabelLine (size t) (layout t) (lines t) v (placement t)
    (isArticulated t) (segment_size t) (collapsed_size t) (kink_index t)
    (spread_factor t) (should_articulate t) (segment_index t)
    (segment_max t) (throw_away t) (angle t) (labels t).

Definition set_placement (v : PLACEMENT) (t : LabelLine) : LabelLine :=
  mkLabelLine (size t) (layout t) (lines t) (position t) v
    (isArticulated t) (segment_size t) (collapsed_size t) (kink_index t)
    (spread_factor t) (should_articulate t) (segment_index t)
    (segment_max t) (throw_away t) (angle t) (labels t).

Definition set_isArticulated (v : bool) (t : LabelLine) : LabelLine :=
  mkLabelLine (size t) (layout t) (lines t) (position t) (placement t)
    v (segment_size t) (collapsed_size t) (kink_index t)
    (spread_factor t) (should_articulate t) (segment_index t)
    (segment_max t) (throw_away t) (angle t) (labels t).

Definition set_collapsed_size (v : list num) (t : LabelLine) : LabelLine :=
  mkLabelLine (size t) (layout t) (lines t) (position t) (placement t)
    (isArticulated t) (segment_size t) v (kink_index t)
    (spread_factor t) (should_articulate t) (segment_index t)
    (segment_max t) (throw_away t) (angle t) (labels t).

Definition set_kink_index (v : Z) (t : LabelLine) : LabelLine :=
  mkLabelLine (size t) (layout t) (lines t) (position t) (placement t)
    (isArticulated t) (segment_size t) (collapsed_size t) v
    (spread_factor t) (should_articulate t) (segment_index t)
    (segment_max t) (throw_away t) (angle t) (labels t).

Definition set_segment_index (v : Z) (t : LabelLine) : LabelLine :=
  mkLabelLine (size t) (layout t) (lines t) (position t) (placement t)
    (isArticulated t) (segment_size t) (collapsed_size t) (kink_index t)
    (spread_factor t) (should_articulate t) v
    (segment_max t) (throw_away t) (angle t) (labels t).

Definition set_throw_away (v : bool) (t : LabelLine) : LabelLine :=
  mkLabelLine (size t) (layout t) (lines t) (position t) (placement t)
    (isArticulated t) (segment_size t) (collapsed_size t) (kink_index t)
    (spread_factor t) (should_articulate t) (segment_index t)
    (segment_max t) v (angle t) (labels t).

Definition set_angle (v : option (list num)) (t : LabelLine) : LabelLine :=
  mkLabelLine (size t) (layout t) (lines t) (position t) (placement t)
    (isArticulated t) (segment_size t) (collapsed_size t) (kink_index t)
    (spread_factor t) (should_articulate t) (segment_index t)
    (segment_max t) (throw_away t) v (labels t).

Definition set_labels (v : list (Z * Label)) (t : LabelLine) : LabelLine :=
  mkLabelLine (size t) (layout t) (lines t) (position t) (placement t)
    (isArticulated t) (segment_size t) (collapsed_size t) (kink_index t)
    (spread_factor t) (should_articulate t) (segment_index t)
    (segment_max t) (throw_away t) (angle t) v.

(** A method: a computation on [this] that may raise. *)
Definition M (A : Type) : Type := LabelLine -> result (A * LabelLine).

Definition ret {A : Type} (a : A) : M A := fun this => Ok (a, this).

Definition bind {A B : Type} (m : M A) (k : A -> M B) : M B :=
  fun this =>
    match m this with
    | Ok (a, this') => k a this'
    | Throw e => Throw e
    | Diverge => Diverge
    end.

Definition throw {A : Type} (e : js_error) : M A := fun _ => Throw e.

Definition get {A : Type} (f : LabelLine -> A) : M A :=
  fun this => Ok (f this, this).

Definition modify (f : LabelLine -> LabelLine) : M unit :=
  fun this => Ok (tt, f this).

(** Lifting of a computation that does not touch [this]. *)
Definition lift {A : Type} (r : result A) : M A :=
  fun this =>
    match r with
    | Ok a => Ok (a, this)
    | Throw e => Throw e
    | Diverge => Diverge
    end.

Notation "x <- m ;; k" := (bind m (fun x => k))
  (at level 61, m at next level, right associativity).
Notation "m ;;; k" := (bind m (fun _ => k))
  (at level 61, right associativity).

(** [x.f] where [x] may be [undefined]. *)
Definition require {A : Type} (o : option A) : M A :=
  match o with
  | Some a => ret a
  | None => throw TypeError
  end.

(** ** External collaborators

    The operations the class uses without defining them: the extent query
    of an oriented box, the slack constant [Label.epsilon], and the
    tile-bounds test inherited from the label group. *)
Class Collaborators : Type := {
  OBB_getExtent : OBB -> AABB;
  Label_epsilon : num;
  inTileBounds : LabelLine -> bool
}.

(** Modelled from the spec: the candidate store of the label group
    ([removeLabel], [addLabel]), keyed by the index of the label part;
    both are taken to return normally.  The second argument the source
    passes to [removeLabel] is the [label] variable that the same block
    declares with [let] further down.  [removeLabel] itself uses only the
    index; the read of [label] that precedes the call is
    [read_label_before_let] below.  The methods of this section leave it
    out, which is the behaviour once [let] has been compiled to [var]
    (the read yields [undefined]); the forms that carry the read, and
    raise on it under the temporal-dead-zone rule of ES2015, are
    [updateBBoxes_as] and the methods built on it. *)
Definition removeLabel (i : Z) : M unit :=
  modify (fun t =>
    set_labels (filter (fun e => negb (fst e =? i)%Z) (labels t)) t).

Definition addLabel (i : Z) (l : Label) : M unit :=
  modify (fun t => set_labels ((i, l) :: labels t) t).

(** ** Segment cursor *)

Definition getCurrentSegment (this : LabelLine) : Segment :=
  match placement this with
  | CORNER =>
      [ js_nth (lines this) (segment_index this - 1);
        js_nth (lines this) (segment_index this);
        js_nth (lines this) (segment_index this + 1) ]
  | MID_POINT =>
      [ js_nth (lines this) (segment_index this);
        js_nth (lines this) (segment_index this + 1) ]
  end.

(** Returns [None] for [false] (no more segments). *)
Definition getNextSegment : M (option Segment) :=
  p <- get placement ;;
  match p with
  | CORNER =>
      modify (set_placement MID_POINT) ;;;
      s <- get getCurrentSegment ;;
      ret (Some s)
  | MID_POINT =>
      i <- get segment_index ;;
      ln <- get lines ;;
      if (i >=? Z.of_nat (length ln) - 2)%Z then ret None
      else
        art <- get should_articulate ;;
        (if art then
           ss <- get segment_size ;;
           ss <- require ss ;;
           if (Z.of_nat (length ss) >? 1)%Z
           then modify (set_placement CORNER)
           else ret tt
         else ret tt) ;;;
        modify (fun t => set_segment_index (segment_index t + 1) t) ;;;
        s <- get getCurrentSegment ;;
        ret (Some s)
  end.

(** ** Fit evaluator *)

Definition excess_ratio (l : Layout) : num :=
  (Fin 100 / (Fin 100 - layout_line_exceed l))%js.

(** The [while] loop of [fitKinkedSegment], entered with
    [kink_index = k] and [does_fit = false].  It returns [does_fit],
    [kink_index] and the two tested widths as the loop leaves them. *)
Fixpoint kink_loop (ss : list num) (opp excess line_length1 line_length2 : num)
    (k : nat) (label_length1 label_length2 : num)
    : bool * nat * num * num :=
  match k with
  | O => (false, O, label_length1, label_length2)
  | S k' =>
      let width := js_num_at ss (Z.of_nat k) in
      let label_length1 := (label_length1 - width)%js in
      let label_length2 := (label_length2 + width)%js in
      if (opp * label_length1 <? excess * line_length1)%js
         && (opp * label_length2 <? excess * line_length2)%js
      then (true, k, label_length1, label_length2)
      else kink_loop ss opp excess line_length1 line_length2 k'
             label_length1 label_length2
  end.

(** The loop together with the initialisation before it
    ([kink_index = segment_size.length - 1], which is -1 on an empty
    array). *)
Definition kink_search (ss : list num) (opp excess line_length1 line_length2 : num)
    (size0 : num) : bool * Z * num * num :=
  let k0 := (Z.of_nat (length ss) - 1)%Z in
  match kink_loop ss opp excess line_length1 line_length2
          (Z.to_nat k0) size0 (Fin 0) with
  | (does_fit, k, l1, l2) =>
      (does_fit, if (k0 <? 0)%Z then k0 else Z.of_nat k, l1, l2)
  end.

(** The [for] loop that sums the pieces on each side of the kink,
    entered at index [i] with the sums [c]. *)
Fixpoint collapse (ss : list num) (i kink : Z) (c : num * num) : num * num :=
  match ss with
  | [] => c
  | w :: rest =>
      collapse rest (i + 1) kink
        (if (i <? kink)%Z then ((fst c + w)%js, snd c)
         else (fst c, (snd c + w)%js))
  end.

Definition fitKinkedSegment (segment : Segment) : M bool :=
  l <- get layout ;;
  let excess := excess_ratio l in
  let opp := layout_units_per_pixel l in
  p0p1 <- lift (Vector.sub (js_nth_opt segment 0) (js_nth_opt segment 1)) ;;
  p1p2 <- lift (Vector.sub (js_nth_opt segment 1) (js_nth_opt segment 2)) ;;
  if (fst p0p1 * fst p1p2 <? Fin 0)%js && (snd p0p1 * snd p1p2 >? Fin 0)%js
  then ret false
  else
    let line_length1 := Vector.length p0p1 in
    let line_length2 := Vector.length p1p2 in
    sz <- get size ;;
    ss <- get segment_size ;;
    ss <- require ss ;;
    match kink_search ss opp excess line_length1 line_length2 (fst sz) with
    | (does_fit, k, _, _) =>
        modify (set_kink_index k) ;;;
        if does_fit && (k >? 0)%Z then
          let c := collapse ss 0 k (Fin 0, Fin 0) in
          modify (set_collapsed_size [fst c; snd c]) ;;;
          ret true
        else ret false
    end.

Definition doesSegmentFit (segment : Segment) : M bool :=
  p <- get placement ;;
  match p with
  | CORNER => fitKinkedSegment segment
  | MID_POINT =>
      l <- get layout ;;
      let excess := excess_ratio l in
      p0p1 <- lift (Vector.sub (js_nth_opt segment 0) (js_nth_opt segment 1)) ;;
      let line_length := Vector.length p0p1 in
      sz <- get size ;;
      let label_length := (fst sz * layout_units_per_pixel l)%js in
      ret (label_length <? excess * line_length)%js
  end.

(** ** Angle and orientation calculator *)

Definition getAngleFromSegment (pt1 pt2 : option point) : result num :=
  let PI := Math.PI in
  let PI_2 := (PI / Fin 2)%js in
  match Vector.sub pt1 pt2 with
  | Ok p1p2 =>
      let theta := (Math.atan2 (fst p1p2) (snd p1p2) + PI_2)%js in
      if (theta >=? PI_2)%js then
        Ok (js_mod (theta + PI)%js (Fin 2 * Math.PI)%js)
      else if (theta <? Fin 0)%js then
        Ok (theta + Fin 2 * PI)%js
      else Ok theta
  | Throw e => Throw e
  | Diverge => Diverge
  end.

(** The normalisation step of [getAngleFromSegment] on a real [theta],
    and the angle of a direction vector with real components as
    [getAngleFromSegment] computes it from [p1p2]. *)
Definition normalize_angleR (theta : R) : R :=
  if Rle_dec (PI / 2) theta then
    (theta + PI) - (2 * PI) * IZR (Rtrunc ((theta + PI) / (2 * PI)))
  else if Rlt_dec theta 0 then theta + 2 * PI
  else theta.

Definition angleR (dx dy : R) : R :=
  normalize_angleR (Math.atan2R dx dy + PI / 2).

Definition getCurrentAngle : M (list num) :=
  segment <- get getCurrentSegment ;;
  p <- get placement ;;
  match p with
  | CORNER =>
      theta1 <- lift (getAngleFromSegment (js_nth_opt segment 0) (js_nth_opt segment 1)) ;;
      theta2 <- lift (getAngleFromSegment (js_nth_opt segment 1) (js_nth_opt segment 2)) ;;
      p0p1 <- lift (Vector.sub (js_nth_opt segment 0) (js_nth_opt segment 1)) ;;
      p1p2 <- lift (Vector.sub (js_nth_opt segment 1) (js_nth_opt segment 2)) ;;
      if (fst p0p1 >=? Fin 0)%js && (fst p1p2 >=? Fin 0)%js
      then ret [theta2; theta1]
      else ret [theta1; theta2]
  | MID_POINT =>
      theta <- lift (getAngleFromSegment (js_nth_opt segment 0) (js_nth_opt segment 1)) ;;
      ret [theta]
  end.

Definition getCurrentPosition : M vec :=
  segment <- get getCurrentSegment ;;
  p <- get placement ;;
  match p with
  | CORNER =>
      require (js_nth_opt segment 1)
  | MID_POINT =>
      s0 <- require (js_nth_opt segment 0) ;;
      s1 <- require (js_nth_opt segment 1) ;;
      ret ((fst s0 + fst s1) / Fin 2, (snd s0 + snd s1) / Fin 2)%js
  end.

(** [angle += 2 * Math.PI] when negative. *)
Definition wrap_negative (a : num) : num :=
  if (a <? Fin 0)%js then (a + Fin 2 * Math.PI)%js else a.

Definition inAngleBounds : M bool :=
  p <- get placement ;;
  match p with
  | CORNER =>
      a <- get angle ;;
      a <- require a ;;
      let angle0 := wrap_negative (js_num_at a 0) in
      let angle1 := wrap_negative (js_num_at a 1) in
      let theta := Math.abs (angle1 - angle0) in
      let theta := Math.min (Fin 2 * Math.PI - theta)%js theta in
      ret (theta <=? MAX_ANGLE)%js
  | MID_POINT => ret true
  end.

(** ** Bounding-box builder *)

Definition getOBB (position : vec) (width height angle : num) (offset : vec)
    (upp : num) : OBB :=
  let p :=
    if js_neq (fst offset) (Fin 0) || js_neq (snd offset) (Fin 0) then
      let offset := Vector.rot offset angle in
      ((fst position + fst offset * upp)%js,
       (snd position - snd offset * upp)%js)
    else (fst position, snd position) in
  new_OBB (fst p) (snd p) (- angle)%js width height.

Section Methods.

Context {ext : Collaborators}.

(** One round of the [for] loop of the corner case of [updateBBoxes]. *)
Definition updateBBoxes_side (upp height dx : num) (i : Z) : M unit :=
  removeLabel i ;;;
  cs <- get collapsed_size ;;
  let width_px := js_num_at cs i in
  a <- get angle ;;
  a <- require a ;;
  let angle := js_num_at a i in
  let width := (width_px * upp * Label_epsilon)%js in
  let direction := if (i =? 0)%Z then Fin (-1) else Fin 1 in
  let nudge := (direction * (width / Fin 2 + dx))%js in
  let nudge_offset := Vector.rot (nudge, Fin 0) (- angle)%js in
  this_position <- get position ;;
  pos <- require this_position ;;
  let position := Vector.add pos nudge_offset in
  l <- get layout ;;
  off <- require (layout_offset l) ;;
  let offset :=
    ((fst off + direction * (js_num_at cs i / Fin 2 + dx))%js, snd off) in
  let obb := getOBB position width height angle offset upp in
  let aabb := OBB_getExtent obb in
  sz <- get size ;;
  let size := (width_px, snd sz) in
  let label := mkLabel size l obb aabb offset this_position angle in
  addLabel i label.

Definition updateBBoxes : M unit :=
  l <- get layout ;;
  sz <- get size ;;
  let upp := layout_units_per_pixel l in
  buffer <- require (layout_buffer l) ;;
  let height := ((snd sz + snd buffer * Fin 2) * upp * Label_epsilon)%js in
  p <- get placement ;;
  match p with
  | CORNER =>
      a <- get angle ;;
      a <- require a ;;
      let angle0 := wrap_negative (js_num_at a 0) in
      let angle1 := wrap_negative (js_num_at a 1) in
      let theta := (Math.PI - Math.abs (angle1 - angle0))%js in
      sf <- get spread_factor ;;
      let dx := (sf * Math.abs (snd sz / Math.tan (Fin (1 / 2) * theta)))%js in
      updateBBoxes_side upp height dx 0 ;;;
      updateBBoxes_side upp height dx 1
  | MID_POINT =>
      removeLabel 0 ;;;
      let width := ((fst sz + fst buffer * Fin 2) * upp * Label_epsilon)%js in
      a <- get angle ;;
      a <- require a ;;
      let angle := js_num_at a 0 in
      this_position <- get position ;;
      pos <- require this_position ;;
      off <- require (layout_offset l) ;;
      let obb := getOBB pos width height angle off upp in
      let aabb := OBB_getExtent obb in
      let label := mkLabel sz l obb aabb off this_position angle in
      addLabel 0 label
  end.

(** ** Candidate controller *)

Definition update : M unit :=
  a <- getCurrentAngle ;;
  modify (set_angle (Some a)) ;;;
  p <- getCurrentPosition ;;
  modify (set_position (Some p)) ;;;
  updateBBoxes.

(** [getNextFittingSegment], with its recursion bounded by [fuel] calls.
    [segment] is [None] when the method is called without argument. *)
Fixpoint getNextFittingSegment_rec (fuel : nat) (segment : option Segment)
    : M (option Segment) :=
  match fuel with
  | O => fun _ => Diverge
  | S fuel' =>
      segment <- match segment with
                 | Some s => ret (Some s)
                 | None => getNextSegment
                 end ;;
      match segment with
      | None => ret None
      | Some seg =>
          fits <- doesSegmentFit seg ;;
          if fits then
            update ;;;
            tile <- get inTileBounds ;;
            ok <- (if tile then inAngleBounds else ret false) ;;
            if ok then
              modify (fun t =>
                set_isArticulated
                  (match placement t with CORNER => true | MID_POINT => false end)
                  t) ;;;
              ret (Some seg)
            else getNextFittingSegment_rec fuel' None
          else getNextFittingSegment_rec fuel' None
      end
  end.

(** The number of times [getNextSegment] can still succeed is at most
    this. *)
Definition cursor_measure (this : LabelLine) : nat :=
  (2 * Z.to_nat (Z.of_nat (length (lines this)) - 2 - segment_index this)
   + match placement this with CORNER => 1 | MID_POINT => 0 end)%nat.

Definition getNextFittingSegment (segment : option Segment)
    : M (option Segment) :=
  fun this =>
    getNextFittingSegment_rec (cursor_measure this + 2) segment this.

(** [a || b] on optional indices: 0 and [undefined] are falsy. *)
Definition js_or_index (a : option Z) (b : Z) : Z :=
  match a with
  | Some v => if (v =? 0)%Z then b else v
  | None => b
  end.

(** The object as the constructor sets it up before looking for the
    first fitting segment. *)
Definition init_LabelLine (size : vec) (lines : list point) (layout : Layout)
    : LabelLine :=
  {| size := size;
     layout := layout;
     lines := lines;
     position := None;
     placement := match layout_placement layout with
                  | None => MID_POINT
                  | Some p => p
                  end;
     isArticulated := false;
     segment_size := layout_segment_size layout;
     collapsed_size := [];
     kink_index := 0;
     spread_factor := match layout_spread_factor layout with
                      | Some f => f
                      | None => Fin (1 / 2)
                      end;
     should_articulate := match layout_articulated layout with
                          | Some false => false
                          | _ => true
                          end;
     segment_index :=
       js_or_index (layout_segment_index layout)
         (js_or_index (layout_segment_start layout) 0);
     segment_max :=
       js_or_index (layout_segment_end layout) (Z.of_nat (length lines));
     throw_away := false;
     angle := None;
     labels := [] |}.

Definition new_LabelLine (size : vec) (lines : list point) (layout : Layout)
    : result LabelLine :=
  let this := init_LabelLine size lines layout in
  match getNextFittingSegment (Some (getCurrentSegment this)) this with
  | Ok (Some _, this) => Ok this
  | Ok (None, this) => Ok (set_throw_away true this)
  | Throw e => Throw e
  | Diverge => Diverge
  end.

(** The layout cloned by [nextLabel]: the options of [label.layout] with
    [segment_index] and [placement] overridden. *)
Definition next_layout (label : LabelLine) : Layout :=
  let l := layout label in
  {| layout_placement := Some (placement label);
     layout_segment_size := layout_segment_size l;
     layout_spread_factor := layout_spread_factor l;
     layout_articulated := layout_articulated l;
     layout_segment_index := Some (segment_index label);
     layout_segment_start := layout_segment_start l;
     layout_segment_end := layout_segment_end l;
     layout_line_exceed := layout_line_exceed l;
     layout_units_per_pixel := layout_units_per_pixel l;
     layout_buffer := layout_buffer l;
     layout_offset := layout_offset l |}.

(** [LabelLine.nextLabel(label)].  The first component is the returned
    label ([None] for [false]), the second is [label] as the call leaves
    it (its cursor has been advanced). *)
Definition nextLabel (label : LabelLine)
    : result (option LabelLine * LabelLine) :=
  match getNextSegment label with
  | Ok (None, label) => Ok (None, label)
  | Ok (Some _, label) =>
      match new_LabelLine (size label) (lines label) (next_layout label) with
      | Ok nextLabel =>
          Ok (if throw_away nextLabel then None else Some nextLabel, label)
      | Throw e => Throw e
      | Diverge => Diverge
      end
  | Throw e => Throw e
  | Diverge => Diverge
  end.

(** Repeated advancing: the labels produced by calling [nextLabel] on
    each label in turn until it reports exhaustion, within [fuel]
    calls. *)
Fixpoint advance_all (fuel : nat) (label : LabelLine)
    : result (list LabelLine) :=
  match fuel with
  | O => Diverge
  | S fuel' =>
      match nextLabel label with
      | Ok (None, _) => Ok []
      | Ok (Some next, _) =>
          match advance_all fuel' next with
          | Ok rest => Ok (next :: rest)
          | Throw e => Throw e
          | Diverge => Diverge
          end
      | Throw e => Throw e
      | Diverge => Diverge
      end
  end.

End Methods.


(** ** Vocabulary of the statements *)

(** The fields that only the constructor and the cursor assign: two
    objects related by [same_cursor] are at the same place of the same
    line with the same configuration. *)
Definition same_cursor (t t' : LabelLine) : Prop :=
  size t' = size t /\ layout t' = layout t /\ lines t' = lines t /\
  placement t' = placement t /\ segment_size t' = segment_size t /\
  should_articulate t' = should_articulate t /\
  segment_index t' = segment_index t /\
  spread_factor t' = spread_factor t /\
  segment_max t' = segment_max t /\ throw_away t' = throw_away t.

(** The body of [getNextFittingSegment] once the segment to try is known:
    the fit test, the update and the two bounds tests.  It returns whether
    the segment is accepted. *)
Definition try_segment {ext : Collaborators} (seg : Segment) : M bool :=
  fits <- doesSegmentFit seg ;;
  if fits then
    update ;;;
    tile <- get inTileBounds ;;
    ok <- (if tile then inAngleBounds else ret false) ;;
    if ok then
      modify (fun t =>
        set_isArticulated
          (match placement t with CORNER => true | MID_POINT => false end)
          t) ;;;
      ret true
    else ret false
  else ret false.

(** The points the current segment reads all exist. *)
Definition cursor_in_line (t : LabelLine) : Prop :=
  (0 <= segment_index t <= Z.of_nat (length (lines t)) - 2)%Z /\
  (placement t = CORNER -> (1 <= segment_index t)%Z).

(** The options the methods read without a default are present. *)
Definition options_present (t : LabelLine) : Prop :=
  (exists ss, segment_size t = Some ss /\
              layout_segment_size (layout t) = Some ss) /\
  (exists b, layout_buffer (layout t) = Some b) /\
  (exists o, layout_offset (layout t) = Some o).

(** Two objects on the same line with the same configuration, the cursor
    of the second at or after the cursor of the first. *)
Definition cursor_le (t t' : LabelLine) : Prop :=
  size t' = size t /\ layout t' = layout t /\ lines t' = lines t /\
  segment_size t' = segment_size t /\
  should_articulate t' = should_articulate t /\
  spread_factor t' = spread_factor t /\
  segment_max t' = segment_max t /\
  (segment_index t <= segment_index t')%Z /\
  (cursor_measure t' <= cursor_measure t)%nat.

(** [accepted t0 t']: the segment under the cursor of [t0] passed the fit
    test, the update and both bounds tests, and [t'] is the object that
    results. *)
Definition accepted {ext : Collaborators} (t0 t' : LabelLine) : Prop :=
  exists t1 t2,
    doesSegmentFit (getCurrentSegment t0) t0 = Ok (true, t1) /\
    update t1 = Ok (tt, t2) /\
    inTileBounds t2 = true /\
    inAngleBounds t2 = Ok (true, t2) /\
    t' = set_isArticulated
           (match placement t2 with CORNER => true | MID_POINT => false end)
           t2.

(** The argument of [getNextFittingSegment], when given, is the segment
    under the cursor. *)
Definition segment_of_cursor (seg : option Segment) (t : LabelLine) : Prop :=
  match seg with
  | Some s => s = getCurrentSegment t
  | None => True
  end.

(** The straight fit test in the words of the specification:
    [line_length] is the distance between the two segment points,
    [label_length = label_width_px * units_per_pixel], and the segment
    fits iff [label_length < (100 / (100 - line_exceed)) * line_length]. *)
Definition distance (p q : point) : num :=
  Vector.length ((fst p - fst q)%js, (snd p - snd q)%js).

Definition straight_fit (label_width_px units_per_pixel line_exceed : num)
    (p q : point) : bool :=
  (label_width_px * units_per_pixel
   <? (Fin 100 / (Fin 100 - line_exceed)) * distance p q)%js.

(** The sum of a list of reals. *)
Definition Rsum (rs : list R) : R := fold_right Rplus 0 rs.

(** ** Example inputs *)

(** Collaborators for the examples: a label group whose labels always lie
    inside the tile, a slack constant of 1, and an extent that lists the
    center of the box twice. *)
Definition tile_always : Collaborators :=
  {| OBB_getExtent := fun b => [obb_x b; obb_y b; obb_x b; obb_y b];
     Label_epsilon := Fin 1;
     inTileBounds := fun _ => true |}.

Definition pt (x y : R) : point := (Fin x, Fin y).

(** A layout with every option the methods read, no overrun allowed, one
    map unit per pixel, and the given piece widths. *)
Definition example_layout (pieces : list R) : Layout :=
  {| layout_placement := None;
     layout_segment_size := Some (map Fin pieces);
     layout_spread_factor := None;
     layout_articulated := None;
     layout_segment_index := None;
     layout_segment_start := None;
     layout_segment_end := None;
     layout_line_exceed := Fin 0;
     layout_units_per_pixel := Fin 1;
     layout_buffer := Some (Fin 0, Fin 0);
     layout_offset := Some (Fin 0, Fin 0) |}.

Definition with_placement (p : PLACEMENT) (i : Z) (l : Layout) : Layout :=
  {| layout_placement := Some p;
     layout_segment_size := layout_segment_size l;
     layout_spread_factor := layout_spread_factor l;
     layout_articulated := layout_articulated l;
     layout_segment_index := Some i;
     layout_segment_start := layout_segment_start l;
     layout_segment_end := layout_segment_end l;
     layout_line_exceed := layout_line_exceed l;
     layout_units_per_pixel := layout_units_per_pixel l;
     layout_buffer := layout_buffer l;
     layout_offset := layout_offset l |}.

(** Scenario E of the specification: a 10-point line with
    [segment_start = 2] and [segment_end = 5], straight placement only.
    Only the segment from index 6 to index 7 is long enough for the
    label. *)
Definition line10 : list point :=
  [pt 0 0; pt 1 0; pt 2 0; pt 3 0; pt 4 0; pt 5 0; pt 6 0; pt 106 0;
   pt 107 0; pt 108 0].

Definition layout_2_5 : Layout :=
  {| layout_placement := None;
     layout_segment_size := Some [Fin 10];
     layout_spread_factor := None;
     layout_articulated := Some false;
     layout_segment_index := None;
     layout_segment_start := Some 2%Z;
     layout_segment_end := Some 5%Z;
     layout_line_exceed := Fin 0;
     layout_units_per_pixel := Fin 1;
     layout_buffer := Some (Fin 0, Fin 0);
     layout_offset := Some (Fin 0, Fin 0) |}.

(** A layout that leaves [segment_size] out, and a 3-point line whose
    first segment is too short for the label. *)
Definition layout_no_pieces : Layout :=
  {| layout_placement := None;
     layout_segment_size := None;
     layout_spread_factor := None;
     layout_articulated := None;
     layout_segment_index := None;
     layout_segment_start := None;
     layout_segment_end := None;
     layout_line_exceed := Fin 0;
     layout_units_per_pixel := Fin 1;
     layout_buffer := Some (Fin 0, Fin 0);
     layout_offset := Some (Fin 0, Fin 0) |}.

Definition line3_short : list point := [pt 0 0; pt 1 0; pt 2 0].

(** A corner whose two sub-segment vectors agree in sign on the x axis
    and disagree on the y axis: a peak. *)
Definition peak : list point := [pt 0 0; pt 4 3; pt 8 0].

(** Straight vertical lines with 20 map units between points. *)
Definition vline3 : list point := [pt 0 0; pt 0 20; pt 0 40].
Definition vline4 : list point := [pt 0 0; pt 0 20; pt 0 40; pt 0 60].

(** Scenario A of the specification: two points 100 units apart. *)
Definition line2 : list point := [pt 0 0; pt 100 0].

(** The layout of the examples with [line_exceed = 100]. *)
Definition layout_exceed_100 : Layout :=
  {| layout_placement := None;
     layout_segment_size := Some [Fin 5; Fin 5];
     layout_spread_factor := None;
     layout_articulated := None;
     layout_segment_index := None;
     layout_segment_start := None;
     layout_segment_end := None;
     layout_line_exceed := Fin 100;
     layout_units_per_pixel := Fin 1;
     layout_buffer := Some (Fin 0, Fin 0);
     layout_offset := Some (Fin 0, Fin 0) |}.

(** The objects on [vline4] with the label of the examples: size
    (10, 1), pieces [5; 5], articulation on. *)
Definition on_vline4 (t : LabelLine) : Prop :=
  lines t = vline4 /\ size t = (Fin 10, Fin 1) /\
  segment_size t = Some [Fin 5; Fin 5] /\
  should_articulate t = true /\
  layout_segment_size (layout t) = Some [Fin 5; Fin 5] /\
  layout_articulated (layout t) = None /\
  layout_line_exceed (layout t) = Fin 0 /\
  layout_units_per_pixel (layout t) = Fin 1 /\
  layout_buffer (layout t) = Some (Fin 0, Fin 0) /\
  layout_offset (layout t) = Some (Fin 0, Fin 0).

(** A zigzag: the two sub-segment vectors disagree in sign on the x axis
    and agree on the y axis. *)
Definition zigzag : list point := [pt 0 0; pt 3 4; pt 0 8].

(** Objects seeded in corner mode at index 1. *)
Definition corner_on (ln : list point) (width : R) (pieces : list R)
    : LabelLine :=
  init_LabelLine (Fin width, Fin 1) ln
    (with_placement CORNER 1 (example_layout pieces)).

(** A straight object on a segment of zero length, with
    [line_exceed = 100]. *)
Definition on_zero_length_segment : LabelLine :=
  init_LabelLine (Fin 10, Fin 1) [pt 0 0; pt 0 0] layout_exceed_100.

(** Layouts and objects that never enter corner mode: articulation is
    switched off, or there is at most one piece. *)
Definition not_articulated (l : Layout) : Prop :=
  layout_articulated l = Some false \/
  exists ss, layout_segment_size l = Some ss /\ (length ss <= 1)%nat.

Definition straight_only (t : LabelLine) : Prop :=
  placement t = MID_POINT /\
  (should_articulate t = false \/
   exists ss, segment_size t = Some ss /\ (length ss <= 1)%nat) /\
  not_articulated (layout t).

(** The number of segments after the cursor. *)
Definition straight_measure (t : LabelLine) : nat :=
  Z.to_nat (Z.of_nat (length (lines t)) - 2 - segment_index t).

(** ** Vocabulary of the further properties *)

(** The test the kink search applies to the split at piece [j], on
    finite piece widths [rs] and label width [s0]: side 1 carries the
    label without the pieces [j ..], side 2 carries those pieces. *)
Definition split_fits (opp excess line_length1 line_length2 : num) (s0 : R)
    (rs : list R) (j : nat) : bool :=
  (opp * Fin (s0 - Rsum (skipn j rs)) <? excess * line_length1)%js
  && (opp * Fin (Rsum (skipn j rs)) <? excess * line_length2)%js.

(** The straight segment at index [k] of the line of [t] does not fit the
    label of [t]. *)
Definition rejected_at (t : LabelLine) (k : Z) : Prop :=
  forall p q,
    js_nth (lines t) k = Some p -> js_nth (lines t) (k + 1) = Some q ->
    straight_fit (fst (size t)) (layout_units_per_pixel (layout t))
      (layout_line_exceed (layout t)) p q = false.

(** A hairpin: the line turns back onto itself at its middle point. *)
Definition hairpin : list point := [pt 0 0; pt 4 3; pt 0 0].

(** A line whose first segment is too short for a label 10 pixels wide
    and whose second segment is long enough, with a layout that switches
    articulation off. *)
Definition line3_step : list point := [pt 0 0; pt 1 0; pt 101 0].

Definition layout_straight : Layout :=
  {| layout_placement := None;
     layout_segment_size := Some [Fin 10];
     layout_spread_factor := None;
     layout_articulated := Some false;
     layout_segment_index := None;
     layout_segment_start := None;
     layout_segment_end := None;
     layout_line_exceed := Fin 0;
     layout_units_per_pixel := Fin 1;
     layout_buffer := Some (Fin 0, Fin 0);
     layout_offset := Some (Fin 0, Fin 0) |}.

(** The object of the examples on [vline4], before any search. *)
Definition vline4_start : LabelLine :=
  init_LabelLine (Fin 10, Fin 1) vline4 (example_layout [5; 5]).

(** The layout of the examples with [line_exceed = 150]. *)
Definition layout_exceed_150 : Layout :=
  {| layout_placement := None;
     layout_segment_size := Some (map Fin [5; 5]);
     layout_spread_factor := None;
     layout_articulated := None;
     layout_segment_index := None;
     layout_segment_start := None;
     layout_segment_end := None;
     layout_line_exceed := Fin 150;
     layout_units_per_pixel := Fin 1;
     layout_buffer := Some (Fin 0, Fin 0);
     layout_offset := Some (Fin 0, Fin 0) |}.

(** The store holds at most one label per key, and only the keys 0
    and 1. *)
Definition store_ok (t : LabelLine) : Prop :=
  NoDup (map fst (labels t)) /\
  forall i lab, In (i, lab) (labels t) -> i = 0%Z \/ i = 1%Z.

(** ** The placement without the upper bound of the index range *)

(** A layout with its [segment_end] replaced. *)
Definition with_segment_end (e : option Z) (l : Layout) : Layout :=
  {| layout_placement := layout_placement l;
     layout_segment_size := layout_segment_size l;
     layout_spread_factor := layout_spread_factor l;
     layout_articulated := layout_articulated l;
     layout_segment_index := layout_segment_index l;
     layout_segment_start := layout_segment_start l;
     layout_segment_end := e;
     layout_line_exceed := layout_line_exceed l;
     layout_units_per_pixel := layout_units_per_pixel l;
     layout_buffer := layout_buffer l;
     layout_offset := layout_offset l |}.

Definition forget_end_label (e : Z * Label) : Z * Label :=
  (fst e,
   mkLabel (label_size (snd e))
     (with_segment_end None (label_layout (snd e)))
     (label_obb (snd e)) (label_aabb (snd e)) (label_offset (snd e))
     (label_position (snd e)) (label_angle (snd e))).

(** An object with every trace of [segment_end] erased: the option in
    its layout and in the layouts of its part labels, and the field
    [segment_max] the constructor derives from it. *)
Definition forget_end (t : LabelLine) : LabelLine :=
  mkLabelLine (size t) (with_segment_end None (layout t)) (lines t)
    (position t) (placement t) (isArticulated t) (segment_size t)
    (collapsed_size t) (kink_index t) (spread_factor t)
    (should_articulate t) (segment_index t) 0 (throw_away t) (angle t)
    (map forget_end_label (labels t)).

Definition result_map {A B : Type} (f : A -> B) (r : result A) : result B :=
  match r with
  | Ok a => Ok (f a)
  | Throw e => Throw e
  | Diverge => Diverge
  end.

(** The outcome of a method with [segment_end] erased from the object it
    leaves. *)
Definition forget_end_after {A : Type} (r : result (A * LabelLine))
    : result (A * LabelLine) :=
  result_map (fun p => (fst p, forget_end (snd p))) r.

(** ** The read of [label] before its declaration

    In [updateBBoxes] the calls [this.removeLabel(i, label)] (line 292)
    and [this.removeLabel(0, label)] (line 324) read the variable [label]
    that the same block declares with [let] only further down (lines 313
    and 332).  What that read does depends on how the file is run: under
    ES2015 as written the variable is in its temporal dead zone and the
    read raises a ReferenceError; once [let] has been compiled to [var]
    the declaration is hoisted and the read yields [undefined]. *)
Inductive let_semantics : Type :=
| TemporalDeadZone
| HoistedVar.

Definition read_label_before_let (m : let_semantics) : M unit :=
  match m with
  | TemporalDeadZone => throw ReferenceError
  | HoistedVar => ret tt
  end.

Section MethodsAs.

Context {ext : Collaborators}.
Variable m : let_semantics.

(** One round of the [for] loop of the corner case: the arguments of
    [removeLabel] are evaluated first. *)
Definition updateBBoxes_side_as (upp height dx : num) (i : Z) : M unit :=
  read_label_before_let m ;;;
  updateBBoxes_side upp height dx i.

Definition updateBBoxes_as : M unit :=
  l <- get layout ;;
  sz <- get size ;;
  let upp := layout_units_per_pixel l in
  buffer <- require (layout_buffer l) ;;
  let height := ((snd sz + snd buffer * Fin 2) * upp * Label_epsilon)%js in
  p <- get placement ;;
  match p with
  | CORNER =>
      a <- get angle ;;
      a <- require a ;;
      let angle0 := wrap_negative (js_num_at a 0) in
      let angle1 := wrap_negative (js_num_at a 1) in
      let theta := (Math.PI - Math.abs (angle1 - angle0))%js in
      sf <- get spread_factor ;;
      let dx := (sf * Math.abs (snd sz / Math.tan (Fin (1 / 2) * theta)))%js in
      updateBBoxes_side_as upp height dx 0 ;;;
      updateBBoxes_side_as upp height dx 1
  | MID_POINT =>
      read_label_before_let m ;;;
      removeLabel 0 ;;;
      let width := ((fst sz + fst buffer * Fin 2) * upp * Label_epsilon)%js in
      a <- get angle ;;
      a <- require a ;;
      let angle := js_num_at a 0 in
      this_position <- get position ;;
      pos <- require this_position ;;
      off <- require (layout_offset l) ;;
      let obb := getOBB pos width height angle off upp in
      let aabb := OBB_getExtent obb in
      let label := mkLabel sz l obb aabb off this_position angle in
      addLabel 0 label
  end.

Definition update_as : M unit :=
  a <- getCurrentAngle ;;
  modify (set_angle (Some a)) ;;;
  p <- getCurrentPosition ;;
  modify (set_position (Some p)) ;;;
  updateBBoxes_as.

Fixpoint getNextFittingSegment_rec_as (fuel : nat)
    (segment : option Segment) : M (option Segment) :=
  match fuel with
  | O => fun _ => Diverge
  | S fuel' =>
      segment <- match segment with
                 | Some s => ret (Some s)
                 | None => getNextSegment
                 end ;;
      match segment with
      | None => ret None
      | Some seg =>
          fits <- doesSegmentFit seg ;;
          if fits then
            update_as ;;;
            tile <- get inTileBounds ;;
            ok <- (if tile then inAngleBounds else ret false) ;;
            if ok then
              modify (fun t =>
                set_isArticulated
                  (match placement t with CORNER => true | MID_POINT => false end)
                  t) ;;;
              ret (Some seg)
            else getNextFittingSegment_rec_as fuel' None
          else getNextFittingSegment_rec_as fuel' None
      end
  end.

Definition getNextFittingSegment_as (segment : option Segment)
    : M (option Segment) :=
  fun this =>
    getNextFittingSegment_rec_as (cursor_measure this + 2) segment this.

Definition new_LabelLine_as (size : vec) (lines : list point)
    (layout : Layout) : result LabelLine :=
  let this := init_LabelLine size lines layout in
  match getNextFittingSegment_as (Some (getCurrentSegment this)) this with
  | Ok (Some _, this) => Ok this
  | Ok (None, this) => Ok (set_throw_away true this)
  | Throw e => Throw e
  | Diverge => Diverge
  end.

Definition nextLabel_as (label : LabelLine)
    : result (option LabelLine * LabelLine) :=
  match getNextSegment label with
  | Ok (None, label) => Ok (None, label)
  | Ok (Some _, label) =>
      match new_LabelLine_as (size label) (lines label)
              (next_layout label) with
      | Ok nextLabel =>
          Ok (if throw_away nextLabel then None else Some nextLabel, label)
      | Throw e => Throw e
      | Diverge => Diverge
      end
  | Throw e => Throw e
  | Diverge => Diverge
  end.

End MethodsAs.

(** ** The straight fit test in double precision

    The [MID_POINT] case of [doesSegmentFit] (lines 132-137) on IEEE 754
    binary64 numbers, every operation rounded as JavaScript rounds it. *)
Module Double.

(** Modelled from the spec: the vector primitives of [../vector], the
    componentwise difference and the square root of the sum of
    squares. *)
Definition Vector_sub (v1 v2 : float * float) : float * float :=
  (PrimFloat.sub (fst v1) (fst v2), PrimFloat.sub (snd v1) (snd v2)).

Definition Vector_length (v : float * float) : float :=
  PrimFloat.sqrt
    (PrimFloat.add (PrimFloat.mul (fst v) (fst v))
                   (PrimFloat.mul (snd v) (snd v))).

Definition straight_fit (size0 units_per_pixel line_exceed : float)
    (segment0 segment1 : float * float) : bool :=
  let excess :=
    PrimFloat.div 100%float (PrimFloat.sub 100%float line_exceed) in
  let p0p1 := Vector_sub segment0 segment1 in
  let line_length := Vector_length p0p1 in
  let label_length := PrimFloat.mul size0 units_per_pixel in
  PrimFloat.ltb label_length (PrimFloat.mul excess line_length).

End Double.
(** * Properties *)

(** ** Numbers *)

Lemma js_lt_Fin (a b : R) : js_lt (Fin a) (Fin b) = true <-> a < b.
Proof.
  simpl. destruct (Rlt_dec a b); split; intros; auto; try discriminate; lra.
Qed.

Lemma js_lt_Fin_false (a b : R) : js_lt (Fin a) (Fin b) = false <-> b <= a.
Proof.
  simpl. destruct (Rlt_dec a b); split; intros; auto; try discriminate; lra.
Qed.

Lemma js_le_Fin (a b : R) : js_le (Fin a) (Fin b) = true <-> a <= b.
Proof.
  simpl. destruct (Rle_dec a b); split; intros; auto; try discriminate; lra.
Qed.

Lemma js_le_Fin_false (a b : R) : js_le (Fin a) (Fin b) = false <-> b < a.
Proof.
  simpl. destruct (Rle_dec a b); split; intros; auto; try discriminate; lra.
Qed.

Lemma js_div_Fin (a b : R) : b <> 0 -> (Fin a / Fin b)%js = Fin (a / b).
Proof.
  intros Hb. simpl. destruct (Req_dec_T b 0); [contradiction | reflexivity].
Qed.

Lemma PI_2_eq : (Math.PI / Fin 2)%js = Fin (PI / 2).
Proof. unfold Math.PI. apply js_div_Fin. lra. Qed.

Lemma MAX_ANGLE_eq : MAX_ANGLE = Fin (PI / 2).
Proof. exact PI_2_eq. Qed.

Lemma Rsign_case_neg {A : Type} (r : R) (n z p : A) :
  r < 0 -> Rsign_case r n z p = n.
Proof.
  intros H. unfold Rsign_case.
  destruct (total_order_T r 0) as [[?|?]|?]; auto; lra.
Qed.

Lemma Rsign_case_zero {A : Type} (r : R) (n z p : A) :
  r = 0 -> Rsign_case r n z p = z.
Proof.
  intros H. unfold Rsign_case.
  destruct (total_order_T r 0) as [[?|?]|?]; auto; lra.
Qed.

Lemma Rsign_case_pos {A : Type} (r : R) (n z p : A) :
  0 < r -> Rsign_case r n z p = p.
Proof.
  intros H. unfold Rsign_case.
  destruct (total_order_T r 0) as [[?|?]|?]; auto; lra.
Qed.

Lemma atan_nonpos (r : R) : r <= 0 -> atan r <= 0.
Proof.
  intros [H | H].
  - left. rewrite <- atan_0. now apply atan_increasing.
  - subst. rewrite atan_0. lra.
Qed.

Lemma atan_pos (r : R) : 0 < r -> 0 < atan r.
Proof. intros H. rewrite <- atan_0. now apply atan_increasing. Qed.

Lemma atan2R_bound (y x : R) : - PI < Math.atan2R y x <= PI.
Proof.
  pose proof PI_RGT_0 as HPI.
  unfold Math.atan2R.
  destruct (total_order_T x 0) as [[Hx | Hx] | Hx].
  - pose proof (Rinv_lt_0_compat x Hx) as Hi.
    pose proof (atan_bound (y / x)) as Hb.
    destruct (Rle_dec 0 y) as [Hy | Hy].
    + assert (y / x <= 0) by (unfold Rdiv; nra).
      pose proof (atan_nonpos _ H). lra.
    + assert (0 < y / x) by (unfold Rdiv; nra).
      pose proof (atan_pos _ H). lra.
  - unfold Rsign_case.
    destruct (total_order_T y 0) as [[? | ?] | ?]; lra.
  - pose proof (atan_bound (y / x)). lra.
Qed.

(** The remainder of a non-negative dividend by a positive divisor lies
    in [[0, divisor)]. *)
Lemma Rtrunc_mod_bound (x y : R) :
  0 <= x -> 0 < y -> 0 <= x - y * IZR (Rtrunc (x / y)) < y.
Proof.
  intros Hx Hy.
  assert (Hq : 0 <= x / y).
  { unfold Rdiv. pose proof (Rinv_0_lt_compat y Hy). nra. }
  unfold Rtrunc. destruct (Rlt_dec (x / y) 0) as [H | _]; [lra |].
  destruct (base_Int_part (x / y)) as [H1 H2].
  assert (Hxy : x = x / y * y) by (field; lra).
  set (q := x / y) in *. set (n := IZR (Int_part q)) in *.
  rewrite Hxy at 1 2. split; nra.
Qed.

Lemma normalize_angleR_range (theta : R) :
  - (PI / 2) <= theta <= 3 * PI / 2 -> 0 <= normalize_angleR theta < 2 * PI.
Proof.
  pose proof PI_RGT_0 as HPI. intros Hb.
  unfold normalize_angleR.
  destruct (Rle_dec _ _) as [H1 | H1].
  - apply Rtrunc_mod_bound; lra.
  - destruct (Rlt_dec _ _) as [H2 | H2]; lra.
Qed.

Lemma angleR_range (dx dy : R) : 0 <= angleR dx dy < 2 * PI.
Proof.
  pose proof PI_RGT_0 as HPI.
  pose proof (atan2R_bound dx dy) as Hb.
  apply normalize_angleR_range. lra.
Qed.

(** On a finite [theta] the normalisation of [getAngleFromSegment]. *)
Lemma normalize_Fin (theta : R) :
  (if (Fin theta >=? Fin (PI / 2))%js
   then Ok (js_mod (Fin theta + Math.PI)%js (Fin 2 * Math.PI)%js)
   else if (Fin theta <? Fin 0)%js
        then Ok (Fin theta + Fin 2 * Math.PI)%js
        else Ok (Fin theta))
  = Ok (Fin (normalize_angleR theta)).
Proof.
  pose proof PI_RGT_0 as HPI.
  unfold normalize_angleR, Math.PI.
  cbn [js_add js_mul js_ge js_le js_lt js_mod].
  destruct (Rle_dec _ _) as [H1 | H1].
  - destruct (Req_dec_T (2 * PI) 0); [lra | reflexivity].
  - destruct (Rlt_dec _ _); reflexivity.
Qed.

Lemma getAngleFromSegment_Fin (x1 y1 x2 y2 : R) :
  getAngleFromSegment (Some (Fin x1, Fin y1)) (Some (Fin x2, Fin y2))
  = Ok (Fin (angleR (x1 - x2) (y1 - y2))).
Proof.
  unfold getAngleFromSegment, angleR.
  cbn [Vector.sub fst snd js_sub js_neg js_add].
  rewrite PI_2_eq. cbn [Math.atan2 js_add].
  fold (x1 - x2) (y1 - y2).
  apply normalize_Fin.
Qed.

(** ** The method monad *)

Ltac unfold_M :=
  unfold require, lift in *; unfold bind, get, ret, modify, throw in *.

Ltac break_hyp H :=
  match type of H with
  | context [match ?x with _ => _ end] =>
      lazymatch x with
      | context [match _ with _ => _ end] => fail
      | _ => destruct x eqn:?
      end
  end.

Ltac run_hyp H :=
  repeat (first [discriminate H | break_hyp H]).

Lemma same_cursor_refl (t : LabelLine) : same_cursor t t.
Proof. unfold same_cursor; tauto. Qed.

Lemma same_cursor_trans (a b c : LabelLine) :
  same_cursor a b -> same_cursor b c -> same_cursor a c.
Proof.
  unfold same_cursor. intros H1 H2.
  decompose [and] H1. decompose [and] H2.
  repeat split; congruence.
Qed.

Lemma same_cursor_segment (t t' : LabelLine) :
  same_cursor t t' -> getCurrentSegment t' = getCurrentSegment t.
Proof.
  unfold same_cursor, getCurrentSegment. intros H. decompose [and] H.
  repeat match goal with H : _ = _ |- _ => rewrite H; clear H end.
  reflexivity.
Qed.


(** ** Frame properties: only the cursor moves the cursor *)

Lemma fitKinkedSegment_frame (seg : Segment) (t t' : LabelLine) (b : bool) :
  fitKinkedSegment seg t = Ok (b, t') -> same_cursor t t'.
Proof.
  unfold fitKinkedSegment. unfold_M. intros H.
  run_hyp H; inversion H; subst; unfold same_cursor; simpl; tauto.
Qed.

Lemma doesSegmentFit_frame (seg : Segment) (t t' : LabelLine) (b : bool) :
  doesSegmentFit seg t = Ok (b, t') -> same_cursor t t'.
Proof.
  unfold doesSegmentFit. unfold bind at 1. unfold get at 1.
  destruct (placement t) eqn:Hp.
  - unfold_M. intros H. run_hyp H. inversion H; subst. apply same_cursor_refl.
  - apply fitKinkedSegment_frame.
Qed.

Lemma inAngleBounds_state (t t' : LabelLine) (b : bool) :
  inAngleBounds t = Ok (b, t') -> t' = t.
Proof.
  unfold inAngleBounds. unfold_M. intros H.
  run_hyp H; inversion H; reflexivity.
Qed.

Lemma getCurrentAngle_state (t t' : LabelLine) (a : list num) :
  getCurrentAngle t = Ok (a, t') -> t' = t.
Proof.
  unfold getCurrentAngle. unfold_M. intros H.
  run_hyp H; inversion H; reflexivity.
Qed.

Lemma getCurrentPosition_state (t t' : LabelLine) (p : vec) :
  getCurrentPosition t = Ok (p, t') -> t' = t.
Proof.
  unfold getCurrentPosition. unfold_M. intros H.
  run_hyp H; inversion H; reflexivity.
Qed.

Section Frames.

Context {ext : Collaborators}.

Lemma updateBBoxes_side_frame (upp height dx : num) (i : Z) (t t' : LabelLine) :
  updateBBoxes_side upp height dx i t = Ok (tt, t') ->
  same_cursor t t' /\ angle t' = angle t /\ position t' = position t /\
  collapsed_size t' = collapsed_size t /\ kink_index t' = kink_index t.
Proof.
  unfold updateBBoxes_side, removeLabel, addLabel. unfold_M. intros H.
  cbn in H.
  run_hyp H; inversion H; subst; unfold same_cursor; simpl; tauto.
Qed.

Lemma updateBBoxes_frame (t t' : LabelLine) :
  updateBBoxes t = Ok (tt, t') ->
  same_cursor t t' /\ angle t' = angle t /\ position t' = position t /\
  collapsed_size t' = collapsed_size t /\ kink_index t' = kink_index t.
Proof.
  unfold updateBBoxes.
  unfold bind at 1 2 3 4. unfold get at 1 2 3. unfold require at 1.
  destruct (layout_buffer (layout t)) as [buf |]; [| discriminate].
  unfold ret at 1.
  destruct (placement t) eqn:Hp.
  - unfold removeLabel, addLabel. unfold_M. cbn. intros H.
    run_hyp H; inversion H; subst; unfold same_cursor; simpl; tauto.
  - unfold bind at 1 2 3. unfold get at 1. unfold require at 1.
    destruct (angle t) as [a |] eqn:Ha; [| discriminate].
    unfold ret at 1. unfold get at 1. unfold bind at 1.
    destruct (updateBBoxes_side _ _ _ 0 t) as [[[] t1] | |] eqn:H1;
      try discriminate.
    intros H2.
    apply updateBBoxes_side_frame in H1, H2.
    destruct H1 as (A1 & B1 & C1 & D1 & E1).
    destruct H2 as (A2 & B2 & C2 & D2 & E2).
    split; [eapply same_cursor_trans; eassumption |].
    repeat split; congruence.
Qed.

End Frames.

(** ** The segment cursor *)

Lemma cursor_le_refl (t : LabelLine) : cursor_le t t.
Proof. unfold cursor_le. repeat split; auto; lia. Qed.

Lemma cursor_le_trans (a b c : LabelLine) :
  cursor_le a b -> cursor_le b c -> cursor_le a c.
Proof.
  unfold cursor_le. intros H1 H2.
  decompose [and] H1. decompose [and] H2.
  repeat split; try congruence; lia.
Qed.

Lemma same_cursor_le (t t' : LabelLine) : same_cursor t t' -> cursor_le t t'.
Proof.
  unfold same_cursor, cursor_le, cursor_measure. intros H.
  decompose [and] H.
  repeat match goal with H : _ = _ |- _ => rewrite H; clear H end.
  repeat split; auto; lia.
Qed.

Lemma same_cursor_measure (t t' : LabelLine) :
  same_cursor t t' -> cursor_measure t' = cursor_measure t.
Proof.
  unfold same_cursor, cursor_measure. intros H. decompose [and] H.
  repeat match goal with H : _ = _ |- _ => rewrite H; clear H end.
  reflexivity.
Qed.

Lemma getNextSegment_CORNER (t : LabelLine) :
  placement t = CORNER ->
  getNextSegment t =
    Ok (Some (getCurrentSegment (set_placement MID_POINT t)),
        set_placement MID_POINT t).
Proof.
  intros Hp. unfold getNextSegment. unfold_M. rewrite Hp. reflexivity.
Qed.

Lemma getNextSegment_exhausted (t : LabelLine) :
  placement t = MID_POINT ->
  (segment_index t >= Z.of_nat (length (lines t)) - 2)%Z ->
  getNextSegment t = Ok (None, t).
Proof.
  intros Hp Hi. unfold getNextSegment. unfold_M. rewrite Hp.
  destruct (Z.geb_spec (segment_index t) (Z.of_nat (length (lines t)) - 2));
    [reflexivity | lia].
Qed.

Lemma getNextSegment_None (t t' : LabelLine) :
  getNextSegment t = Ok (None, t') ->
  t' = t /\ placement t = MID_POINT /\
  (segment_index t >= Z.of_nat (length (lines t)) - 2)%Z.
Proof.
  unfold getNextSegment. unfold_M. intros H.
  run_hyp H; inversion H; subst; repeat split; auto; lia.
Qed.

Lemma getNextSegment_Some (t t' : LabelLine) (s : Segment) :
  getNextSegment t = Ok (Some s, t') ->
  s = getCurrentSegment t' /\
  cursor_le t t' /\
  (cursor_measure t' < cursor_measure t)%nat /\
  throw_away t' = throw_away t /\
  ((placement t = CORNER /\ placement t' = MID_POINT /\
    segment_index t' = segment_index t)
   \/
   (placement t = MID_POINT /\
    (segment_index t < Z.of_nat (length (lines t)) - 2)%Z /\
    segment_index t' = (segment_index t + 1)%Z)).
Proof.
  unfold getNextSegment. unfold_M. intros H.
  run_hyp H; inversion H; subst; clear H;
    unfold cursor_le, cursor_measure; simpl;
    repeat match goal with H : placement _ = _ |- _ => rewrite H end;
    repeat match goal with
    | H : (_ >=? _)%Z = false |- _ => apply Z.geb_leb in H; apply Z.leb_gt in H
    end;
    (split; [reflexivity |]);
    (split; [repeat split; auto; lia |]);
    (split; [lia |]);
    (split; [reflexivity |]);
    auto; try (right; repeat split; auto; lia);
    try (left; repeat split; auto).
Qed.

Lemma getNextSegment_no_diverge (t : LabelLine) : getNextSegment t <> Diverge.
Proof.
  unfold getNextSegment. unfold_M. intros H. run_hyp H.
Qed.

Lemma getCurrentPosition_set_angle (a : option (list num)) (t : LabelLine) (p : vec) :
  getCurrentPosition (set_angle a t) = Ok (p, set_angle a t) ->
  getCurrentPosition t = Ok (p, t).
Proof.
  unfold getCurrentPosition, getCurrentSegment. unfold_M. simpl.
  intros H. run_hyp H; inversion H; subst; reflexivity.
Qed.

(** ** The search for a fitting segment *)

Section Search.

Context {ext : Collaborators}.

Lemma update_spec (t t' : LabelLine) :
  update t = Ok (tt, t') ->
  exists a p,
    getCurrentAngle t = Ok (a, t) /\
    getCurrentPosition t = Ok (p, t) /\
    angle t' = Some a /\ position t' = Some p /\
    same_cursor t t' /\
    collapsed_size t' = collapsed_size t /\ kink_index t' = kink_index t.
Proof.
  unfold update. unfold bind at 1.
  destruct (getCurrentAngle t) as [[a t1] | |] eqn:Ha; try discriminate.
  pose proof (getCurrentAngle_state _ _ _ Ha); subst t1.
  unfold bind at 1. unfold modify at 1.
  unfold bind at 1.
  destruct (getCurrentPosition (set_angle (Some a) t)) as [[p t1] | |] eqn:Hp;
    try discriminate.
  pose proof (getCurrentPosition_state _ _ _ Hp); subst t1.
  unfold bind at 1. unfold modify at 1.
  intros H. apply updateBBoxes_frame in H.
  destruct H as (A & B & C & D & E).
  exists a, p.
  split; [reflexivity |].
  split; [eapply getCurrentPosition_set_angle; eassumption |].
  unfold same_cursor in *; simpl in *. tauto.
Qed.

Lemma rec_unfold_Some (fuel : nat) (seg : Segment) (t : LabelLine) :
  getNextFittingSegment_rec (S fuel) (Some seg) t =
  match try_segment seg t with
  | Ok (true, t') => Ok (Some seg, t')
  | Ok (false, t') => getNextFittingSegment_rec fuel None t'
  | Throw e => Throw e
  | Diverge => Diverge
  end.
Proof.
  cbn [getNextFittingSegment_rec]. unfold try_segment. unfold_M.
  destruct (doesSegmentFit seg t) as [[[] t1] | |]; try reflexivity.
  destruct (update t1) as [[[] t2] | |]; try reflexivity.
  destruct (inTileBounds t2); [| reflexivity].
  destruct (inAngleBounds t2) as [[[] t3] | |]; reflexivity.
Qed.

Lemma rec_unfold_None (fuel : nat) (t : LabelLine) :
  getNextFittingSegment_rec (S fuel) None t =
  match getNextSegment t with
  | Ok (Some seg, t') => getNextFittingSegment_rec (S fuel) (Some seg) t'
  | Ok (None, t') => Ok (None, t')
  | Throw e => Throw e
  | Diverge => Diverge
  end.
Proof.
  cbn [getNextFittingSegment_rec]. unfold bind at 1.
  destruct (getNextSegment t) as [[[seg |] t1] | |]; try reflexivity.
Qed.

Lemma try_segment_true (seg : Segment) (t t' : LabelLine) :
  try_segment seg t = Ok (true, t') ->
  exists t1 t2,
    doesSegmentFit seg t = Ok (true, t1) /\
    update t1 = Ok (tt, t2) /\
    inTileBounds t2 = true /\
    inAngleBounds t2 = Ok (true, t2) /\
    t' = set_isArticulated
           (match placement t2 with CORNER => true | MID_POINT => false end)
           t2.
Proof.
  unfold try_segment. unfold_M.
  destruct (doesSegmentFit seg t) as [[[] t1] | |] eqn:Hf; try discriminate.
  destruct (update t1) as [[[] t2] | |] eqn:Hu; try discriminate.
  destruct (inTileBounds t2) eqn:Ht; try discriminate.
  destruct (inAngleBounds t2) as [[[] t3] | |] eqn:Ha; try discriminate.
  intros H. inversion H; subst.
  pose proof (inAngleBounds_state _ _ _ Ha); subst t3.
  exists t1, t2. repeat split; auto.
Qed.

Lemma try_segment_frame (seg : Segment) (t t' : LabelLine) (b : bool) :
  try_segment seg t = Ok (b, t') -> same_cursor t t'.
Proof.
  unfold try_segment. unfold_M.
  destruct (doesSegmentFit seg t) as [[[] t1] | |] eqn:Hf; try discriminate.
  - apply doesSegmentFit_frame in Hf.
    destruct (update t1) as [[[] t2] | |] eqn:Hu; try discriminate.
    apply update_spec in Hu. destruct Hu as (a & p & _ & _ & _ & _ & Hu & _).
    pose proof (same_cursor_trans _ _ _ Hf Hu) as Hc.
    destruct (inTileBounds t2).
    + destruct (inAngleBounds t2) as [[[] t3] | |] eqn:Ha; try discriminate;
        pose proof (inAngleBounds_state _ _ _ Ha); subst t3;
        intros H; inversion H; subst; auto.
      all: try (unfold same_cursor in *; simpl; tauto).
    + intros H; inversion H; subst; auto.
  - apply doesSegmentFit_frame in Hf.
    intros H; inversion H; subst; auto.
Qed.

(** The search result: either exhaustion at the end of the line, or an
    accepted segment at a cursor position at or after the start. *)
Lemma rec_result (fuel : nat) :
  forall (seg : option Segment) (t t' : LabelLine) (r : option Segment),
  segment_of_cursor seg t ->
  getNextFittingSegment_rec fuel seg t = Ok (r, t') ->
  match r with
  | Some s =>
      exists t0,
        cursor_le t t0 /\
        (seg = None -> (cursor_measure t0 < cursor_measure t)%nat) /\
        throw_away t0 = throw_away t /\
        s = getCurrentSegment t0 /\
        accepted t0 t'
  | None =>
      cursor_le t t' /\ throw_away t' = throw_away t /\
      placement t' = MID_POINT /\
      (segment_index t' >= Z.of_nat (length (lines t')) - 2)%Z
  end.
Proof.
  induction fuel as [| fuel IH]; [discriminate |].
  assert (HSome : forall s t t' r,
    s = getCurrentSegment t ->
    getNextFittingSegment_rec (S fuel) (Some s) t = Ok (r, t') ->
    match r with
    | Some s' =>
        exists t0,
          cursor_le t t0 /\ throw_away t0 = throw_away t /\
          s' = getCurrentSegment t0 /\ accepted t0 t'
    | None =>
        cursor_le t t' /\ throw_away t' = throw_away t /\
        placement t' = MID_POINT /\
        (segment_index t' >= Z.of_nat (length (lines t')) - 2)%Z
    end).
  { intros s t t' r Hs. rewrite rec_unfold_Some.
    destruct (try_segment s t) as [[[] t1] | |] eqn:Ht; try discriminate.
    - intros H. inversion H; subst.
      exists t. split; [apply cursor_le_refl |]. split; [reflexivity |].
      split; [reflexivity |].
      apply try_segment_true in Ht. exact Ht.
    - intros H. apply try_segment_frame in Ht.
      pose proof (same_cursor_le _ _ Ht) as Hle.
      assert (Hta : throw_away t1 = throw_away t)
        by (unfold same_cursor in Ht; tauto).
      apply IH in H; [| exact I].
      destruct r as [s' |].
      + destruct H as (t0 & A & _ & B & C & D).
        exists t0. split; [eapply cursor_le_trans; eassumption |].
        split; [congruence |]. auto.
      + destruct H as (A & B & C & D).
        split; [eapply cursor_le_trans; eassumption |].
        split; [congruence |]. auto. }
  intros [s |] t t' r Hseg H.
  - simpl in Hseg. apply HSome in H; auto.
    destruct r as [s' |]; auto.
    destruct H as (t0 & A & B & C & D).
    exists t0. split; [exact A |]. split; [discriminate |]. auto.
  - rewrite rec_unfold_None in H.
    destruct (getNextSegment t) as [[[s |] t1] | |] eqn:Hn; try discriminate.
    + apply getNextSegment_Some in Hn.
      destruct Hn as (Hs & Hle & Hlt & Hta & _).
      apply HSome in H; auto.
      destruct r as [s' |].
      * destruct H as (t0 & A & B & C & D).
        exists t0. split; [eapply cursor_le_trans; eassumption |].
        split; [intros _; unfold cursor_le in A; lia |].
        split; [congruence |]. auto.
      * destruct H as (A & B & C & D).
        split; [eapply cursor_le_trans; eassumption |].
        split; [congruence |]. auto.
    + apply getNextSegment_None in Hn. destruct Hn as (-> & Hp & Hi).
      inversion H; subst.
      split; [apply cursor_le_refl |]. auto.
Qed.

End Search.

(** ** Totality: no operation runs out of its recursion budget *)

Lemma Vector_sub_no_diverge (a b : option vec) : Vector.sub a b <> Diverge.
Proof.
  unfold Vector.sub. destruct a as [[? ?] |], b as [[? ?] |]; discriminate.
Qed.

Lemma getAngleFromSegment_no_diverge (a b : option point) :
  getAngleFromSegment a b <> Diverge.
Proof.
  unfold getAngleFromSegment.
  destruct (Vector.sub a b) eqn:Hs; try discriminate.
  - destruct (js_ge _ _); [discriminate |].
    destruct (js_lt _ _); discriminate.
  - now apply Vector_sub_no_diverge in Hs.
Qed.

Ltac no_diverge H :=
  run_hyp H;
  repeat match goal with
  | E : Vector.sub _ _ = Diverge |- _ =>
      now apply Vector_sub_no_diverge in E
  | E : getAngleFromSegment _ _ = Diverge |- _ =>
      now apply getAngleFromSegment_no_diverge in E
  end.

Lemma doesSegmentFit_no_diverge (seg : Segment) (t : LabelLine) :
  doesSegmentFit seg t <> Diverge.
Proof.
  unfold doesSegmentFit, fitKinkedSegment. unfold_M. intros H. no_diverge H.
Qed.

Lemma inAngleBounds_no_diverge (t : LabelLine) : inAngleBounds t <> Diverge.
Proof.
  unfold inAngleBounds. unfold_M. intros H. no_diverge H.
Qed.

Lemma getCurrentAngle_no_diverge (t : LabelLine) : getCurrentAngle t <> Diverge.
Proof.
  unfold getCurrentAngle. unfold_M. intros H. no_diverge H.
Qed.

Lemma getCurrentPosition_no_diverge (t : LabelLine) :
  getCurrentPosition t <> Diverge.
Proof.
  unfold getCurrentPosition. unfold_M. intros H. no_diverge H.
Qed.

Section Totality.

Context {ext : Collaborators}.

Lemma updateBBoxes_side_no_diverge (upp height dx : num) (i : Z) (t : LabelLine) :
  updateBBoxes_side upp height dx i t <> Diverge.
Proof.
  unfold updateBBoxes_side, removeLabel, addLabel. unfold_M. cbn.
  intros H. no_diverge H.
Qed.

Lemma updateBBoxes_no_diverge (t : LabelLine) : updateBBoxes t <> Diverge.
Proof.
  unfold updateBBoxes. unfold removeLabel, addLabel.
  unfold require, bind, get, ret, modify, throw. intros H.
  destruct (layout_buffer (layout t)); [| discriminate].
  destruct (placement t).
  - cbn in H. no_diverge H.
  - destruct (angle t); [| discriminate].
    destruct (updateBBoxes_side _ _ _ 0 t) as [[[] t1] | |] eqn:H1;
      try discriminate.
    + now apply updateBBoxes_side_no_diverge in H.
    + now apply updateBBoxes_side_no_diverge in H1.
Qed.

Lemma update_no_diverge (t : LabelLine) : update t <> Diverge.
Proof.
  unfold update. unfold bind, modify. intros H.
  destruct (getCurrentAngle t) as [[a t1] | |] eqn:Ha; try discriminate.
  - destruct (getCurrentPosition _) as [[p t2] | |] eqn:Hp; try discriminate.
    + now apply updateBBoxes_no_diverge in H.
    + now apply getCurrentPosition_no_diverge in Hp.
  - now apply getCurrentAngle_no_diverge in Ha.
Qed.

Lemma try_segment_no_diverge (seg : Segment) (t : LabelLine) :
  try_segment seg t <> Diverge.
Proof.
  unfold try_segment. unfold_M. intros H.
  destruct (doesSegmentFit seg t) as [[[] t1] | |] eqn:Hf; try discriminate.
  - destruct (update t1) as [[[] t2] | |] eqn:Hu; try discriminate.
    + destruct (inTileBounds t2); [| discriminate].
      destruct (inAngleBounds t2) as [[[] t3] | |] eqn:Ha; try discriminate.
      now apply inAngleBounds_no_diverge in Ha.
    + now apply update_no_diverge in Hu.
  - now apply doesSegmentFit_no_diverge in Hf.
Qed.

(** The search never runs out of budget when given at least
    [cursor_measure + 2] calls ([+ 1] when it starts by advancing). *)
Lemma rec_no_diverge (fuel : nat) :
  forall (seg : option Segment) (t : LabelLine),
  (cursor_measure t + match seg with Some _ => 2 | None => 1 end <= fuel)%nat ->
  getNextFittingSegment_rec fuel seg t <> Diverge.
Proof.
  induction fuel as [| fuel IH].
  { intros [s |] t Hf; lia. }
  assert (HSome : forall s t,
    (cursor_measure t + 2 <= S fuel)%nat ->
    getNextFittingSegment_rec (S fuel) (Some s) t <> Diverge).
  { intros s t Hf. rewrite rec_unfold_Some.
    destruct (try_segment s t) as [[[] t1] | |] eqn:Ht; try discriminate.
    - apply try_segment_frame in Ht. apply same_cursor_le in Ht.
      apply IH. unfold cursor_le in Ht. lia.
    - now apply try_segment_no_diverge in Ht. }
  intros [s |] t Hf.
  - now apply HSome.
  - rewrite rec_unfold_None.
    destruct (getNextSegment t) as [[[s |] t1] | |] eqn:Hn; try discriminate.
    + apply getNextSegment_Some in Hn. apply HSome. lia.
    + now apply getNextSegment_no_diverge in Hn.
Qed.

Lemma getNextFittingSegment_no_diverge (seg : option Segment) (t : LabelLine) :
  getNextFittingSegment seg t <> Diverge.
Proof.
  unfold getNextFittingSegment. apply rec_no_diverge.
  destruct seg; lia.
Qed.

Lemma new_LabelLine_no_diverge (sz : vec) (ln : list point) (l : Layout) :
  new_LabelLine sz ln l <> Diverge.
Proof.
  unfold new_LabelLine.
  destruct (getNextFittingSegment _ _) as [[[s |] t1] | |] eqn:H;
    try discriminate.
  now apply getNextFittingSegment_no_diverge in H.
Qed.

Lemma nextLabel_no_diverge (label : LabelLine) : nextLabel label <> Diverge.
Proof.
  unfold nextLabel.
  destruct (getNextSegment label) as [[[s |] t1] | |] eqn:Hn;
    try discriminate.
  - destruct (new_LabelLine _ _ _) eqn:Hc; try discriminate.
    now apply new_LabelLine_no_diverge in Hc.
  - now apply getNextSegment_no_diverge in Hn.
Qed.

End Totality.

(** ** Well-formed inputs raise no exception *)

Lemma js_nth_in_range {A : Type} (l : list A) (i : Z) :
  (0 <= i < Z.of_nat (length l))%Z -> exists a, js_nth l i = Some a.
Proof.
  intros Hi. unfold js_nth.
  destruct (Z.ltb_spec i 0); [lia |].
  destruct (nth_error l (Z.to_nat i)) eqn:Hn; [eauto |].
  apply nth_error_None in Hn. lia.
Qed.

Lemma segment_MID_POINT (t : LabelLine) :
  cursor_in_line t -> placement t = MID_POINT ->
  exists p q,
    js_nth (lines t) (segment_index t) = Some p /\
    js_nth (lines t) (segment_index t + 1) = Some q /\
    getCurrentSegment t = [Some p; Some q].
Proof.
  intros [Hi _] Hp. unfold getCurrentSegment. rewrite Hp.
  destruct (js_nth_in_range (lines t) (segment_index t)) as [p Hp0]; [lia |].
  destruct (js_nth_in_range (lines t) (segment_index t + 1)) as [q Hq]; [lia |].
  exists p, q. rewrite Hp0, Hq. auto.
Qed.

Lemma segment_CORNER (t : LabelLine) :
  cursor_in_line t -> placement t = CORNER ->
  exists p q r,
    js_nth (lines t) (segment_index t - 1) = Some p /\
    js_nth (lines t) (segment_index t) = Some q /\
    js_nth (lines t) (segment_index t + 1) = Some r /\
    getCurrentSegment t = [Some p; Some q; Some r].
Proof.
  intros [Hi Hc] Hp. specialize (Hc Hp). unfold getCurrentSegment. rewrite Hp.
  destruct (js_nth_in_range (lines t) (segment_index t - 1)) as [p Hp0]; [lia |].
  destruct (js_nth_in_range (lines t) (segment_index t)) as [q Hq]; [lia |].
  destruct (js_nth_in_range (lines t) (segment_index t + 1)) as [r Hr]; [lia |].
  exists p, q, r. rewrite Hp0, Hq, Hr. auto.
Qed.

Lemma js_nth_opt_0 {A : Type} (a : option A) (l : list (option A)) :
  js_nth_opt (a :: l) 0 = a.
Proof. unfold js_nth_opt. simpl. now destruct a. Qed.

Lemma js_nth_opt_1 {A : Type} (a b : option A) (l : list (option A)) :
  js_nth_opt (a :: b :: l) 1 = b.
Proof. unfold js_nth_opt. simpl. now destruct b. Qed.

Lemma js_nth_opt_2 {A : Type} (a b c : option A) (l : list (option A)) :
  js_nth_opt (a :: b :: c :: l) 2 = c.
Proof. unfold js_nth_opt. simpl. now destruct c. Qed.

Ltac seg_simpl :=
  repeat first [rewrite js_nth_opt_0 | rewrite js_nth_opt_1
               | rewrite js_nth_opt_2].

Lemma Vector_sub_Some (p q : vec) :
  Vector.sub (Some p) (Some q)
  = Ok ((fst p - fst q)%js, (snd p - snd q)%js).
Proof. destruct p, q. reflexivity. Qed.

Lemma getAngleFromSegment_Some (p q : point) :
  exists a, getAngleFromSegment (Some p) (Some q) = Ok a.
Proof.
  unfold getAngleFromSegment. rewrite Vector_sub_Some.
  destruct (js_ge _ _); [eauto |]. destruct (js_lt _ _); eauto.
Qed.

Lemma cursor_in_line_same (t t' : LabelLine) :
  same_cursor t t' -> cursor_in_line t -> cursor_in_line t'.
Proof.
  unfold same_cursor, cursor_in_line. intros H. decompose [and] H.
  repeat match goal with H : _ = _ |- _ => rewrite H; clear H end. auto.
Qed.

Lemma options_present_same (t t' : LabelLine) :
  same_cursor t t' -> options_present t -> options_present t'.
Proof.
  unfold same_cursor, options_present. intros H. decompose [and] H.
  repeat match goal with H : _ = _ |- _ => rewrite H; clear H end. auto.
Qed.

Lemma doesSegmentFit_total (t : LabelLine) :
  cursor_in_line t -> options_present t ->
  exists b t1, doesSegmentFit (getCurrentSegment t) t = Ok (b, t1).
Proof.
  intros Hc ((ss & Hss & _) & _). unfold doesSegmentFit. unfold bind at 1, get at 1.
  destruct (placement t) eqn:Hp.
  - destruct (segment_MID_POINT t Hc Hp) as (p & q & _ & _ & ->).
    unfold_M. seg_simpl.
    rewrite Vector_sub_Some. eauto.
  - destruct (segment_CORNER t Hc Hp) as (p & q & r & _ & _ & _ & ->).
    unfold fitKinkedSegment. unfold_M.
    seg_simpl.
    rewrite !Vector_sub_Some.
    destruct (_ && _); [eauto |]. rewrite Hss.
    destruct (kink_search _ _ _ _ _ _) as [[[fit k] l1] l2].
    destruct (fit && _); eauto.
Qed.

Lemma getCurrentAngle_total (t : LabelLine) :
  cursor_in_line t -> exists a, getCurrentAngle t = Ok (a, t).
Proof.
  intros Hc. unfold getCurrentAngle. unfold_M.
  destruct (placement t) eqn:Hp.
  - destruct (segment_MID_POINT t Hc Hp) as (p & q & _ & _ & ->).
    seg_simpl.
    destruct (getAngleFromSegment_Some p q) as [a ->]. eauto.
  - destruct (segment_CORNER t Hc Hp) as (p & q & r & _ & _ & _ & ->).
    seg_simpl.
    destruct (getAngleFromSegment_Some p q) as [a ->].
    destruct (getAngleFromSegment_Some q r) as [b ->].
    rewrite !Vector_sub_Some.
    destruct (_ && _); eauto.
Qed.

Lemma getCurrentPosition_total (t : LabelLine) :
  cursor_in_line t -> exists p, getCurrentPosition t = Ok (p, t).
Proof.
  intros Hc. unfold getCurrentPosition. unfold_M.
  destruct (placement t) eqn:Hp.
  - destruct (segment_MID_POINT t Hc Hp) as (p & q & _ & _ & ->).
    seg_simpl. eauto.
  - destruct (segment_CORNER t Hc Hp) as (p & q & r & _ & _ & _ & ->).
    seg_simpl. eauto.
Qed.

Lemma inAngleBounds_total (t : LabelLine) :
  (exists a, angle t = Some a) -> exists b, inAngleBounds t = Ok (b, t).
Proof.
  intros [a Ha]. unfold inAngleBounds. unfold_M.
  destruct (placement t); [eauto |]. rewrite Ha. eauto.
Qed.

Lemma getNextSegment_total (t : LabelLine) :
  cursor_in_line t -> options_present t ->
  exists r t', getNextSegment t = Ok (r, t') /\
    (r <> None -> cursor_in_line t' /\ options_present t').
Proof.
  intros [Hi Hc] Ho. pose proof Ho as ((ss & Hss & Hls) & Hb & Hoff).
  unfold getNextSegment. unfold_M.
  destruct (placement t) eqn:Hp.
  - destruct (Z.geb_spec (segment_index t) (Z.of_nat (length (lines t)) - 2)).
    + do 2 eexists. split; [reflexivity |]. congruence.
    + destruct (should_articulate t);
        [rewrite Hss; destruct (_ >? _)%Z |];
        (do 2 eexists; split; [reflexivity |]; intros _;
         unfold cursor_in_line, options_present; simpl; split;
         [split; [lia | intros; lia] | eauto]).
  - do 2 eexists. split; [reflexivity |]. intros _.
    unfold cursor_in_line, options_present; simpl. split; [| eauto].
    split; [lia | discriminate].
Qed.

Section WellFormed.

Context {ext : Collaborators}.

Lemma updateBBoxes_side_total (upp height dx : num) (i : Z) (t : LabelLine) :
  (exists a, angle t = Some a) -> (exists p, position t = Some p) ->
  (exists o, layout_offset (layout t) = Some o) ->
  exists t', updateBBoxes_side upp height dx i t = Ok (tt, t').
Proof.
  intros [a Ha] [p Hp] [o Ho].
  unfold updateBBoxes_side, removeLabel, addLabel. unfold_M.
  repeat (cbn; first [rewrite Ha | rewrite Hp | rewrite Ho]). eauto.
Qed.

Lemma updateBBoxes_total (t : LabelLine) :
  (exists a, angle t = Some a) -> (exists p, position t = Some p) ->
  (exists b, layout_buffer (layout t) = Some b) ->
  (exists o, layout_offset (layout t) = Some o) ->
  exists t', updateBBoxes t = Ok (tt, t').
Proof.
  intros Ha Hp [b Hb] Ho.
  unfold updateBBoxes. unfold bind at 1 2 3 4, get at 1 2 3.
  rewrite Hb. unfold require at 1, ret at 1.
  destruct (placement t).
  - destruct Ha as [a Ha], Hp as [p Hp], Ho as [o Ho].
    unfold removeLabel, addLabel. unfold_M.
    repeat (cbn; first [rewrite Ha | rewrite Hp | rewrite Ho]). eauto.
  - destruct Ha as [a Ha].
    unfold bind at 1 2 3, get at 1. rewrite Ha.
    unfold require at 1, ret at 1, get at 1, bind at 1.
    destruct (updateBBoxes_side_total (layout_units_per_pixel (layout t))
      ((snd (size t) + snd b * Fin 2) * layout_units_per_pixel (layout t)
       * Label_epsilon)%js
      (spread_factor t *
       Math.abs (snd (size t) /
         Math.tan (Fin (1 / 2) *
           (Math.PI - Math.abs (wrap_negative (js_num_at a 1)
                                - wrap_negative (js_num_at a 0))))))%js
      0 t) as [t1 H1]; eauto.
    rewrite H1.
    pose proof (updateBBoxes_side_frame _ _ _ _ _ _ H1)
      as (Hc & Ha1 & Hp1 & _).
    apply updateBBoxes_side_total.
    + rewrite Ha1; eauto.
    + rewrite Hp1; eauto.
    + destruct Hc as (_ & -> & _). exact Ho.
Qed.

Lemma update_total (t : LabelLine) :
  cursor_in_line t -> options_present t ->
  exists t', update t = Ok (tt, t').
Proof.
  intros Hc (_ & Hb & Ho).
  destruct (getCurrentAngle_total t Hc) as [a Ha].
  unfold update. unfold bind at 1. rewrite Ha.
  unfold bind at 1, modify at 1. unfold bind at 1.
  destruct (getCurrentPosition_total (set_angle (Some a) t)) as [p Hp].
  { exact Hc. }
  rewrite Hp. unfold bind at 1, modify at 1.
  apply updateBBoxes_total; simpl; eauto.
Qed.

Lemma try_segment_total (t : LabelLine) :
  cursor_in_line t -> options_present t ->
  exists b t', try_segment (getCurrentSegment t) t = Ok (b, t').
Proof.
  intros Hc Ho. unfold try_segment. unfold_M.
  destruct (doesSegmentFit_total t Hc Ho) as (b & t1 & Hf). rewrite Hf.
  destruct b; [| eauto].
  apply doesSegmentFit_frame in Hf.
  destruct (update_total t1) as [t2 Hu].
  { eapply cursor_in_line_same; eauto. }
  { eapply options_present_same; eauto. }
  rewrite Hu. apply update_spec in Hu.
  destruct Hu as (a & p & _ & _ & Ha & _).
  destruct (inTileBounds t2); [| eauto].
  destruct (inAngleBounds_total t2) as [b Hb]; [eauto |].
  rewrite Hb. destruct b; eauto.
Qed.

(** On a well-formed object the search returns normally. *)
Lemma rec_total (fuel : nat) :
  forall (seg : option Segment) (t : LabelLine),
  cursor_in_line t -> options_present t ->
  segment_of_cursor seg t ->
  (cursor_measure t + match seg with Some _ => 2 | None => 1 end <= fuel)%nat ->
  exists r t', getNextFittingSegment_rec fuel seg t = Ok (r, t').
Proof.
  induction fuel as [| fuel IH].
  { intros [s |] t _ _ _ Hf; lia. }
  assert (HSome : forall t,
    cursor_in_line t -> options_present t ->
    (cursor_measure t + 2 <= S fuel)%nat ->
    exists r t',
      getNextFittingSegment_rec (S fuel) (Some (getCurrentSegment t)) t
      = Ok (r, t')).
  { intros t Hc Ho Hf. rewrite rec_unfold_Some.
    destruct (try_segment_total t Hc Ho) as (b & t1 & Ht). rewrite Ht.
    destruct b; [eauto |].
    apply try_segment_frame in Ht.
    apply IH.
    - eapply cursor_in_line_same; eauto.
    - eapply options_present_same; eauto.
    - exact I.
    - apply same_cursor_le in Ht. unfold cursor_le in Ht. lia. }
  intros [s |] t Hc Ho Hs Hf.
  - simpl in Hs. subst s. now apply HSome.
  - rewrite rec_unfold_None.
    destruct (getNextSegment_total t Hc Ho) as (r & t1 & Hn & Hw).
    rewrite Hn. destruct r as [s |]; [| eauto].
    destruct Hw as [Hc1 Ho1]; [discriminate |].
    apply getNextSegment_Some in Hn. destruct Hn as (-> & _ & Hlt & _).
    apply HSome; auto. lia.
Qed.

End WellFormed.

(** ** Accepted placements *)

Section Accepted.

Context {ext : Collaborators}.

Lemma accepted_same_cursor (t0 t' : LabelLine) :
  accepted t0 t' -> same_cursor t0 t'.
Proof.
  intros (t1 & t2 & Hf & Hu & _ & _ & ->).
  apply doesSegmentFit_frame in Hf.
  apply update_spec in Hu. destruct Hu as (a & p & _ & _ & _ & _ & Hu & _).
  pose proof (same_cursor_trans _ _ _ Hf Hu) as Hc.
  unfold same_cursor in *; simpl; tauto.
Qed.

Lemma init_throw_away (sz : vec) (ln : list point) (l : Layout) :
  throw_away (init_LabelLine sz ln l) = false.
Proof. reflexivity. Qed.

(** A label the constructor does not mark for discard is an accepted
    placement at a cursor position at or after the seeded one. *)
Lemma new_LabelLine_accepted (sz : vec) (ln : list point) (l : Layout)
    (label : LabelLine) :
  new_LabelLine sz ln l = Ok label -> throw_away label = false ->
  exists t0, cursor_le (init_LabelLine sz ln l) t0 /\ accepted t0 label.
Proof.
  unfold new_LabelLine, getNextFittingSegment.
  destruct (getNextFittingSegment_rec _ _ _) as [[[s |] t1] | |] eqn:H;
    try discriminate.
  - intros E _. inversion E; subst t1.
    apply rec_result in H; [| reflexivity].
    destruct H as (t0 & A & _ & _ & _ & B). eauto.
  - intros E Ht. inversion E; subst label. discriminate.
Qed.

(** A label marked for discard is one whose search ran off the end of
    the line. *)
Lemma new_LabelLine_discarded (sz : vec) (ln : list point) (l : Layout)
    (label : LabelLine) :
  new_LabelLine sz ln l = Ok label -> throw_away label = true ->
  placement label = MID_POINT /\
  (segment_index label >= Z.of_nat (length ln) - 2)%Z.
Proof.
  unfold new_LabelLine, getNextFittingSegment.
  destruct (getNextFittingSegment_rec _ _ _) as [[[s |] t1] | |] eqn:H;
    try discriminate.
  - intros E Ht. inversion E; subst t1.
    apply rec_result in H; [| reflexivity].
    destruct H as (t0 & A & _ & B & _ & C).
    apply accepted_same_cursor in C.
    unfold same_cursor in C. decompose [and] C.
    rewrite init_throw_away in B. congruence.
  - intros E _. inversion E; subst label.
    apply rec_result in H; [| reflexivity].
    destruct H as (A & _ & B & C).
    unfold cursor_le in A. decompose [and] A. simpl.
    split; [assumption |].
    match goal with H : lines t1 = _ |- _ => rewrite H in C end.
    exact C.
Qed.

Lemma doesSegmentFit_MID_POINT (t : LabelLine) (p q : point) :
  placement t = MID_POINT ->
  doesSegmentFit [Some p; Some q] t =
    Ok (straight_fit (fst (size t)) (layout_units_per_pixel (layout t))
          (layout_line_exceed (layout t)) p q, t).
Proof.
  intros Hp. unfold doesSegmentFit. unfold_M. rewrite Hp.
  seg_simpl. rewrite Vector_sub_Some. reflexivity.
Qed.

(** A successful straight fit test read two existing points. *)
Lemma doesSegmentFit_MID_POINT_inv (t t1 : LabelLine) (b : bool) :
  placement t = MID_POINT ->
  doesSegmentFit (getCurrentSegment t) t = Ok (b, t1) ->
  exists p q,
    js_nth (lines t) (segment_index t) = Some p /\
    js_nth (lines t) (segment_index t + 1) = Some q /\
    t1 = t /\
    b = straight_fit (fst (size t)) (layout_units_per_pixel (layout t))
          (layout_line_exceed (layout t)) p q.
Proof.
  intros Hp. unfold getCurrentSegment. rewrite Hp.
  destruct (js_nth (lines t) (segment_index t)) as [p |] eqn:H0;
    destruct (js_nth (lines t) (segment_index t + 1)) as [q |] eqn:H1.
  - rewrite doesSegmentFit_MID_POINT by assumption.
    intros E. inversion E; subst. exists p, q. auto.
  - unfold doesSegmentFit. unfold_M. rewrite Hp. seg_simpl.
    destruct p; discriminate.
  - unfold doesSegmentFit. unfold_M. rewrite Hp. seg_simpl. discriminate.
  - unfold doesSegmentFit. unfold_M. rewrite Hp. seg_simpl. discriminate.
Qed.

End Accepted.

Lemma sqrt_sum_sq_nonneg (a b : R) : 0 <= a * a + b * b.
Proof. nra. Qed.

Lemma Vector_length_Fin (a b : R) :
  Vector.length (Fin a, Fin b) = Fin (sqrt (a * a + b * b)).
Proof.
  unfold Vector.length. simpl.
  pose proof (sqrt_sum_sq_nonneg a b).
  destruct (Rlt_dec (a * a + b * b) 0); [lra | reflexivity].
Qed.

Lemma distance_Fin (x1 y1 x2 y2 : R) :
  distance (Fin x1, Fin y1) (Fin x2, Fin y2)
  = Fin (sqrt ((x1 - x2) * (x1 - x2) + (y1 - y2) * (y1 - y2))).
Proof. unfold distance. simpl. apply Vector_length_Fin. Qed.

Lemma excess_Fin (le : R) :
  le <> 100 -> (Fin 100 / (Fin 100 - Fin le))%js = Fin (100 / (100 - le)).
Proof.
  intros H. simpl. destruct (Req_dec_T (100 + - le) 0); [lra | reflexivity].
Qed.

(** On finite values the straight fit test is the real inequality. *)
Lemma straight_fit_real (w u le x1 y1 x2 y2 : R) :
  le <> 100 ->
  straight_fit (Fin w) (Fin u) (Fin le) (Fin x1, Fin y1) (Fin x2, Fin y2) = true
  <-> w * u < 100 / (100 - le)
              * sqrt ((x1 - x2) * (x1 - x2) + (y1 - y2) * (y1 - y2)).
Proof.
  intros H. unfold straight_fit.
  rewrite excess_Fin by assumption. rewrite distance_Fin.
  cbn [js_mul]. apply js_lt_Fin.
Qed.

(** * Main theorems *)

(** C8.  In CORNER mode one advance of the cursor switches to the
    straight mode and leaves the segment index alone; the segment it
    returns is the straight segment at that index, which is the next one
    the search tries. *)
Theorem C8_corner_falls_back_to_straight
    {ext : Collaborators} (t : LabelLine) :
  placement t = CORNER ->
  exists t',
    getNextSegment t =
      Ok (Some [js_nth (lines t) (segment_index t);
                js_nth (lines t) (segment_index t + 1)], t') /\
    placement t' = MID_POINT /\
    segment_index t' = segment_index t /\
    lines t' = lines t /\
    forall fuel,
      getNextFittingSegment_rec (S fuel) None t =
      getNextFittingSegment_rec (S fuel) (Some (getCurrentSegment t')) t'.
Proof.
  intros Hp. exists (set_placement MID_POINT t).
  rewrite getNextSegment_CORNER by assumption.
  repeat split.
  intros fuel. rewrite rec_unfold_None.
  rewrite getNextSegment_CORNER by assumption. reflexivity.
Qed.

(** C6.  For every pair of points with real coordinates (distinct or
    not) the angle calculator returns
    theta = atan2(dx, dy) + pi/2, plus pi modulo 2 pi when theta >= pi/2,
    plus 2 pi when theta < 0, and this value lies in [0, 2 pi). *)
Theorem C6_angle_in_range (x1 y1 x2 y2 : R) :
  getAngleFromSegment (Some (Fin x1, Fin y1)) (Some (Fin x2, Fin y2))
  = Ok (Fin (angleR (x1 - x2) (y1 - y2)))
  /\ 0 <= angleR (x1 - x2) (y1 - y2) < 2 * PI.
Proof.
  split.
  - apply getAngleFromSegment_Fin.
  - apply angleR_range.
Qed.


(** ** The kink search and the collapsed sizes *)

Lemma Rsum_app (l1 l2 : list R) : Rsum (l1 ++ l2) = Rsum l1 + Rsum l2.
Proof.
  unfold Rsum. induction l1 as [| x l1 IH]; simpl; [lra |].
  rewrite IH. lra.
Qed.

Lemma Rsum_firstn_skipn (n : nat) (l : list R) :
  Rsum (firstn n l) + Rsum (skipn n l) = Rsum l.
Proof. rewrite <- Rsum_app. now rewrite firstn_skipn. Qed.

Lemma Rsum_pos (l : list R) :
  Forall (fun r => 0 < r) l -> l <> [] -> 0 < Rsum l.
Proof.
  intros H Hne. destruct l as [| x l]; [congruence |].
  inversion H as [| ? ? Hx Hl]; subst. clear H Hne.
  assert (0 <= Rsum l).
  { induction Hl as [| y l Hy _ IH]; simpl; [lra |].
    unfold Rsum in *. simpl. lra. }
  unfold Rsum in *. simpl. lra.
Qed.

Lemma Rsum_cons (x : R) (l : list R) : Rsum (x :: l) = x + Rsum l.
Proof. reflexivity. Qed.

Lemma firstn_S_nth (m : nat) (l : list R) :
  (m < length l)%nat ->
  Rsum (firstn (S m) l) = Rsum (firstn m l) + nth m l 0.
Proof.
  revert l. induction m as [| m IH]; intros [| x l] Hm; simpl in Hm; try lia.
  - unfold Rsum. simpl. lra.
  - change (firstn (S (S m)) (x :: l)) with (x :: firstn (S m) l).
    change (firstn (S m) (x :: l)) with (x :: firstn m l).
    change (nth (S m) (x :: l) 0) with (nth m l 0).
    rewrite !Rsum_cons. rewrite IH by lia. lra.
Qed.

Lemma nth_skipn (k m : nat) (l : list R) :
  nth m (skipn k l) 0 = nth (k + m) l 0.
Proof.
  revert l. induction k as [| k IH]; intros l; [reflexivity |].
  destruct l as [| x l]; simpl; [now destruct m | apply IH].
Qed.

(** The sum of the pieces [k .. n] of [rs]. *)
Lemma range_sum_step (k n : nat) (rs : list R) :
  (k <= S n)%nat -> (S n < length rs)%nat ->
  Rsum (firstn (S n + 1 - k) (skipn k rs))
  = Rsum (firstn (n + 1 - k) (skipn k rs)) + nth (S n) rs 0.
Proof.
  intros Hk Hn.
  replace (S n + 1 - k)%nat with (S (n + 1 - k)) by lia.
  rewrite firstn_S_nth.
  - rewrite nth_skipn. replace (k + (n + 1 - k))%nat with (S n) by lia.
    reflexivity.
  - rewrite length_skipn. lia.
Qed.

Lemma js_num_at_Fin (rs : list R) (k : nat) :
  (k < length rs)%nat ->
  js_num_at (map Fin rs) (Z.of_nat k) = Fin (nth k rs 0).
Proof.
  intros Hk. unfold js_num_at, js_nth.
  destruct (Z.ltb_spec (Z.of_nat k) 0); [lia |].
  rewrite Nat2Z.id. rewrite nth_error_map.
  rewrite (nth_error_nth' rs 0 Hk). reflexivity.
Qed.

(** A successful loop stops at an index in [1 .. n], with both tested
    widths passing the test. *)
Lemma kink_loop_true (ss : list num) (opp ex len1 len2 : num) :
  forall (n : nat) (l1 l2 : num) (k : nat) (l1' l2' : num),
  kink_loop ss opp ex len1 len2 n l1 l2 = (true, k, l1', l2') ->
  (1 <= k <= n)%nat /\
  (opp * l1' <? ex * len1)%js = true /\ (opp * l2' <? ex * len2)%js = true.
Proof.
  induction n as [| n IH]; intros l1 l2 k l1' l2' H; [discriminate |].
  cbn [kink_loop] in H.
  destruct (_ && _) eqn:Hfit.
  - inversion H; subst. apply andb_true_iff in Hfit. split; [lia | exact Hfit].
  - apply IH in H. split; [lia | tauto].
Qed.

Lemma kink_loop_false (ss : list num) (opp ex len1 len2 : num) :
  forall (n : nat) (l1 l2 : num) (k : nat) (l1' l2' : num),
  kink_loop ss opp ex len1 len2 n l1 l2 = (false, k, l1', l2') -> k = O.
Proof.
  induction n as [| n IH]; intros l1 l2 k l1' l2' H.
  - now inversion H.
  - cbn [kink_loop] in H. destruct (_ && _); [discriminate | eauto].
Qed.

(** On finite widths the loop has moved the pieces [k .. n] from side 1
    to side 2. *)
Lemma kink_loop_widths (rs : list R) (opp ex len1 len2 : num) :
  forall (n : nat) (a b : R) (k : nat) (l1' l2' : num),
  (n < length rs)%nat ->
  kink_loop (map Fin rs) opp ex len1 len2 n (Fin a) (Fin b)
    = (true, k, l1', l2') ->
  exists a' b',
    l1' = Fin a' /\ l2' = Fin b' /\
    a' = a - Rsum (firstn (n + 1 - k) (skipn k rs)) /\
    b' = b + Rsum (firstn (n + 1 - k) (skipn k rs)).
Proof.
  induction n as [| n IH]; intros a b k l1' l2' Hn H; [discriminate |].
  cbn [kink_loop] in H.
  rewrite js_num_at_Fin in H by assumption.
  cbn [js_sub js_add js_neg] in H.
  destruct (_ && _) eqn:Hfit.
  - inversion H; subst. do 2 eexists. split; [reflexivity |].
    split; [reflexivity |].
    replace (S n + 1 - S n)%nat with 1%nat by lia.
    assert (Hs : Rsum (firstn 1 (skipn (S n) rs)) = nth (S n) rs 0).
    { rewrite (firstn_S_nth 0) by (rewrite length_skipn; lia).
      rewrite nth_skipn. replace (S n + 0)%nat with (S n) by lia.
      unfold Rsum. simpl. lra. }
    rewrite Hs. split; lra.
  - pose proof (kink_loop_true _ _ _ _ _ _ _ _ _ _ _ H) as [Hk _].
    apply IH in H; [| lia].
    destruct H as (a' & b' & -> & -> & Ha & Hb).
    exists a', b'. split; [reflexivity |]. split; [reflexivity |].
    rewrite range_sum_step by lia. split; lra.
Qed.

(** What a successful search returns. *)
Lemma kink_search_true (ss : list num) (opp ex len1 len2 size0 : num)
    (k : Z) (l1 l2 : num) :
  kink_search ss opp ex len1 len2 size0 = (true, k, l1, l2) ->
  (0 < k < Z.of_nat (length ss))%Z /\
  kink_loop ss opp ex len1 len2 (length ss - 1) size0 (Fin 0)
    = (true, Z.to_nat k, l1, l2) /\
  (opp * l1 <? ex * len1)%js = true /\ (opp * l2 <? ex * len2)%js = true.
Proof.
  unfold kink_search.
  replace (Z.to_nat (Z.of_nat (length ss) - 1)) with (length ss - 1)%nat by lia.
  destruct (kink_loop _ _ _ _ _ _ _ _) as [[[fit kn] l1'] l2'] eqn:Hl.
  intros H. inversion H; subst. clear H.
  pose proof (kink_loop_true _ _ _ _ _ _ _ _ _ _ _ Hl) as (Hk & Hf).
  destruct (Z.ltb_spec (Z.of_nat (length ss) - 1) 0); [lia |].
  rewrite Nat2Z.id. split; [lia |]. split; [reflexivity | exact Hf].
Qed.

(** The collapsed sizes on finite widths: the pieces before the kink and
    the pieces from the kink on. *)
Lemma collapse_Fin (rs : list R) (k : Z) :
  forall (i : Z) (a b : R),
  collapse (map Fin rs) i k (Fin a, Fin b)
  = (Fin (a + Rsum (firstn (Z.to_nat (k - i)) rs)),
     Fin (b + Rsum (skipn (Z.to_nat (k - i)) rs))).
Proof.
  induction rs as [| w rs IH]; intros i a b.
  - simpl. rewrite firstn_nil, skipn_nil. unfold Rsum. simpl.
    now rewrite !Rplus_0_r.
  - cbn [map collapse fst snd js_add].
    destruct (Z.ltb_spec i k).
    + rewrite IH.
      replace (Z.to_nat (k - i)) with (S (Z.to_nat (k - (i + 1)))) by lia.
      cbn [firstn skipn]. unfold Rsum. cbn [fold_right].
      f_equal; f_equal; lra.
    + rewrite IH.
      replace (Z.to_nat (k - i)) with O by lia.
      replace (Z.to_nat (k - (i + 1))) with O by lia.
      cbn [firstn skipn]. unfold Rsum. cbn [fold_right].
      f_equal; f_equal; lra.
Qed.

Lemma fitKinkedSegment_true (seg : Segment) (t t' : LabelLine) :
  fitKinkedSegment seg t = Ok (true, t') ->
  exists ss p0p1 p1p2 k l1 l2,
    segment_size t = Some ss /\
    Vector.sub (js_nth_opt seg 0) (js_nth_opt seg 1) = Ok p0p1 /\
    Vector.sub (js_nth_opt seg 1) (js_nth_opt seg 2) = Ok p1p2 /\
    ((fst p0p1 * fst p1p2 <? Fin 0)%js && (snd p0p1 * snd p1p2 >? Fin 0)%js
     = false) /\
    kink_search ss (layout_units_per_pixel (layout t))
      (excess_ratio (layout t)) (Vector.length p0p1) (Vector.length p1p2)
      (fst (size t)) = (true, k, l1, l2) /\
    t' = set_collapsed_size
           [fst (collapse ss 0 k (Fin 0, Fin 0));
            snd (collapse ss 0 k (Fin 0, Fin 0))]
           (set_kink_index k t).
Proof.
  unfold fitKinkedSegment. unfold_M. intros H.
  run_hyp H; inversion H; subst; clear H.
  repeat match goal with
  | E : Ok _ = Ok _ |- _ => inversion E; subst; clear E
  | E : _ && _ = true |- _ => apply andb_true_iff in E; destruct E
  | E : Some _ = Some _ |- _ => inversion E; subst; clear E
  end.
  subst. do 6 eexists. repeat split; eauto.
Qed.

Lemma Rsum_skipn_step (n : nat) (rs : list R) :
  (n < length rs)%nat ->
  Rsum (skipn n rs) = nth n rs 0 + Rsum (skipn (S n) rs).
Proof.
  revert rs. induction n as [| n IH]; intros [| x rs] Hn; simpl in Hn;
    try lia.
  - reflexivity.
  - change (skipn (S n) (x :: rs)) with (skipn n rs).
    change (skipn (S (S n)) (x :: rs)) with (skipn (S n) rs).
    change (nth (S n) (x :: rs) 0) with (nth n rs 0).
    apply IH. lia.
Qed.

(** The loop tests the splits from the last piece down and stops at the
    first one that passes. *)
Lemma kink_loop_greedy (rs : list R) (opp ex len1 len2 : num) (s0 : R) :
  forall (n : nat) (a b : R) (f : bool) (k : nat) (l1' l2' : num),
  (n <= length rs - 1)%nat ->
  a = s0 - Rsum (skipn (S n) rs) ->
  b = Rsum (skipn (S n) rs) ->
  kink_loop (map Fin rs) opp ex len1 len2 n (Fin a) (Fin b)
    = (f, k, l1', l2') ->
  if f then
    (1 <= k <= n)%nat /\
    split_fits opp ex len1 len2 s0 rs k = true /\
    (forall j, (k < j <= n)%nat ->
               split_fits opp ex len1 len2 s0 rs j = false)
  else
    forall j, (1 <= j <= n)%nat ->
              split_fits opp ex len1 len2 s0 rs j = false.
Proof.
  induction n as [| n IH]; intros a b f k l1' l2' Hn Ha Hb H.
  - cbn [kink_loop] in H. inversion H; subst. intros j Hj. lia.
  - cbn [kink_loop] in H.
    rewrite js_num_at_Fin in H by lia.
    cbn [js_sub js_add js_neg] in H.
    pose proof (Rsum_skipn_step (S n) rs ltac:(lia)) as Hstep.
    replace (a + - nth (S n) rs 0) with (s0 - Rsum (skipn (S n) rs)) in H
      by lra.
    replace (b + nth (S n) rs 0) with (Rsum (skipn (S n) rs)) in H by lra.
    change ((opp * Fin (s0 - Rsum (skipn (S n) rs)) <? ex * len1)%js
            && (opp * Fin (Rsum (skipn (S n) rs)) <? ex * len2)%js)
      with (split_fits opp ex len1 len2 s0 rs (S n)) in H.
    destruct (split_fits opp ex len1 len2 s0 rs (S n)) eqn:Hfit.
    + inversion H; subst. split; [lia |]. split; [exact Hfit |].
      intros j Hj. lia.
    + apply IH in H; [| lia | reflexivity | reflexivity].
      destruct f.
      * destruct H as (Hk & Hf & Hrest).
        split; [lia |]. split; [exact Hf |].
        intros j Hj. destruct (Nat.eq_dec j (S n)) as [-> | Hne];
          [exact Hfit | apply Hrest; lia].
      * intros j Hj. destruct (Nat.eq_dec j (S n)) as [-> | Hne];
          [exact Hfit | apply H; lia].
Qed.


(** ** The corner angle bound *)

Lemma atan2_shape (y x : num) :
  Math.atan2 y x = NaN \/
  exists v, Math.atan2 y x = Fin v /\ - PI <= v <= PI.
Proof.
  pose proof PI_RGT_0 as HPI.
  destruct y as [b | | |], x as [a | | |]; simpl; auto; right.
  - pose proof (atan2R_bound b a). eexists; split; [reflexivity | lra].
  - eexists; split; [reflexivity | lra].
  - destruct (Rlt_dec b 0); eexists; split; try reflexivity; lra.
  - eexists; split; [reflexivity | lra].
  - eexists; split; [reflexivity | lra].
  - eexists; split; [reflexivity | lra].
  - eexists; split; [reflexivity | lra].
  - eexists; split; [reflexivity | lra].
  - eexists; split; [reflexivity | lra].
Qed.

(** The angle calculator returns NaN or a real in [[0, 2 pi)]. *)
Lemma getAngleFromSegment_shape (a b : option point) (theta : num) :
  getAngleFromSegment a b = Ok theta ->
  theta = NaN \/ exists r, theta = Fin r /\ 0 <= r < 2 * PI.
Proof.
  pose proof PI_RGT_0 as HPI.
  unfold getAngleFromSegment.
  destruct (Vector.sub a b) as [v | |]; try discriminate.
  rewrite PI_2_eq.
  destruct (atan2_shape (fst v) (snd v)) as [-> | (w & -> & Hw)].
  - simpl. intros H. inversion H. auto.
  - cbn [js_add]. rewrite normalize_Fin. intros H. inversion H. right.
    eexists. split; [reflexivity |].
    apply normalize_angleR_range. lra.
Qed.

Lemma getCurrentAngle_CORNER (t : LabelLine) (a : list num) :
  placement t = CORNER ->
  getCurrentAngle t = Ok (a, t) ->
  exists x y, a = [x; y] /\
    (x = NaN \/ exists r, x = Fin r /\ 0 <= r < 2 * PI) /\
    (y = NaN \/ exists r, y = Fin r /\ 0 <= r < 2 * PI).
Proof.
  intros Hp. unfold getCurrentAngle. unfold_M. rewrite Hp. intros H.
  destruct (getAngleFromSegment (js_nth_opt (getCurrentSegment t) 0) _)
    as [th1 | |] eqn:H1; try discriminate.
  destruct (getAngleFromSegment (js_nth_opt (getCurrentSegment t) 1) _)
    as [th2 | |] eqn:H2; try discriminate.
  apply getAngleFromSegment_shape in H1, H2.
  run_hyp H; inversion H; subst; do 2 eexists; eauto.
Qed.

Lemma wrap_negative_nonneg (r : R) : 0 <= r -> wrap_negative (Fin r) = Fin r.
Proof.
  intros H. unfold wrap_negative. simpl.
  destruct (Rlt_dec r 0); [lra | reflexivity].
Qed.

(** The angle-bound test on two normalised angles is the bound on the
    folded difference. *)
Lemma inAngleBounds_Fin (t : LabelLine) (a0 a1 : R) :
  placement t = CORNER -> angle t = Some [Fin a0; Fin a1] ->
  0 <= a0 -> 0 <= a1 ->
  inAngleBounds t =
    Ok (if Rle_dec (Rmin (2 * PI - Rabs (a1 - a0)) (Rabs (a1 - a0))) (PI / 2)
        then true else false, t).
Proof.
  intros Hp Ha H0 H1. unfold inAngleBounds. unfold_M. rewrite Hp, Ha.
  unfold js_num_at, js_nth. simpl nth_error. cbn [Z.ltb Z.compare].
  rewrite !wrap_negative_nonneg by assumption.
  rewrite MAX_ANGLE_eq. unfold Math.PI.
  cbn [js_sub js_add js_neg js_mul Math.abs Math.min js_le].
  fold (a1 - a0). fold (2 * PI - Rabs (a1 - a0)). reflexivity.
Qed.

Lemma angle_test_NaN_l (w : num) :
  (Math.min (Fin 2 * Math.PI - Math.abs (w - NaN)) (Math.abs (w - NaN))
   <=? MAX_ANGLE)%js = false.
Proof. rewrite MAX_ANGLE_eq. destruct w; reflexivity. Qed.

Lemma angle_test_NaN_r (w : num) :
  (Math.min (Fin 2 * Math.PI - Math.abs (NaN - w)) (Math.abs (NaN - w))
   <=? MAX_ANGLE)%js = false.
Proof. rewrite MAX_ANGLE_eq. destruct w; reflexivity. Qed.

Lemma inAngleBounds_true (t t' : LabelLine) (x y : num) :
  placement t = CORNER -> angle t = Some [x; y] ->
  (x = NaN \/ exists r, x = Fin r /\ 0 <= r < 2 * PI) ->
  (y = NaN \/ exists r, y = Fin r /\ 0 <= r < 2 * PI) ->
  inAngleBounds t = Ok (true, t') ->
  exists a0 a1,
    x = Fin a0 /\ y = Fin a1 /\
    0 <= a0 < 2 * PI /\ 0 <= a1 < 2 * PI /\
    Rmin (2 * PI - Rabs (a1 - a0)) (Rabs (a1 - a0)) <= PI / 2.
Proof.
  intros Hp Ha Hx Hy.
  assert (Hw : wrap_negative NaN = NaN) by reflexivity.
  destruct Hx as [-> | (a0 & -> & H0)].
  { unfold inAngleBounds. unfold_M. rewrite Hp, Ha.
    unfold js_num_at, js_nth. simpl nth_error. cbn [Z.ltb Z.compare].
    rewrite Hw, angle_test_NaN_l. discriminate. }
  destruct Hy as [-> | (a1 & -> & H1)].
  { unfold inAngleBounds. unfold_M. rewrite Hp, Ha.
    unfold js_num_at, js_nth. simpl nth_error. cbn [Z.ltb Z.compare].
    rewrite Hw, angle_test_NaN_r. discriminate. }
  rewrite (inAngleBounds_Fin t a0 a1) by (auto; lra).
  destruct (Rle_dec _ _); [| discriminate].
  intros _. exists a0, a1. auto.
Qed.

(** ** The vertical line test *)

Lemma fitKinkedSegment_rejects (seg : Segment) (t : LabelLine) (p0p1 p1p2 : vec) :
  Vector.sub (js_nth_opt seg 0) (js_nth_opt seg 1) = Ok p0p1 ->
  Vector.sub (js_nth_opt seg 1) (js_nth_opt seg 2) = Ok p1p2 ->
  (fst p0p1 * fst p1p2 <? Fin 0)%js = true ->
  (snd p0p1 * snd p1p2 >? Fin 0)%js = true ->
  fitKinkedSegment seg t = Ok (false, t).
Proof.
  intros H0 H1 Hx Hy. unfold fitKinkedSegment. unfold_M.
  rewrite H0, H1, Hx, Hy. reflexivity.
Qed.

(** C3.  When the two sub-segment vectors of a corner segment
    disagree in sign on the x axis and agree in sign on the y axis, the
    corner fit test rejects at once, before the kink search and without
    touching the object, and the search produces no candidate from this
    segment: it goes on to the next cursor position. *)
Theorem C3_vertical_line_test_rejects
    {ext : Collaborators} (seg : Segment) (t : LabelLine) (p0p1 p1p2 : vec) :
  placement t = CORNER ->
  Vector.sub (js_nth_opt seg 0) (js_nth_opt seg 1) = Ok p0p1 ->
  Vector.sub (js_nth_opt seg 1) (js_nth_opt seg 2) = Ok p1p2 ->
  (fst p0p1 * fst p1p2 <? Fin 0)%js = true ->
  (snd p0p1 * snd p1p2 >? Fin 0)%js = true ->
  fitKinkedSegment seg t = Ok (false, t) /\
  doesSegmentFit seg t = Ok (false, t) /\
  try_segment seg t = Ok (false, t) /\
  forall fuel,
    getNextFittingSegment_rec (S fuel) (Some seg) t =
    getNextFittingSegment_rec fuel None t.
Proof.
  intros Hp H0 H1 Hx Hy.
  pose proof (fitKinkedSegment_rejects seg t _ _ H0 H1 Hx Hy) as Hk.
  assert (Hd : doesSegmentFit seg t = Ok (false, t)).
  { unfold doesSegmentFit. unfold bind at 1, get at 1. rewrite Hp. exact Hk. }
  assert (Ht : try_segment seg t = Ok (false, t)).
  { unfold try_segment. unfold bind at 1. rewrite Hd. reflexivity. }
  repeat split; auto.
  intros fuel. rewrite rec_unfold_Some, Ht. reflexivity.
Qed.

Lemma Rsum_firstn_pos (k : nat) (rs : list R) :
  Forall (fun r => 0 < r) rs -> (0 < k)%nat -> (k < length rs)%nat ->
  0 < Rsum (firstn k rs) /\ 0 < Rsum (skipn k rs).
Proof.
  intros H Hk Hl.
  rewrite <- (firstn_skipn k rs) in H. apply Forall_app in H.
  destruct H as [H1 H2].
  split; apply Rsum_pos; auto.
  - intros E. apply (f_equal (@length R)) in E.
    rewrite length_firstn in E. simpl in E. lia.
  - intros E. apply (f_equal (@length R)) in E.
    rewrite length_skipn in E. simpl in E. lia.
Qed.

(** C4.  For every label the constructor accepts in corner
    mode, on finite piece widths: the two collapsed sizes are the sums of
    the pieces before and from [kink_index], so they add up to the sum of
    all pieces; [0 < kink_index < segment_size.length]; both recorded
    angles lie in [0, 2 pi) and their folded difference is at most pi/2;
    and both collapsed sizes are strictly positive when every piece
    width is strictly positive. *)
Theorem C4_accepted_corner_placement
    {ext : Collaborators} (sz : vec) (ln : list point) (l : Layout)
    (label : LabelLine) (rs : list R) :
  new_LabelLine sz ln l = Ok label ->
  throw_away label = false ->
  placement label = CORNER ->
  layout_segment_size l = Some (map Fin rs) ->
  exists c0 c1 a0 a1 : R,
    isArticulated label = true /\
    collapsed_size label = [Fin c0; Fin c1] /\
    c0 = Rsum (firstn (Z.to_nat (kink_index label)) rs) /\
    c1 = Rsum (skipn (Z.to_nat (kink_index label)) rs) /\
    c0 + c1 = Rsum rs /\
    (0 < kink_index label < Z.of_nat (length rs))%Z /\
    angle label = Some [Fin a0; Fin a1] /\
    0 <= a0 < 2 * PI /\ 0 <= a1 < 2 * PI /\
    Rmin (2 * PI - Rabs (a1 - a0)) (Rabs (a1 - a0)) <= PI / 2 /\
    (Forall (fun r => 0 < r) rs -> 0 < c0 /\ 0 < c1).
Proof.
  intros Hn Ht Hp Hss.
  destruct (new_LabelLine_accepted _ _ _ _ Hn Ht) as (t0 & Hle & Hacc).
  pose proof (accepted_same_cursor _ _ Hacc) as Hc.
  destruct Hacc as (t1 & t2 & Hf & Hu & _ & Hab & ->).
  assert (Hp0 : placement t0 = CORNER).
  { unfold same_cursor in Hc. decompose [and] Hc. congruence. }
  assert (Hss0 : segment_size t0 = Some (map Fin rs)).
  { unfold cursor_le in Hle. simpl in Hle. decompose [and] Hle. congruence. }
  unfold doesSegmentFit in Hf. unfold bind at 1, get at 1 in Hf.
  rewrite Hp0 in Hf.
  apply fitKinkedSegment_true in Hf.
  destruct Hf as (ss & p0p1 & p1p2 & k & l1 & l2 & Hss' & _ & _ & _ & Hk & ->).
  rewrite Hss0 in Hss'. inversion Hss'; subst ss. clear Hss'.
  apply kink_search_true in Hk. destruct Hk as (Hrange & _).
  rewrite length_map in Hrange.
  apply update_spec in Hu.
  destruct Hu as (a & p & Ha & _ & Hang & _ & Hsc & Hcs & Hki).
  apply getCurrentAngle_CORNER in Ha; [| exact Hp0].
  destruct Ha as (x & y & -> & Hx & Hy).
  assert (Hp2 : placement t2 = CORNER).
  { unfold same_cursor in Hsc. simpl in Hsc. decompose [and] Hsc. congruence. }
  apply (inAngleBounds_true t2 t2 x y Hp2 Hang Hx Hy) in Hab.
  destruct Hab as (a0 & a1 & -> & -> & H0 & H1 & Hth).
  rewrite collapse_Fin in Hcs. cbn [fst snd collapsed_size set_collapsed_size]
    in Hcs.
  cbn [kink_index set_kink_index set_collapsed_size] in Hki.
  replace (k - 0)%Z with k in Hcs by lia.
  pose proof (Rsum_firstn_skipn (Z.to_nat k) rs) as Hsum.
  exists (0 + Rsum (firstn (Z.to_nat k) rs)),
         (0 + Rsum (skipn (Z.to_nat k) rs)), a0, a1.
  rewrite Hp2.
  cbn [isArticulated collapsed_size kink_index angle set_isArticulated].
  rewrite Hcs, Hki, Hang.
  split; [reflexivity |]. split; [reflexivity |].
  split; [lra |]. split; [lra |]. split; [lra |].
  split; [exact Hrange |]. split; [reflexivity |].
  split; [exact H0 |]. split; [exact H1 |]. split; [exact Hth |].
  intros Hpos.
  destruct (Rsum_firstn_pos (Z.to_nat k) rs Hpos) as [A B]; try lia.
  split; lra.
Qed.

(** ** Division by zero in the excess ratio *)

Lemma excess_ratio_100 (l : Layout) :
  layout_line_exceed l = Fin 100 -> excess_ratio l = PInf.
Proof.
  intros H. unfold excess_ratio. rewrite H. simpl.
  destruct (Req_dec_T _ _) as [_ | Hn]; [| lra].
  apply Rsign_case_pos. lra.
Qed.

Lemma sqrt_sum_sq_pos (a b : R) :
  a <> 0 \/ b <> 0 -> 0 < sqrt (a * a + b * b).
Proof. intros H. apply sqrt_lt_R0. nra. Qed.

Lemma sqrt_sum_sq_zero (a b : R) :
  a = 0 -> b = 0 -> sqrt (a * a + b * b) = 0.
Proof.
  intros -> ->. replace (0 * 0 + 0 * 0) with 0 by lra. apply sqrt_0.
Qed.

Lemma PInf_mul_pos (r : R) : 0 < r -> (PInf * Fin r)%js = PInf.
Proof. intros H. simpl. now apply Rsign_case_pos. Qed.

Lemma PInf_mul_zero (r : R) : r = 0 -> (PInf * Fin r)%js = NaN.
Proof. intros H. simpl. now apply Rsign_case_zero. Qed.

(** C9.  With [line_exceed = 100] the divisor of the excess
    ratio is zero and the ratio is +Infinity.  The straight fit test then
    accepts every finite label length on every segment of non-zero
    length, and rejects every segment of zero length (Infinity * 0 is
    NaN, and no comparison with NaN holds).  The kinked fit test accepts,
    at the first split it tries, every finite label whose pieces are at
    least two, on every corner segment that passes the vertical line test
    and whose two sub-segments have non-zero length. *)
Theorem C9_excess_ratio_at_100
    (t : LabelLine) (w h u : R) :
  layout_line_exceed (layout t) = Fin 100 ->
  size t = (Fin w, Fin h) ->
  layout_units_per_pixel (layout t) = Fin u ->
  excess_ratio (layout t) = PInf /\
  (forall x1 y1 x2 y2 : R,
     placement t = MID_POINT ->
     doesSegmentFit [Some (Fin x1, Fin y1); Some (Fin x2, Fin y2)] t
     = Ok (if Req_dec_T x1 x2
           then (if Req_dec_T y1 y2 then false else true)
           else true, t)) /\
  (forall (x0 y0 x1 y1 x2 y2 : R) (rs : list R),
     segment_size t = Some (map Fin rs) ->
     (2 <= length rs)%nat ->
     (x0 <> x1 \/ y0 <> y1) -> (x1 <> x2 \/ y1 <> y2) ->
     ~ ((x0 - x1) * (x1 - x2) < 0 /\ 0 < (y0 - y1) * (y1 - y2)) ->
     exists t',
       fitKinkedSegment
         [Some (Fin x0, Fin y0); Some (Fin x1, Fin y1); Some (Fin x2, Fin y2)] t
       = Ok (true, t') /\
       kink_index t' = (Z.of_nat (length rs) - 1)%Z).
Proof.
  intros Hle Hsz Hu.
  pose proof (excess_ratio_100 _ Hle) as He.
  split; [exact He |]. split.
  - intros x1 y1 x2 y2 Hp.
    rewrite doesSegmentFit_MID_POINT by assumption.
    unfold straight_fit. fold (excess_ratio (layout t)).
    rewrite He, Hsz, Hu, distance_Fin. cbn [fst].
    destruct (Req_dec_T x1 x2) as [Hx | Hx];
      [destruct (Req_dec_T y1 y2) as [Hy | Hy] |].
    + rewrite PInf_mul_zero; [reflexivity |].
      apply sqrt_sum_sq_zero; lra.
    + rewrite PInf_mul_pos; [reflexivity |].
      apply sqrt_sum_sq_pos; right; lra.
    + rewrite PInf_mul_pos; [reflexivity |].
      apply sqrt_sum_sq_pos; left; lra.
  - intros x0 y0 x1 y1 x2 y2 rs Hss Hlen H01 H12 Hv.
    unfold fitKinkedSegment. unfold_M. seg_simpl.
    cbn [Vector.sub js_sub js_add js_neg fst snd js_mul js_gt js_lt].
    fold (x0 - x1) (x1 - x2) (y0 - y1) (y1 - y2).
    assert (Htest :
      (if Rlt_dec ((x0 - x1) * (x1 - x2)) 0 then true else false)
      && (if Rlt_dec 0 ((y0 - y1) * (y1 - y2)) then true else false) = false).
    { destruct (Rlt_dec _ _); [| reflexivity].
      destruct (Rlt_dec _ _); [| reflexivity]. exfalso. tauto. }
    rewrite Htest. rewrite Hss, He, Hsz, Hu. cbn [fst].
    rewrite !Vector_length_Fin.
    unfold kink_search. rewrite length_map.
    replace (Z.to_nat (Z.of_nat (length rs) - 1)) with (S (length rs - 2))
      by lia.
    cbn [kink_loop].
    rewrite !PInf_mul_pos by (apply sqrt_sum_sq_pos; lra).
    rewrite js_num_at_Fin by lia.
    cbn [js_sub js_add js_neg js_mul js_lt andb].
    destruct (Z.ltb_spec (Z.of_nat (length rs) - 1) 0); [lia |].
    destruct (Z.gtb_spec (Z.of_nat (S (length rs - 2))) 0); [| lia].
    cbn [andb]. eexists. split; [reflexivity |].
    cbn [kink_index set_collapsed_size set_kink_index]. lia.
Qed.

(** ** Accepted labels sit inside the line *)

Lemma js_nth_Some_range {A : Type} (l : list A) (i : Z) (a : A) :
  js_nth l i = Some a -> (0 <= i < Z.of_nat (length l))%Z.
Proof.
  unfold js_nth. destruct (Z.ltb_spec i 0); [discriminate |].
  intros Hs. assert (Hn : nth_error l (Z.to_nat i) <> None) by congruence.
  apply nth_error_Some in Hn. lia.
Qed.

Lemma Vector_sub_Ok (a b : option vec) (v : vec) :
  Vector.sub a b = Ok v -> exists p q, a = Some p /\ b = Some q.
Proof.
  destruct a as [[? ?] |], b as [[? ?] |]; try discriminate. eauto.
Qed.

Section Chain.

Context {ext : Collaborators}.

Lemma accepted_in_line (t0 t' : LabelLine) :
  accepted t0 t' -> cursor_in_line t0.
Proof.
  intros (t1 & t2 & Hf & _).
  destruct (placement t0) eqn:Hp.
  - apply doesSegmentFit_MID_POINT_inv in Hf; [| assumption].
    destruct Hf as (p & q & A & B & _).
    apply js_nth_Some_range in A, B.
    split; [lia | congruence].
  - unfold doesSegmentFit in Hf. unfold bind at 1, get at 1 in Hf.
    rewrite Hp in Hf. apply fitKinkedSegment_true in Hf.
    destruct Hf as (ss & v1 & v2 & k & l1 & l2 & _ & A & B & _).
    unfold getCurrentSegment in A, B. rewrite Hp in A, B.
    rewrite ?js_nth_opt_0, ?js_nth_opt_1 in A.
    rewrite js_nth_opt_1, js_nth_opt_2 in B.
    apply Vector_sub_Ok in A, B.
    destruct A as (p & q & A & _), B as (_ & r & _ & B).
    apply js_nth_Some_range in A, B.
    unfold cursor_in_line, point, vec in *.
    split; [lia | intros _; lia].
Qed.

Lemma new_LabelLine_in_line (sz : vec) (ln : list point) (l : Layout)
    (label : LabelLine) :
  new_LabelLine sz ln l = Ok label -> throw_away label = false ->
  cursor_in_line label /\
  cursor_le (init_LabelLine sz ln l) label.
Proof.
  intros Hn Ht.
  destruct (new_LabelLine_accepted _ _ _ _ Hn Ht) as (t0 & Hle & Hacc).
  pose proof (accepted_in_line _ _ Hacc) as Hin.
  apply accepted_same_cursor in Hacc.
  split.
  - eapply cursor_in_line_same; eauto.
  - eapply cursor_le_trans; [exact Hle |]. now apply same_cursor_le.
Qed.

(** The object the constructor starts from when [nextLabel] seeds it
    with an advanced cursor. *)
Lemma init_next_layout (t : LabelLine) :
  (1 <= segment_index t)%Z ->
  let t' := init_LabelLine (size t) (lines t) (next_layout t) in
  lines t' = lines t /\ segment_index t' = segment_index t /\
  placement t' = placement t /\
  cursor_measure t' = cursor_measure t /\
  segment_size t' = layout_segment_size (layout t) /\
  layout_segment_size (layout t') = layout_segment_size (layout t) /\
  layout_buffer (layout t') = layout_buffer (layout t) /\
  layout_offset (layout t') = layout_offset (layout t).
Proof.
  intros Hi. unfold cursor_measure. simpl.
  destruct (Z.eqb_spec (segment_index t) 0); [lia |].
  repeat split.
Qed.

Lemma getNextSegment_index (t t' : LabelLine) (s : Segment) :
  cursor_in_line t -> getNextSegment t = Ok (Some s, t') ->
  (1 <= segment_index t')%Z.
Proof.
  intros [Hi Hc] Hn. apply getNextSegment_Some in Hn.
  destruct Hn as (_ & _ & _ & _ & [(Hp & _ & ->) | (_ & _ & ->)]).
  - auto.
  - lia.
Qed.

Lemma nextLabel_Some (label next label' : LabelLine) :
  cursor_in_line label ->
  nextLabel label = Ok (Some next, label') ->
  cursor_in_line next /\ lines next = lines label /\
  (cursor_measure next < cursor_measure label)%nat.
Proof.
  intros Hin. unfold nextLabel.
  destruct (getNextSegment label) as [[[s |] l1] | |] eqn:Hn;
    try discriminate.
  pose proof (getNextSegment_index _ _ _ Hin Hn) as Hidx.
  apply getNextSegment_Some in Hn.
  destruct Hn as (_ & Hle & Hlt & _).
  destruct (new_LabelLine _ _ _) as [nl | |] eqn:Hc; try discriminate.
  destruct (throw_away nl) eqn:Hta; [discriminate |].
  intros E. inversion E; subst next label'. clear E.
  destruct (new_LabelLine_in_line _ _ _ _ Hc Hta) as [Hnl Hnle].
  destruct (init_next_layout l1 Hidx) as (A & B & C & D & _).
  unfold cursor_le in Hle, Hnle. decompose [and] Hle. decompose [and] Hnle.
  split; [exact Hnl |]. split; [congruence | lia].
Qed.

Lemma advance_all_length (fuel : nat) :
  forall (label : LabelLine) (ls : list LabelLine),
  cursor_in_line label ->
  advance_all fuel label = Ok ls ->
  (length ls <= cursor_measure label)%nat.
Proof.
  induction fuel as [| fuel IH]; intros label ls Hin; [discriminate |].
  cbn [advance_all].
  destruct (nextLabel label) as [[[next |] l'] | |] eqn:Hn; try discriminate.
  - apply nextLabel_Some in Hn; [| assumption].
    destruct Hn as (Hin' & _ & Hlt).
    destruct (advance_all fuel next) as [rest | |] eqn:Hr; try discriminate.
    intros E. inversion E; subst. simpl.
    apply IH in Hr; [lia | assumption].
  - intros E. inversion E. simpl. lia.
Qed.

Lemma advance_all_no_diverge (fuel : nat) :
  forall (label : LabelLine),
  cursor_in_line label ->
  (cursor_measure label < fuel)%nat ->
  advance_all fuel label <> Diverge.
Proof.
  induction fuel as [| fuel IH]; intros label Hin Hf; [lia |].
  cbn [advance_all].
  destruct (nextLabel label) as [[[next |] l'] | |] eqn:Hn; try discriminate.
  - apply nextLabel_Some in Hn; [| assumption].
    destruct Hn as (Hin' & _ & Hlt).
    destruct (advance_all fuel next) as [rest | |] eqn:Hr; try discriminate.
    exfalso. revert Hr. apply IH; [assumption | lia].
  - now apply nextLabel_no_diverge in Hn.
Qed.

Lemma cursor_measure_bound (t : LabelLine) :
  cursor_in_line t ->
  (cursor_measure t <= 2 * (length (lines t) - 2))%nat.
Proof.
  intros [Hi Hc]. unfold cursor_measure.
  destruct (placement t).
  - lia.
  - specialize (Hc eq_refl). lia.
Qed.

(** A property of the cursor that the cursor keeps is kept by the
    search. *)
Lemma rec_invariant (P : LabelLine -> Prop) :
  (forall t t', same_cursor t t' -> P t -> P t') ->
  (forall t s t', getNextSegment t = Ok (Some s, t') -> P t -> P t') ->
  forall (fuel : nat) (seg : option Segment) (t t' : LabelLine)
         (r : option Segment),
  getNextFittingSegment_rec fuel seg t = Ok (r, t') -> P t -> P t'.
Proof.
  intros Hsame Hnext.
  induction fuel as [| fuel IH]; [discriminate |].
  assert (HSome : forall s t t' r,
    getNextFittingSegment_rec (S fuel) (Some s) t = Ok (r, t') ->
    P t -> P t').
  { intros s t t' r. rewrite rec_unfold_Some.
    destruct (try_segment s t) as [[[] t1] | |] eqn:Ht; try discriminate;
      apply try_segment_frame in Ht.
    - intros E. inversion E; subst. eauto.
    - intros E Hp. eapply IH; eauto. }
  intros [s |] t t' r.
  - apply HSome.
  - rewrite rec_unfold_None.
    destruct (getNextSegment t) as [[[s |] t1] | |] eqn:Hn; try discriminate.
    + intros E Hp. eapply HSome; eauto.
    + apply getNextSegment_None in Hn. destruct Hn as (-> & _).
      intros E. inversion E; subst. auto.
Qed.

Lemma straight_only_same (t t' : LabelLine) :
  same_cursor t t' -> straight_only t -> straight_only t'.
Proof.
  unfold same_cursor, straight_only. intros H. decompose [and] H.
  repeat match goal with H : _ = _ |- _ => rewrite H; clear H end. auto.
Qed.

Lemma straight_only_next (t t' : LabelLine) (s : Segment) :
  getNextSegment t = Ok (Some s, t') -> straight_only t -> straight_only t'.
Proof.
  intros Hn (Hp & Hna & Hl).
  unfold getNextSegment in Hn. unfold_M. rewrite Hp in Hn.
  destruct (_ >=? _)%Z; [discriminate |].
  destruct (should_articulate t) eqn:Hart.
  - destruct Hna as [Hna | (ss & Hss & Hlen)]; [discriminate |].
    rewrite Hss in Hn.
    destruct (Z.gtb_spec (Z.of_nat (length ss)) 1); [lia |].
    inversion Hn; subst. unfold straight_only. simpl.
    rewrite Hart, Hss. eauto 6.
  - inversion Hn; subst. unfold straight_only. simpl.
    rewrite Hart. auto.
Qed.

Lemma init_straight_only (sz : vec) (ln : list point) (l : Layout) :
  layout_placement l <> Some CORNER -> not_articulated l ->
  straight_only (init_LabelLine sz ln l).
Proof.
  intros Hp Hna. unfold straight_only. simpl.
  split; [destruct (layout_placement l) as [[] |]; congruence |].
  split; [| exact Hna].
  destruct Hna as [-> | Hss]; auto.
Qed.

Lemma new_LabelLine_straight_only (sz : vec) (ln : list point) (l : Layout)
    (label : LabelLine) :
  layout_placement l <> Some CORNER -> not_articulated l ->
  new_LabelLine sz ln l = Ok label -> straight_only label.
Proof.
  intros Hp Hna. unfold new_LabelLine, getNextFittingSegment.
  pose proof (init_straight_only sz ln l Hp Hna) as Hi.
  destruct (getNextFittingSegment_rec _ _ _) as [[[s |] t1] | |] eqn:H;
    try discriminate.
  - intros E. inversion E; subst.
    eapply (rec_invariant straight_only); eauto using straight_only_same,
      straight_only_next.
  - intros E. inversion E; subst.
    assert (straight_only t1)
      by (eapply (rec_invariant straight_only);
          eauto using straight_only_same, straight_only_next).
    unfold straight_only in *. simpl. assumption.
Qed.

Lemma nextLabel_straight (label next label' : LabelLine) :
  cursor_in_line label -> straight_only label ->
  nextLabel label = Ok (Some next, label') ->
  straight_only next /\
  (straight_measure next < straight_measure label)%nat.
Proof.
  intros Hin Hso. unfold nextLabel.
  destruct (getNextSegment label) as [[[s |] l1] | |] eqn:Hn;
    try discriminate.
  pose proof (getNextSegment_index _ _ _ Hin Hn) as Hidx.
  pose proof (straight_only_next _ _ _ Hn Hso) as Hso1.
  apply getNextSegment_Some in Hn.
  destruct Hn as (_ & Hle & _ & _ & Hstep).
  destruct Hso as (Hp & _).
  destruct Hstep as [(Hc & _) | (_ & Hlt & Hi1)]; [congruence |].
  destruct (new_LabelLine _ _ _) as [nl | |] eqn:Hc; try discriminate.
  destruct (throw_away nl) eqn:Hta; [discriminate |].
  intros E. inversion E; subst next label'. clear E.
  destruct (new_LabelLine_in_line _ _ _ _ Hc Hta) as [_ Hnle].
  destruct (init_next_layout l1 Hidx) as (A & B & C & _).
  split.
  - apply (new_LabelLine_straight_only _ _ _ _) in Hc; auto.
    + simpl. destruct Hso1 as (-> & _). discriminate.
    + destruct Hso1 as (_ & _ & Hna). exact Hna.
  - assert (Hl1 : lines l1 = lines label)
      by (unfold cursor_le in Hle; tauto).
    assert (Hln : lines nl = lines label).
    { unfold cursor_le in Hnle. destruct Hnle as (_ & _ & -> & _).
      rewrite A. exact Hl1. }
    assert (Hin' : (segment_index l1 <= segment_index nl)%Z).
    { unfold cursor_le in Hnle. decompose [and] Hnle.
      rewrite <- B. assumption. }
    unfold straight_measure. rewrite Hln. lia.
Qed.

Lemma advance_all_straight (fuel : nat) :
  forall (label : LabelLine) (ls : list LabelLine),
  cursor_in_line label -> straight_only label ->
  advance_all fuel label = Ok ls ->
  (length ls <= straight_measure label)%nat.
Proof.
  induction fuel as [| fuel IH]; intros label ls Hin Hso; [discriminate |].
  cbn [advance_all].
  destruct (nextLabel label) as [[[next |] l'] | |] eqn:Hn; try discriminate.
  - pose proof (nextLabel_Some _ _ _ Hin Hn) as (Hin' & _ & _).
    apply nextLabel_straight in Hn; auto. destruct Hn as [Hso' Hlt].
    destruct (advance_all fuel next) as [rest | |] eqn:Hr; try discriminate.
    intros E. inversion E; subst. simpl.
    apply IH in Hr; auto. lia.
  - intros E. inversion E. simpl. lia.
Qed.

End Chain.

(** C7.  Starting from any label the constructor accepts on a
    line of N points, repeated advancing terminates (within
    [cursor_measure + 1] calls of [nextLabel]) and yields at most
    2 (N - 2) further labels, that is at most 2 N - 3 placements
    including the first: the cursor visits a corner and then a straight
    position at every interior index.  When the label never enters corner
    mode (straight start, articulation off or at most one piece) the
    placements are at most N - 1. *)
Theorem C7_advance_chain_bound
    {ext : Collaborators} (sz : vec) (ln : list point) (l : Layout)
    (label : LabelLine) :
  new_LabelLine sz ln l = Ok label ->
  throw_away label = false ->
  advance_all (S (cursor_measure label)) label <> Diverge /\
  (forall (fuel : nat) (ls : list LabelLine),
     advance_all fuel label = Ok ls ->
     (length ls <= cursor_measure label)%nat /\
     (length ls <= 2 * (length ln - 2))%nat /\
     (1 + length ls <= 2 * length ln - 3)%nat) /\
  (layout_placement l <> Some CORNER -> not_articulated l ->
   forall (fuel : nat) (ls : list LabelLine),
     advance_all fuel label = Ok ls ->
     (1 + length ls <= length ln - 1)%nat).
Proof.
  intros Hn Ht.
  destruct (new_LabelLine_in_line _ _ _ _ Hn Ht) as [Hin Hle].
  assert (Hl : lines label = ln).
  { unfold cursor_le in Hle. simpl in Hle. tauto. }
  split; [| split].
  - apply advance_all_no_diverge; [assumption | lia].
  - intros fuel ls Ha.
    pose proof (advance_all_length _ _ _ Hin Ha) as H1.
    pose proof (cursor_measure_bound _ Hin) as H2.
    rewrite Hl in H2.
    destruct Hin as [Hi _]. rewrite Hl in Hi.
    split; [exact H1 |]. split; lia.
  - intros Hp Hna fuel ls Ha.
    pose proof (new_LabelLine_straight_only _ _ _ _ Hp Hna Hn) as Hso.
    pose proof (advance_all_straight _ _ _ Hin Hso Ha) as H1.
    unfold straight_measure in H1. rewrite Hl in H1.
    destruct Hin as [Hi _]. rewrite Hl in Hi. lia.
Qed.

(** ** The two readings of the read of [label] before its declaration *)

Section LetSemantics.

Context {ext : Collaborators}.

Lemma updateBBoxes_as_hoisted (t : LabelLine) :
  updateBBoxes_as HoistedVar t = updateBBoxes t.
Proof. reflexivity. Qed.

Lemma update_as_hoisted (t : LabelLine) :
  update_as HoistedVar t = update t.
Proof. reflexivity. Qed.

Lemma rec_as_hoisted (fuel : nat) (seg : option Segment) (t : LabelLine) :
  getNextFittingSegment_rec_as HoistedVar fuel seg t
  = getNextFittingSegment_rec fuel seg t.
Proof. reflexivity. Qed.

Lemma new_LabelLine_as_hoisted (sz : vec) (ln : list point) (l : Layout) :
  new_LabelLine_as HoistedVar sz ln l = new_LabelLine sz ln l.
Proof. reflexivity. Qed.

Lemma nextLabel_as_hoisted (label : LabelLine) :
  nextLabel_as HoistedVar label = nextLabel label.
Proof. reflexivity. Qed.

(** Under the temporal-dead-zone rule the bounding-box update never
    returns: it raises on a missing option or on the read of
    [label]. *)
Lemma updateBBoxes_as_dead_zone (t : LabelLine) :
  updateBBoxes_as TemporalDeadZone t = Throw TypeError \/
  updateBBoxes_as TemporalDeadZone t = Throw ReferenceError.
Proof.
  unfold updateBBoxes_as, updateBBoxes_side_as, read_label_before_let.
  unfold_M.
  destruct (layout_buffer (layout t)) as [buf |]; [| now left].
  destruct (placement t); [now right |].
  destruct (angle t) as [a |]; [now right | now left].
Qed.

Lemma updateBBoxes_as_dead_zone_present (t : LabelLine) :
  (exists b, layout_buffer (layout t) = Some b) ->
  (placement t = CORNER -> exists a, angle t = Some a) ->
  updateBBoxes_as TemporalDeadZone t = Throw ReferenceError.
Proof.
  intros [buf Hb] Ha.
  unfold updateBBoxes_as, updateBBoxes_side_as, read_label_before_let.
  unfold_M. rewrite Hb.
  destruct (placement t); [reflexivity |].
  destruct (Ha eq_refl) as [a ->]. reflexivity.
Qed.

Lemma update_as_dead_zone (t : LabelLine) :
  cursor_in_line t -> options_present t ->
  update_as TemporalDeadZone t = Throw ReferenceError.
Proof.
  intros Hc (_ & Hb & _).
  destruct (getCurrentAngle_total t Hc) as [a Ha].
  unfold update_as. unfold bind at 1. rewrite Ha.
  unfold bind at 1, modify at 1. unfold bind at 1.
  destruct (getCurrentPosition_total (set_angle (Some a) t)) as [p Hp].
  { exact Hc. }
  rewrite Hp. unfold bind at 1, modify at 1.
  apply updateBBoxes_as_dead_zone_present; simpl; eauto.
Qed.

Lemma update_as_dead_zone_never_returns (t t' : LabelLine) :
  update_as TemporalDeadZone t <> Ok (tt, t').
Proof.
  unfold update_as. unfold bind at 1.
  destruct (getCurrentAngle t) as [[a t1] | |]; try discriminate.
  unfold bind at 1, modify at 1. unfold bind at 1.
  destruct (getCurrentPosition _) as [[p t2] | |]; try discriminate.
  unfold bind at 1, modify at 1.
  destruct (updateBBoxes_as_dead_zone (set_position (Some p) t2))
    as [H | H]; rewrite H; discriminate.
Qed.

(** So under that rule the search accepts nothing. *)
Lemma rec_as_dead_zone (fuel : nat) :
  forall (seg : option Segment) (t t' : LabelLine) (r : option Segment),
  getNextFittingSegment_rec_as TemporalDeadZone fuel seg t = Ok (r, t') ->
  r = None.
Proof.
  induction fuel as [| fuel IH]; intros seg t t' r; [discriminate |].
  cbn [getNextFittingSegment_rec_as]. unfold bind at 1.
  destruct (match seg with Some s => ret (Some s) | None => getNextSegment end t)
    as [[[s |] t1] | |]; try discriminate.
  - unfold bind at 1.
    destruct (doesSegmentFit s t1) as [[[] t2] | |];
      [| apply IH | discriminate | discriminate].
    unfold bind at 1.
    destruct (update_as TemporalDeadZone t2) as [[[] t3] | |] eqn:Hu;
      try discriminate.
    exfalso. revert Hu. apply update_as_dead_zone_never_returns.
  - intros H. inversion H. reflexivity.
Qed.

Lemma new_LabelLine_as_dead_zone (sz : vec) (ln : list point) (l : Layout)
    (label : LabelLine) :
  new_LabelLine_as TemporalDeadZone sz ln l = Ok label ->
  throw_away label = true.
Proof.
  unfold new_LabelLine_as, getNextFittingSegment_as.
  destruct (getNextFittingSegment_rec_as _ _ _ _) as [[r t1] | |] eqn:H;
    try discriminate.
  apply rec_as_dead_zone in H. subst r.
  intros E. inversion E. reflexivity.
Qed.

(** The first segment tried, when it fits a well-formed object, makes
    the constructor raise under that rule. *)
Lemma new_LabelLine_as_dead_zone_raises (sz : vec) (ln : list point)
    (l : Layout) (t1 : LabelLine) :
  cursor_in_line (init_LabelLine sz ln l) ->
  options_present (init_LabelLine sz ln l) ->
  doesSegmentFit (getCurrentSegment (init_LabelLine sz ln l))
    (init_LabelLine sz ln l) = Ok (true, t1) ->
  new_LabelLine_as TemporalDeadZone sz ln l = Throw ReferenceError.
Proof.
  intros Hc Ho Hf.
  unfold new_LabelLine_as, getNextFittingSegment_as.
  replace (cursor_measure (init_LabelLine sz ln l) + 2)%nat
    with (S (cursor_measure (init_LabelLine sz ln l) + 1)) by lia.
  cbn [getNextFittingSegment_rec_as]. unfold bind at 1. unfold ret at 1.
  unfold bind at 1. rewrite Hf. unfold bind at 1.
  pose proof (doesSegmentFit_frame _ _ _ _ Hf) as Hsc.
  rewrite update_as_dead_zone; [reflexivity | |].
  - eapply cursor_in_line_same; eauto.
  - eapply options_present_same; eauto.
Qed.

End LetSemantics.

(** On a well-formed object nothing raises once the read of [label]
    yields [undefined]. *)
Lemma well_formed_hoisted
    {ext : Collaborators} (sz : vec) (ln : list point) (l : Layout) :
  cursor_in_line (init_LabelLine sz ln l) ->
  options_present (init_LabelLine sz ln l) ->
  (forall t : LabelLine,
     cursor_in_line t -> options_present t ->
     (exists b t1, doesSegmentFit (getCurrentSegment t) t = Ok (b, t1)) /\
     (exists t2, update t = Ok (tt, t2) /\
                 exists b, inAngleBounds t2 = Ok (b, t2))) /\
  exists label,
    new_LabelLine sz ln l = Ok label /\
    (throw_away label = false ->
     exists r label', nextLabel label = Ok (r, label')).
Proof.
  intros Hin Hopt. split.
  - intros t Hc Ho. split; [now apply doesSegmentFit_total |].
    destruct (update_total t Hc Ho) as [t2 Hu]. exists t2. split; [exact Hu |].
    apply update_spec in Hu. destruct Hu as (a & p & _ & _ & Ha & _).
    apply inAngleBounds_total. eauto.
  - destruct (rec_total (cursor_measure (init_LabelLine sz ln l) + 2)
                (Some (getCurrentSegment (init_LabelLine sz ln l)))
                (init_LabelLine sz ln l) Hin Hopt eq_refl (le_n _))
      as (r & t' & Hr).
    assert (Hnew : exists label, new_LabelLine sz ln l = Ok label).
    { unfold new_LabelLine, getNextFittingSegment. rewrite Hr.
      destruct r; eauto. }
    destruct Hnew as [label Hnew]. exists label. split; [exact Hnew |].
    intros Hta.
    destruct (new_LabelLine_accepted _ _ _ _ Hnew Hta) as (t0 & Hle & Hacc).
    pose proof (accepted_in_line _ _ Hacc) as Hin0.
    apply accepted_same_cursor in Hacc.
    assert (Hopt0 : options_present t0).
    { unfold cursor_le in Hle. decompose [and] Hle.
      unfold options_present in *.
      repeat match goal with H : _ t0 = _ |- _ => rewrite H end.
      exact Hopt. }
    pose proof (cursor_in_line_same _ _ Hacc Hin0) as HinL.
    pose proof (options_present_same _ _ Hacc Hopt0) as HoptL.
    unfold nextLabel.
    destruct (getNextSegment_total label HinL HoptL) as (r1 & l1 & Hn & Hw).
    rewrite Hn. destruct r1 as [s |]; [| eauto].
    destruct Hw as [Hin1 Hopt1]; [discriminate |].
    pose proof (getNextSegment_index _ _ _ HinL Hn) as Hidx.
    destruct (init_next_layout l1 Hidx) as (A & B & C & D & E & F & G & H).
    set (t1 := init_LabelLine (size l1) (lines l1) (next_layout l1)) in *.
    assert (Hin' : cursor_in_line t1).
    { unfold cursor_in_line in *. rewrite A, B, C. exact Hin1. }
    assert (Hopt' : options_present t1).
    { unfold options_present in *. rewrite E, F, G, H.
      destruct Hopt1 as ((ss & _ & Hss) & Hb & Ho).
      split; [exists ss; auto | auto]. }
    destruct (rec_total (cursor_measure t1 + 2)
                (Some (getCurrentSegment t1)) t1 Hin' Hopt' eq_refl (le_n _))
      as (r2 & t2 & Hr2).
    unfold new_LabelLine, getNextFittingSegment. fold t1. rewrite Hr2.
    destruct r2; [destruct (throw_away t2) |]; eauto.
Qed.

(** C2.  Under the reading where [let] has been compiled to [var], so
    that the read of [label] before its declaration in [updateBBoxes]
    yields [undefined], and with the collaborators outside the file (the
    store and the tile test of the label group, [Label], [OBB] and the
    vector primitives on defined points) returning normally, as the
    total functions that stand for them do: on a well-formed input, that
    is when the options [segment_size], [buffer] and [offset] are
    present and the seeded cursor reads existing points of the line
    (index between 0 and N - 2, and at least 1 in corner mode), no
    operation raises.  The fit test, the update with its bounding boxes
    and the angle-bound test return normally on every such object, the
    constructor returns a label whose only failure signal is
    [throw_away], and advancing from an accepted label returns either a
    label or the exhaustion signal. *)
Theorem C2_well_formed_input_raises_nothing
    {ext : Collaborators} (m : let_semantics)
    (sz : vec) (ln : list point) (l : Layout) :
  m = HoistedVar ->
  cursor_in_line (init_LabelLine sz ln l) ->
  options_present (init_LabelLine sz ln l) ->
  (forall t : LabelLine,
     cursor_in_line t -> options_present t ->
     (exists b t1, doesSegmentFit (getCurrentSegment t) t = Ok (b, t1)) /\
     (exists t2, update_as m t = Ok (tt, t2) /\
                 exists b, inAngleBounds t2 = Ok (b, t2))) /\
  exists label,
    new_LabelLine_as m sz ln l = Ok label /\
    (throw_away label = false ->
     exists r label', nextLabel_as m label = Ok (r, label')).
Proof.
  intros -> Hin Hopt.
  destruct (well_formed_hoisted sz ln l Hin Hopt) as [Hops Hnew].
  split.
  - intros t Hc Ho. destruct (Hops t Hc Ho) as [Hfit Hupd].
    split; [exact Hfit |].
    rewrite <- (update_as_hoisted t) in Hupd. exact Hupd.
  - destruct Hnew as (label & Hl & Hnext). exists label.
    rewrite new_LabelLine_as_hoisted. split; [exact Hl |].
    intros Hta. rewrite nextLabel_as_hoisted. exact (Hnext Hta).
Qed.

(** ** Evaluating the search on finite coordinates *)

Lemma getCurrentAngle_same_cursor (t t1 : LabelLine) (a : list num) :
  same_cursor t t1 ->
  getCurrentAngle t = Ok (a, t) -> getCurrentAngle t1 = Ok (a, t1).
Proof.
  intros Hc. pose proof (same_cursor_segment _ _ Hc) as Hs.
  assert (Hp : placement t1 = placement t) by (unfold same_cursor in Hc; tauto).
  unfold getCurrentAngle. unfold_M. rewrite Hs, Hp. intros H.
  run_hyp H; inversion H; subst; reflexivity.
Qed.

Lemma getCurrentAngle_CORNER_Fin (t : LabelLine) (x0 y0 x1 y1 x2 y2 : R) :
  placement t = CORNER ->
  getCurrentSegment t =
    [Some (Fin x0, Fin y0); Some (Fin x1, Fin y1); Some (Fin x2, Fin y2)] ->
  exists a0 a1,
    getCurrentAngle t = Ok ([Fin a0; Fin a1], t) /\
    ((a0 = angleR (x1 - x2) (y1 - y2) /\ a1 = angleR (x0 - x1) (y0 - y1)) \/
     (a0 = angleR (x0 - x1) (y0 - y1) /\ a1 = angleR (x1 - x2) (y1 - y2))).
Proof.
  intros Hp Hs. unfold getCurrentAngle. unfold_M. rewrite Hs, Hp. seg_simpl.
  rewrite !getAngleFromSegment_Fin. rewrite !Vector_sub_Some.
  destruct (_ && _); do 2 eexists; split; try reflexivity; auto.
Qed.

Lemma Rmin_fold_zero (a : R) :
  Rmin (2 * PI - Rabs (a - a)) (Rabs (a - a)) <= PI / 2.
Proof.
  pose proof PI_RGT_0.
  replace (a - a) with 0 by lra. rewrite Rabs_R0.
  unfold Rmin. destruct (Rle_dec _ _); lra.
Qed.

Lemma fitKinkedSegment_last_piece (t : LabelLine)
    (x0 y0 x1 y1 x2 y2 w h u le : R) (rs : list R) :
  size t = (Fin w, Fin h) ->
  layout_units_per_pixel (layout t) = Fin u ->
  layout_line_exceed (layout t) = Fin le -> le <> 100 ->
  segment_size t = Some (map Fin rs) -> (2 <= length rs)%nat ->
  ~ ((x0 - x1) * (x1 - x2) < 0 /\ 0 < (y0 - y1) * (y1 - y2)) ->
  u * (w - nth (length rs - 1) rs 0)
    < 100 / (100 - le) * sqrt ((x0 - x1) * (x0 - x1) + (y0 - y1) * (y0 - y1)) ->
  u * nth (length rs - 1) rs 0
    < 100 / (100 - le) * sqrt ((x1 - x2) * (x1 - x2) + (y1 - y2) * (y1 - y2)) ->
  exists c0 c1,
    fitKinkedSegment
      [Some (Fin x0, Fin y0); Some (Fin x1, Fin y1); Some (Fin x2, Fin y2)] t
    = Ok (true,
          set_collapsed_size [Fin c0; Fin c1]
            (set_kink_index (Z.of_nat (length rs) - 1) t)) /\
    c0 = Rsum (firstn (length rs - 1) rs) /\
    c1 = Rsum (skipn (length rs - 1) rs).
Proof.
  intros Hsz Hu Hle Hne Hss Hlen Hv H1 H2.
  unfold fitKinkedSegment. unfold_M. seg_simpl.
  rewrite !Vector_sub_Some.
  cbn [js_sub js_add js_neg fst snd js_mul js_gt js_lt].
  fold (x0 - x1) (x1 - x2) (y0 - y1) (y1 - y2).
  assert (Htest :
    (if Rlt_dec ((x0 - x1) * (x1 - x2)) 0 then true else false)
    && (if Rlt_dec 0 ((y0 - y1) * (y1 - y2)) then true else false) = false).
  { destruct (Rlt_dec _ _); [| reflexivity].
    destruct (Rlt_dec _ _); [| reflexivity]. exfalso. tauto. }
  rewrite Htest. rewrite Hss. unfold excess_ratio. rewrite Hle, Hsz, Hu.
  rewrite excess_Fin by assumption. cbn [fst].
  rewrite !Vector_length_Fin.
  unfold kink_search. rewrite length_map.
  replace (Z.to_nat (Z.of_nat (length rs) - 1)) with (S (length rs - 2))
    by lia.
  cbn [kink_loop].
  rewrite js_num_at_Fin by lia.
  replace (S (length rs - 2)) with (length rs - 1)%nat by lia.
  cbn [js_sub js_add js_neg js_mul].
  rewrite (proj2 (js_lt_Fin _ _)) by lra.
  rewrite (proj2 (js_lt_Fin _ _)) by lra.
  cbn [andb].
  destruct (Z.ltb_spec (Z.of_nat (length rs) - 1) 0); [lia |].
  destruct (Z.gtb_spec (Z.of_nat (length rs - 1)) 0); [| lia].
  rewrite collapse_Fin. cbn [fst snd].
  replace (Z.of_nat (length rs - 1)) with (Z.of_nat (length rs) - 1)%Z by lia.
  replace (Z.to_nat (Z.of_nat (length rs) - 1 - 0)) with (length rs - 1)%nat
    by lia.
  do 2 eexists. split; [reflexivity |]. split; lra.
Qed.

Section Evaluation.

Context {ext : Collaborators}.
Hypothesis in_tile : forall t, inTileBounds t = true.

Lemma straight_reject (t : LabelLine) (p q : point) :
  placement t = MID_POINT ->
  js_nth (lines t) (segment_index t) = Some p ->
  js_nth (lines t) (segment_index t + 1) = Some q ->
  straight_fit (fst (size t)) (layout_units_per_pixel (layout t))
    (layout_line_exceed (layout t)) p q = false ->
  try_segment (getCurrentSegment t) t = Ok (false, t).
Proof.
  intros Hp H0 H1 Hfit. unfold getCurrentSegment. rewrite Hp, H0, H1.
  unfold try_segment. unfold bind at 1.
  rewrite doesSegmentFit_MID_POINT by assumption. rewrite Hfit. reflexivity.
Qed.

Lemma straight_accept (t : LabelLine) (p q : point) :
  placement t = MID_POINT ->
  js_nth (lines t) (segment_index t) = Some p ->
  js_nth (lines t) (segment_index t + 1) = Some q ->
  straight_fit (fst (size t)) (layout_units_per_pixel (layout t))
    (layout_line_exceed (layout t)) p q = true ->
  options_present t ->
  exists t',
    try_segment (getCurrentSegment t) t = Ok (true, t') /\
    same_cursor t t' /\ isArticulated t' = false.
Proof.
  intros Hp H0 H1 Hfit Hopt.
  assert (Hin : cursor_in_line t).
  { apply js_nth_Some_range in H0, H1.
    unfold cursor_in_line, point, vec in *. split; [lia | congruence]. }
  destruct (update_total t Hin Hopt) as [t2 Hu].
  pose proof (update_spec _ _ Hu) as (a & pos & _ & _ & _ & _ & Hsc & _).
  assert (Hp2 : placement t2 = MID_POINT).
  { unfold same_cursor in Hsc. decompose [and] Hsc. congruence. }
  exists (set_isArticulated false t2).
  split.
  - unfold getCurrentSegment. rewrite Hp, H0, H1.
    unfold try_segment. unfold_M.
    rewrite doesSegmentFit_MID_POINT by assumption. rewrite Hfit.
    cbv beta iota. rewrite Hu. cbv beta iota. rewrite in_tile.
    unfold inAngleBounds. unfold_M. rewrite Hp2. cbv beta iota.
    rewrite Hp2. reflexivity.
  - split; [| reflexivity].
    unfold same_cursor in *; simpl; tauto.
Qed.

(** A corner is accepted as soon as the split at the last piece fits,
    the vertical line test passes and the folded difference of the two
    segment angles is at most a quarter turn. *)
Lemma corner_accept (t : LabelLine)
    (x0 y0 x1 y1 x2 y2 w h u le : R) (rs : list R) :
  placement t = CORNER ->
  js_nth (lines t) (segment_index t - 1) = Some (Fin x0, Fin y0) ->
  js_nth (lines t) (segment_index t) = Some (Fin x1, Fin y1) ->
  js_nth (lines t) (segment_index t + 1) = Some (Fin x2, Fin y2) ->
  ~ ((x0 - x1) * (x1 - x2) < 0 /\ 0 < (y0 - y1) * (y1 - y2)) ->
  Rmin (2 * PI - Rabs (angleR (x0 - x1) (y0 - y1)
                       - angleR (x1 - x2) (y1 - y2)))
       (Rabs (angleR (x0 - x1) (y0 - y1) - angleR (x1 - x2) (y1 - y2)))
    <= PI / 2 ->
  options_present t ->
  size t = (Fin w, Fin h) ->
  layout_units_per_pixel (layout t) = Fin u ->
  layout_line_exceed (layout t) = Fin le -> le <> 100 ->
  segment_size t = Some (map Fin rs) -> (2 <= length rs)%nat ->
  u * (w - nth (length rs - 1) rs 0)
    < 100 / (100 - le)
      * sqrt ((x0 - x1) * (x0 - x1) + (y0 - y1) * (y0 - y1)) ->
  u * nth (length rs - 1) rs 0
    < 100 / (100 - le)
      * sqrt ((x1 - x2) * (x1 - x2) + (y1 - y2) * (y1 - y2)) ->
  exists t' c0 c1,
    try_segment (getCurrentSegment t) t = Ok (true, t') /\
    same_cursor t t' /\ isArticulated t' = true /\
    kink_index t' = (Z.of_nat (length rs) - 1)%Z /\
    collapsed_size t' = [Fin c0; Fin c1] /\
    c0 = Rsum (firstn (length rs - 1) rs) /\
    c1 = Rsum (skipn (length rs - 1) rs).
Proof.
  intros Hp H0 H1 H2 Hv Hth Hopt Hsz Hu Hle Hne Hss Hlen Hf1 Hf2.
  assert (Hseg : getCurrentSegment t =
    [Some (Fin x0, Fin y0); Some (Fin x1, Fin y1); Some (Fin x2, Fin y2)]).
  { unfold getCurrentSegment. rewrite Hp, H0, H1, H2. reflexivity. }
  assert (Hin : cursor_in_line t).
  { apply js_nth_Some_range in H0, H2.
    unfold cursor_in_line, point, vec in *. split; [lia | intros _; lia]. }
  destruct (fitKinkedSegment_last_piece t x0 y0 x1 y1 x2 y2 w h u le rs)
    as (c0 & c1 & Hfit & Hc0 & Hc1); auto.
  set (t1 := set_collapsed_size [Fin c0; Fin c1]
               (set_kink_index (Z.of_nat (length rs) - 1) t)) in *.
  pose proof (fitKinkedSegment_frame _ _ _ _ Hfit) as Hsc1.
  destruct (update_total t1) as [t2 Hupd].
  { eapply cursor_in_line_same; eauto. }
  { eapply options_present_same; eauto. }
  pose proof (update_spec _ _ Hupd)
    as (a & pos & Ha & _ & Hang & _ & Hsc2 & Hcs & Hki).
  destruct (getCurrentAngle_CORNER_Fin t x0 y0 x1 y1 x2 y2 Hp Hseg)
    as (a0 & a1 & Hca & Hvals).
  apply (getCurrentAngle_same_cursor _ _ _ Hsc1) in Hca.
  rewrite Hca in Ha. inversion Ha; subst a. clear Ha.
  assert (Hp2 : placement t2 = CORNER).
  { pose proof (same_cursor_trans _ _ _ Hsc1 Hsc2) as Hc.
    unfold same_cursor in Hc. decompose [and] Hc. congruence. }
  assert (Hpos : 0 <= a0 /\ 0 <= a1).
  { destruct Hvals as [[-> ->] | [-> ->]]; split; apply angleR_range. }
  assert (Hfold : Rmin (2 * PI - Rabs (a1 - a0)) (Rabs (a1 - a0)) <= PI / 2).
  { destruct Hvals as [[-> ->] | [-> ->]]; [exact Hth |].
    rewrite Rabs_minus_sym. exact Hth. }
  exists (set_isArticulated true t2), c0, c1.
  split.
  - unfold try_segment. unfold_M. rewrite Hseg.
    unfold doesSegmentFit. unfold_M. rewrite Hp. rewrite Hfit.
    cbv beta iota. fold t1. rewrite Hupd. cbv beta iota. rewrite in_tile.
    rewrite (inAngleBounds_Fin t2 a0 a1) by tauto.
    destruct (Rle_dec _ _) as [_ | Hn]; [| contradiction].
    cbv beta iota. rewrite Hp2. reflexivity.
  - split.
    { pose proof (same_cursor_trans _ _ _ Hsc1 Hsc2) as Hc.
      unfold same_cursor in *; simpl; tauto. }
    split; [reflexivity |].
    cbn [kink_index collapsed_size set_isArticulated].
    rewrite Hki, Hcs. unfold t1. cbn. auto.
Qed.

(** In particular when the two sub-segments have the same direction
    vector. *)
Lemma corner_accept_same_direction (t : LabelLine)
    (x0 y0 x1 y1 x2 y2 w h u le : R) (rs : list R) :
  placement t = CORNER ->
  js_nth (lines t) (segment_index t - 1) = Some (Fin x0, Fin y0) ->
  js_nth (lines t) (segment_index t) = Some (Fin x1, Fin y1) ->
  js_nth (lines t) (segment_index t + 1) = Some (Fin x2, Fin y2) ->
  x0 - x1 = x1 - x2 -> y0 - y1 = y1 - y2 ->
  options_present t ->
  size t = (Fin w, Fin h) ->
  layout_units_per_pixel (layout t) = Fin u ->
  layout_line_exceed (layout t) = Fin le -> le <> 100 ->
  segment_size t = Some (map Fin rs) -> (2 <= length rs)%nat ->
  u * (w - nth (length rs - 1) rs 0)
    < 100 / (100 - le)
      * sqrt ((x0 - x1) * (x0 - x1) + (y0 - y1) * (y0 - y1)) ->
  u * nth (length rs - 1) rs 0
    < 100 / (100 - le)
      * sqrt ((x1 - x2) * (x1 - x2) + (y1 - y2) * (y1 - y2)) ->
  exists t' c0 c1,
    try_segment (getCurrentSegment t) t = Ok (true, t') /\
    same_cursor t t' /\ isArticulated t' = true /\
    kink_index t' = (Z.of_nat (length rs) - 1)%Z /\
    collapsed_size t' = [Fin c0; Fin c1] /\
    c0 = Rsum (firstn (length rs - 1) rs) /\
    c1 = Rsum (skipn (length rs - 1) rs).
Proof.
  intros Hp H0 H1 H2 Hdx Hdy Hopt Hsz Hu Hle Hne Hss Hlen Hf1 Hf2.
  apply (corner_accept t x0 y0 x1 y1 x2 y2 w h u le rs); auto.
  - rewrite <- Hdx. intros [A _].
    pose proof (Rle_0_sqr (x0 - x1)) as Hsq. unfold Rsqr in Hsq. lra.
  - rewrite <- Hdx, <- Hdy. apply Rmin_fold_zero.
Qed.

(** When the first segment tried is accepted, the constructor returns
    the object the attempt leaves. *)
Lemma new_LabelLine_first_try (sz : vec) (ln : list point) (l : Layout)
    (t' : LabelLine) :
  try_segment (getCurrentSegment (init_LabelLine sz ln l))
    (init_LabelLine sz ln l) = Ok (true, t') ->
  new_LabelLine sz ln l = Ok t'.
Proof.
  intros H. unfold new_LabelLine, getNextFittingSegment.
  replace (cursor_measure (init_LabelLine sz ln l) + 2)%nat
    with (S (cursor_measure (init_LabelLine sz ln l) + 1)) by lia.
  rewrite rec_unfold_Some, H. reflexivity.
Qed.

(** A straight-only search moves on from a segment that does not
    fit. *)
Lemma straight_search_skip (fuel : nat) (t : LabelLine) (p q : point) :
  placement t = MID_POINT -> should_articulate t = false ->
  js_nth (lines t) (segment_index t) = Some p ->
  js_nth (lines t) (segment_index t + 1) = Some q ->
  straight_fit (fst (size t)) (layout_units_per_pixel (layout t))
    (layout_line_exceed (layout t)) p q = false ->
  (segment_index t < Z.of_nat (length (lines t)) - 2)%Z ->
  getNextFittingSegment_rec (S (S fuel)) (Some (getCurrentSegment t)) t =
  getNextFittingSegment_rec (S fuel)
    (Some (getCurrentSegment (set_segment_index (segment_index t + 1) t)))
    (set_segment_index (segment_index t + 1) t).
Proof.
  intros Hp Hart H0 H1 Hfit Hi.
  rewrite rec_unfold_Some.
  rewrite (straight_reject t p q) by assumption.
  rewrite rec_unfold_None.
  unfold getNextSegment at 1. unfold_M. rewrite Hp.
  destruct (Z.geb_spec (segment_index t) (Z.of_nat (length (lines t)) - 2));
    [lia |].
  rewrite Hart. reflexivity.
Qed.

Lemma straight_search_accept (fuel : nat) (t : LabelLine) (p q : point) :
  placement t = MID_POINT ->
  js_nth (lines t) (segment_index t) = Some p ->
  js_nth (lines t) (segment_index t + 1) = Some q ->
  straight_fit (fst (size t)) (layout_units_per_pixel (layout t))
    (layout_line_exceed (layout t)) p q = true ->
  options_present t ->
  exists t',
    getNextFittingSegment_rec (S fuel) (Some (getCurrentSegment t)) t
    = Ok (Some (getCurrentSegment t), t') /\
    same_cursor t t' /\ isArticulated t' = false.
Proof.
  intros Hp H0 H1 Hfit Hopt.
  destruct (straight_accept t p q Hp H0 H1 Hfit Hopt) as (t' & Ht & Hsc & Ha).
  exists t'. rewrite rec_unfold_Some, Ht. auto.
Qed.

End Evaluation.

(** The straight fit test on two points of a horizontal line. *)
Lemma straight_fit_horizontal (w u le x1 x2 y : R) :
  le <> 100 ->
  straight_fit (Fin w) (Fin u) (Fin le) (Fin x1, Fin y) (Fin x2, Fin y)
  = if Rlt_dec (w * u) (100 / (100 - le) * Rabs (x1 - x2)) then true else false.
Proof.
  intros Hne. unfold straight_fit.
  rewrite excess_Fin by assumption. rewrite distance_Fin. cbn [js_mul js_lt].
  replace ((x1 - x2) * (x1 - x2) + (y - y) * (y - y)) with (Rsqr (x1 - x2))
    by (unfold Rsqr; lra).
  rewrite sqrt_Rsqr_abs. reflexivity.
Qed.

Lemma sqrt_vertical (x y1 y2 : R) :
  sqrt ((x - x) * (x - x) + (y1 - y2) * (y1 - y2)) = Rabs (y1 - y2).
Proof.
  replace ((x - x) * (x - x) + (y1 - y2) * (y1 - y2)) with (Rsqr (y1 - y2))
    by (unfold Rsqr; lra).
  apply sqrt_Rsqr_abs.
Qed.

(** ** The examples *)

Ltac solve_Rabs := unfold Rabs; destruct (Rcase_abs _); lra.

Lemma no_overrun_ratio : 100 / (100 - 0) = 1.
Proof. field. Qed.

Lemma short_segment_rejects (w x1 x2 : R) :
  Rabs (x1 - x2) <= w ->
  straight_fit (Fin w) (Fin 1) (Fin 0) (pt x1 0) (pt x2 0) = false.
Proof.
  intros H. unfold pt. rewrite straight_fit_horizontal by lra.
  rewrite no_overrun_ratio.
  destruct (Rlt_dec _ _); [lra | reflexivity].
Qed.

Lemma long_segment_accepts (w x1 x2 : R) :
  w < Rabs (x1 - x2) ->
  straight_fit (Fin w) (Fin 1) (Fin 0) (pt x1 0) (pt x2 0) = true.
Proof.
  intros H. unfold pt. rewrite straight_fit_horizontal by lra.
  rewrite no_overrun_ratio.
  destruct (Rlt_dec _ _); [reflexivity | lra].
Qed.

Lemma tile_always_in_tile (t : LabelLine) :
  @inTileBounds tile_always t = true.
Proof. reflexivity. Qed.

(** C1.  The code at the input of Scenario E (a 10-point line with
    [segment_start = 2] and [segment_end = 5]): the constructor records
    [segment_max = 5], but the cursor compares the index with
    [lines.length - 2], walks past index 4 and places the label on the
    segment at index 6, outside [2, 5). *)
Theorem C1_cursor_leaves_the_configured_range :
  exists label,
    @new_LabelLine tile_always (Fin 10, Fin 1) line10 layout_2_5 = Ok label /\
    throw_away label = false /\
    segment_max label = 5%Z /\
    segment_index label = 6%Z.
Proof.
  unfold new_LabelLine, getNextFittingSegment.
  set (t2 := init_LabelLine (Fin 10, Fin 1) line10 layout_2_5).
  change (cursor_measure t2 + 2)%nat with 14%nat.
  rewrite (straight_search_skip (ext := tile_always) 12 t2 (pt 2 0) (pt 3 0));
    try reflexivity;
    [| apply short_segment_rejects; solve_Rabs].
  set (t3 := set_segment_index (segment_index t2 + 1) t2).
  rewrite (straight_search_skip (ext := tile_always) 11 t3 (pt 3 0) (pt 4 0));
    try reflexivity;
    [| apply short_segment_rejects; solve_Rabs].
  set (t4 := set_segment_index (segment_index t3 + 1) t3).
  rewrite (straight_search_skip (ext := tile_always) 10 t4 (pt 4 0) (pt 5 0));
    try reflexivity;
    [| apply short_segment_rejects; solve_Rabs].
  set (t5 := set_segment_index (segment_index t4 + 1) t4).
  rewrite (straight_search_skip (ext := tile_always) 9 t5 (pt 5 0) (pt 6 0));
    try reflexivity;
    [| apply short_segment_rejects; solve_Rabs].
  set (t6 := set_segment_index (segment_index t5 + 1) t5).
  destruct (straight_search_accept tile_always_in_tile 9 t6 (pt 6 0) (pt 106 0))
    as (label & Hr & Hsc & _); try reflexivity.
  { apply long_segment_accepts. solve_Rabs. }
  { unfold options_present. simpl.
    split; [eexists; split; reflexivity | split; eexists; reflexivity]. }
  rewrite Hr. exists label.
  unfold same_cursor in Hsc. decompose [and] Hsc.
  repeat split; try assumption.
Qed.

Lemma options_present_example_plain :
  options_present
    (init_LabelLine (Fin 10, Fin 1) line2 (example_layout [5; 5])).
Proof.
  unfold options_present. simpl.
  split; [eexists; split; reflexivity | split; eexists; reflexivity].
Qed.

(** Two inputs on which the constructor raises.  A layout without
    [segment_size] makes the cursor raise a TypeError as soon as it has
    to advance (the read of [segment_size.length]), under either reading
    of the read of [label].  Under the temporal-dead-zone rule, a
    well-formed input whose first segment fits (Scenario A) raises a
    ReferenceError in [updateBBoxes]. *)
Lemma C2_counterexample :
  @new_LabelLine_as tile_always HoistedVar (Fin 10, Fin 1) line3_short
    layout_no_pieces = Throw TypeError /\
  @new_LabelLine_as tile_always TemporalDeadZone (Fin 10, Fin 1) line3_short
    layout_no_pieces = Throw TypeError /\
  @new_LabelLine_as tile_always TemporalDeadZone (Fin 10, Fin 1) line2
    (example_layout [5; 5]) = Throw ReferenceError.
Proof.
  split; [| split].
  - rewrite new_LabelLine_as_hoisted.
    unfold new_LabelLine, getNextFittingSegment.
    set (t0 := init_LabelLine (Fin 10, Fin 1) line3_short layout_no_pieces).
    change (cursor_measure t0 + 2)%nat with 4%nat.
    rewrite rec_unfold_Some.
    rewrite (straight_reject (ext := tile_always) t0 (pt 0 0) (pt 1 0));
      try reflexivity.
    apply short_segment_rejects. solve_Rabs.
  - unfold new_LabelLine_as, getNextFittingSegment_as.
    set (t0 := init_LabelLine (Fin 10, Fin 1) line3_short layout_no_pieces).
    change (cursor_measure t0 + 2)%nat with 4%nat.
    cbn [getNextFittingSegment_rec_as]. unfold bind at 1. unfold ret at 1.
    unfold bind at 1.
    change (getCurrentSegment t0) with [Some (pt 0 0); Some (pt 1 0)].
    rewrite doesSegmentFit_MID_POINT by reflexivity.
    change (straight_fit (fst (size t0)) (layout_units_per_pixel (layout t0))
              (layout_line_exceed (layout t0)) (pt 0 0) (pt 1 0))
      with (straight_fit (Fin 10) (Fin 1) (Fin 0) (pt 0 0) (pt 1 0)).
    rewrite short_segment_rejects by solve_Rabs.
    reflexivity.
  - apply (new_LabelLine_as_dead_zone_raises (ext := tile_always)
             (Fin 10, Fin 1) line2 (example_layout [5; 5])
             (init_LabelLine (Fin 10, Fin 1) line2 (example_layout [5; 5]))).
    + unfold cursor_in_line. simpl. split; [lia | discriminate].
    + apply options_present_example_plain.
    + change (getCurrentSegment
                (init_LabelLine (Fin 10, Fin 1) line2 (example_layout [5; 5])))
        with [Some (pt 0 0); Some (pt 100 0)].
      rewrite doesSegmentFit_MID_POINT by reflexivity.
      change (straight_fit _ _ _ (pt 0 0) (pt 100 0))
        with (straight_fit (Fin 10) (Fin 1) (Fin 0) (pt 0 0) (pt 100 0)).
      rewrite long_segment_accepts by solve_Rabs.
      reflexivity.
Qed.


(** With [line_exceed = 100] a segment of zero length is rejected by the
    straight fit test. *)
Lemma C9_counterexample :
  layout_line_exceed (layout on_zero_length_segment) = Fin 100 /\
  excess_ratio (layout on_zero_length_segment) = PInf /\
  doesSegmentFit [Some (pt 0 0); Some (pt 0 0)] on_zero_length_segment
  = Ok (false, on_zero_length_segment).
Proof.
  split; [reflexivity |].
  assert (He : excess_ratio (layout on_zero_length_segment) = PInf)
    by (apply excess_ratio_100; reflexivity).
  split; [exact He |].
  rewrite doesSegmentFit_MID_POINT by reflexivity.
  unfold straight_fit. fold (excess_ratio (layout on_zero_length_segment)).
  rewrite He.
  unfold pt. rewrite distance_Fin.
  rewrite PInf_mul_zero; [reflexivity |].
  apply sqrt_sum_sq_zero; lra.
Qed.

Lemma sqrt_4_3 : sqrt ((0 - 4) * (0 - 4) + (0 - 3) * (0 - 3)) = 5.
Proof.
  replace ((0 - 4) * (0 - 4) + (0 - 3) * (0 - 3)) with (5 * 5) by lra.
  apply sqrt_square. lra.
Qed.

Lemma sqrt_4_3' : sqrt ((4 - 8) * (4 - 8) + (3 - 0) * (3 - 0)) = 5.
Proof.
  replace ((4 - 8) * (4 - 8) + (3 - 0) * (3 - 0)) with (5 * 5) by lra.
  apply sqrt_square. lra.
Qed.

Lemma atan_4_3_bound : PI / 4 <= atan (4 / 3) < PI / 2.
Proof.
  split.
  - rewrite <- atan_1. left. apply atan_increasing. lra.
  - apply atan_bound.
Qed.

(** The angles of the two sides of the peak. *)
Lemma peak_angle_up : angleR (0 - 4) (0 - 3) = atan (4 / 3) + 3 * PI / 2.
Proof.
  pose proof atan_4_3_bound as Hb. pose proof PI_RGT_0 as HPI.
  unfold angleR, Math.atan2R.
  destruct (total_order_T (0 - 3) 0) as [[_ | H] | H]; try lra.
  destruct (Rle_dec 0 (0 - 4)) as [H | _]; [lra |].
  replace ((0 - 4) / (0 - 3)) with (4 / 3) by (field; lra).
  unfold normalize_angleR.
  destruct (Rle_dec _ _) as [H | _]; [lra |].
  destruct (Rlt_dec _ _) as [_ | H]; lra.
Qed.

Lemma peak_angle_down : angleR (4 - 8) (3 - 0) = PI / 2 - atan (4 / 3).
Proof.
  pose proof atan_4_3_bound as Hb. pose proof PI_RGT_0 as HPI.
  unfold angleR, Math.atan2R.
  destruct (total_order_T (3 - 0) 0) as [[H | H] | _]; try lra.
  replace ((4 - 8) / (3 - 0)) with (- (4 / 3)) by (field; lra).
  rewrite atan_opp.
  unfold normalize_angleR.
  destruct (Rle_dec _ _) as [H | _]; [lra |].
  destruct (Rlt_dec _ _) as [H | _]; lra.
Qed.

Lemma peak_fold :
  Rmin (2 * PI - Rabs (angleR (0 - 4) (0 - 3) - angleR (4 - 8) (3 - 0)))
       (Rabs (angleR (0 - 4) (0 - 3) - angleR (4 - 8) (3 - 0)))
  <= PI / 2.
Proof.
  pose proof atan_4_3_bound as Hb. pose proof PI_RGT_0 as HPI.
  rewrite peak_angle_up, peak_angle_down.
  rewrite Rabs_pos_eq by lra.
  eapply Rle_trans; [apply Rmin_l | lra].
Qed.

(** A peak: the two sub-segment vectors agree in sign on the x axis and
    disagree on the y axis, and the corner fit test accepts. *)
Lemma C3_counterexample :
  exists p0p1 p1p2 t',
    placement (corner_on peak 4 [2; 2]) = CORNER /\
    Vector.sub (js_nth_opt (getCurrentSegment (corner_on peak 4 [2; 2])) 0)
               (js_nth_opt (getCurrentSegment (corner_on peak 4 [2; 2])) 1)
    = Ok p0p1 /\
    Vector.sub (js_nth_opt (getCurrentSegment (corner_on peak 4 [2; 2])) 1)
               (js_nth_opt (getCurrentSegment (corner_on peak 4 [2; 2])) 2)
    = Ok p1p2 /\
    (fst p0p1 * fst p1p2 >? Fin 0)%js = true /\
    (snd p0p1 * snd p1p2 <? Fin 0)%js = true /\
    fitKinkedSegment (getCurrentSegment (corner_on peak 4 [2; 2]))
      (corner_on peak 4 [2; 2]) = Ok (true, t').
Proof.
  destruct (fitKinkedSegment_last_piece (corner_on peak 4 [2; 2])
              0 0 4 3 8 0 4 1 1 0 [2; 2])
    as (c0 & c1 & Hfit & _); try reflexivity; try lra.
  - rewrite sqrt_4_3, no_overrun_ratio. simpl. lra.
  - rewrite sqrt_4_3', no_overrun_ratio. simpl. lra.
  - do 3 eexists.
    split; [reflexivity |]. split; [reflexivity |]. split; [reflexivity |].
    split; [apply js_lt_Fin; lra |].
    split; [simpl; apply js_lt_Fin; lra |].
    exact Hfit.
Qed.

(** The bend of the peak is less than a quarter turn, so the constructor
    returns the articulated corner label at its vertex. *)
Lemma peak_corner_label :
  exists label,
    @new_LabelLine tile_always (Fin 4, Fin 1) peak
      (with_placement CORNER 1 (example_layout [2; 2])) = Ok label /\
    throw_away label = false /\ placement label = CORNER /\
    isArticulated label = true /\ segment_index label = 1%Z.
Proof.
  destruct (corner_accept tile_always_in_tile (corner_on peak 4 [2; 2])
              0 0 4 3 8 0 4 1 1 0 [2; 2])
    as (label & k0 & k1 & Htry & Hsc & Hart & _);
    try reflexivity; try lra.
  - apply peak_fold.
  - unfold corner_on, options_present. simpl.
    split; [eexists; split; reflexivity | split; eexists; reflexivity].
  - rewrite sqrt_4_3, no_overrun_ratio. simpl. lra.
  - rewrite sqrt_4_3', no_overrun_ratio. simpl. lra.
  - apply (new_LabelLine_first_try (ext := tile_always)) in Htry.
    unfold same_cursor in Hsc. decompose [and] Hsc.
    exists label. split; [exact Htry |]. repeat split; assumption.
Qed.

Lemma options_present_example (sz : vec) (ln : list point) (p : PLACEMENT)
    (i : Z) (pieces : list R) :
  options_present (init_LabelLine sz ln (with_placement p i (example_layout pieces))).
Proof.
  unfold options_present. simpl.
  split; [eexists; split; reflexivity | split; eexists; reflexivity].
Qed.

(** A corner label on [vline3] with two pieces [a] and [b]. *)
Lemma vline3_corner (a b : R) :
  10 - b < 20 -> b < 20 ->
  exists label c0 c1,
    @new_LabelLine tile_always (Fin 10, Fin 1) vline3
      (with_placement CORNER 1 (example_layout [a; b])) = Ok label /\
    throw_away label = false /\
    placement label = CORNER /\
    collapsed_size label = [Fin c0; Fin c1] /\
    c0 = a /\ c1 = b.
Proof.
  intros Ha Hb.
  destruct (corner_accept_same_direction tile_always_in_tile
              (corner_on vline3 10 [a; b]) 0 0 0 20 0 40 10 1 1 0 [a; b])
    as (t' & c0 & c1 & Htry & Hsc & _ & _ & Hcs & Hc0 & Hc1);
    try reflexivity; try lra.
  - apply options_present_example.
  - rewrite sqrt_vertical, no_overrun_ratio.
    replace (Rabs (0 - 20)) with 20 by solve_Rabs. simpl. lra.
  - rewrite sqrt_vertical, no_overrun_ratio.
    replace (Rabs (20 - 40)) with 20 by solve_Rabs. simpl. lra.
  - exists t', c0, c1.
    split; [apply new_LabelLine_first_try; exact Htry |].
    unfold same_cursor in Hsc. decompose [and] Hsc.
    split; [assumption |]. split; [assumption |]. split; [assumption |].
    unfold Rsum in Hc0, Hc1. simpl in Hc0, Hc1. split; lra.
Qed.

(** An accepted corner placement whose first piece has width 0: its
    first collapsed size is 0, not strictly positive. *)
Lemma C4_counterexample :
  exists label c0 c1,
    @new_LabelLine tile_always (Fin 10, Fin 1) vline3
      (with_placement CORNER 1 (example_layout [0; 10])) = Ok label /\
    throw_away label = false /\
    placement label = CORNER /\
    collapsed_size label = [Fin c0; Fin c1] /\
    ~ 0 < c0.
Proof.
  destruct (vline3_corner 0 10) as (label & c0 & c1 & A & B & C & D & E & F);
    try lra.
  exists label, c0, c1. repeat split; auto. lra.
Qed.

Lemma C4_witness :
  exists label c0 c1,
    @new_LabelLine tile_always (Fin 10, Fin 1) vline3
      (with_placement CORNER 1 (example_layout [5; 5])) = Ok label /\
    collapsed_size label = [Fin c0; Fin c1] /\
    c0 + c1 = Rsum [5; 5] /\ 0 < c0 /\ 0 < c1.
Proof.
  destruct (vline3_corner 5 5) as (label & _ & _ & A & B & C & _);
    [lra | lra |].
  destruct (C4_accepted_corner_placement (ext := tile_always)
              (Fin 10, Fin 1) vline3
              (with_placement CORNER 1 (example_layout [5; 5]))
              label [5; 5] A B C eq_refl)
    as (c0 & c1 & a0 & a1 & _ & Hcs & _ & _ & Hsum & _ & _ & _ & _ & _ & Hpos).
  exists label, c0, c1.
  split; [exact A |]. split; [exact Hcs |]. split; [exact Hsum |].
  apply Hpos. repeat constructor; lra.
Defined.

(** The label of Scenario A. *)
Lemma line2_label :
  exists label,
    @new_LabelLine tile_always (Fin 10, Fin 1) line2 (example_layout [5; 5])
      = Ok label /\
    throw_away label = false /\ placement label = MID_POINT.
Proof.
  destruct (straight_accept tile_always_in_tile
              (init_LabelLine (Fin 10, Fin 1) line2 (example_layout [5; 5]))
              (pt 0 0) (pt 100 0))
    as (t' & Htry & Hsc & _); try reflexivity.
  - apply long_segment_accepts. solve_Rabs.
  - unfold options_present. simpl.
    split; [eexists; split; reflexivity | split; eexists; reflexivity].
  - exists t'. split; [apply new_LabelLine_first_try; exact Htry |].
    unfold same_cursor in Hsc. decompose [and] Hsc. auto.
Qed.


Lemma C2_witness :
  exists label,
    @new_LabelLine_as tile_always HoistedVar (Fin 10, Fin 1) line2
      (example_layout [5; 5]) = Ok label.
Proof.
  destruct (C2_well_formed_input_raises_nothing (ext := tile_always)
              HoistedVar (Fin 10, Fin 1) line2 (example_layout [5; 5]))
    as (_ & label & H & _).
  - reflexivity.
  - unfold cursor_in_line. simpl. split; [lia | discriminate].
  - unfold options_present. simpl.
    split; [eexists; split; reflexivity | split; eexists; reflexivity].
  - exists label. exact H.
Defined.

Lemma C3_witness :
  fitKinkedSegment (getCurrentSegment (corner_on zigzag 4 [2; 2]))
    (corner_on zigzag 4 [2; 2])
  = Ok (false, corner_on zigzag 4 [2; 2]).
Proof.
  apply (C3_vertical_line_test_rejects (ext := tile_always)
           (getCurrentSegment (corner_on zigzag 4 [2; 2]))
           (corner_on zigzag 4 [2; 2])
           ((Fin 0 - Fin 3)%js, (Fin 0 - Fin 4)%js)
           ((Fin 3 - Fin 0)%js, (Fin 4 - Fin 8)%js)).
  - reflexivity.
  - reflexivity.
  - reflexivity.
  - apply js_lt_Fin. lra.
  - apply js_lt_Fin. lra.
Defined.

Lemma C8_witness :
  exists t',
    getNextSegment (corner_on vline3 10 [5; 5])
    = Ok (Some [Some (pt 0 20); Some (pt 0 40)], t') /\
    placement t' = MID_POINT /\ segment_index t' = 1%Z.
Proof.
  destruct (C8_corner_falls_back_to_straight (ext := tile_always)
              (corner_on vline3 10 [5; 5]) eq_refl)
    as (t' & H & Hp & Hi & _).
  exists t'. split; [exact H |]. split; [exact Hp | exact Hi].
Defined.

Lemma C9_witness :
  excess_ratio
    (layout (init_LabelLine (Fin 10, Fin 1) line2 layout_exceed_100)) = PInf.
Proof.
  apply (C9_excess_ratio_at_100
           (init_LabelLine (Fin 10, Fin 1) line2 layout_exceed_100) 10 1 1);
    reflexivity.
Defined.



(** *** Every cursor position of [vline4] carries a placement *)

Lemma on_vline4_same_cursor (t t' : LabelLine) :
  same_cursor t t' -> on_vline4 t -> on_vline4 t'.
Proof.
  unfold same_cursor, on_vline4. intros H. decompose [and] H.
  repeat match goal with H : _ = _ |- _ => rewrite H; clear H end. auto.
Qed.

Lemma on_vline4_options (t : LabelLine) : on_vline4 t -> options_present t.
Proof.
  unfold on_vline4, options_present. intros H. decompose [and] H.
  split; [eexists; split; eassumption | split; eexists; eassumption].
Qed.

Lemma vline4_segment_fits (y1 y2 : R) :
  Rabs (y1 - y2) = 20 ->
  straight_fit (Fin 10) (Fin 1) (Fin 0) (pt 0 y1) (pt 0 y2) = true.
Proof.
  intros H. unfold pt. apply straight_fit_real; [lra |].
  rewrite sqrt_vertical, no_overrun_ratio, H. lra.
Qed.

Lemma vline4_index (t : LabelLine) :
  on_vline4 t -> cursor_in_line t ->
  (segment_index t = 0 \/ segment_index t = 1 \/ segment_index t = 2)%Z.
Proof.
  intros (Hl & _) [Hi _]. rewrite Hl in Hi. simpl in Hi. lia.
Qed.

Lemma vline4_accepts (t : LabelLine) :
  on_vline4 t -> cursor_in_line t ->
  exists t',
    @try_segment tile_always (getCurrentSegment t) t = Ok (true, t') /\
    same_cursor t t'.
Proof.
  intros Hv Hin. pose proof (on_vline4_options t Hv) as Hopt.
  pose proof (vline4_index t Hv Hin) as Hidx.
  destruct Hv as (Hl & Hsz & Hss & Hart & _ & _ & Hle & Hu & _).
  destruct (placement t) eqn:Hp.
  - assert (Hfit : forall p q,
      (p = pt 0 0 /\ q = pt 0 20) \/ (p = pt 0 20 /\ q = pt 0 40) \/
      (p = pt 0 40 /\ q = pt 0 60) ->
      straight_fit (fst (size t)) (layout_units_per_pixel (layout t))
        (layout_line_exceed (layout t)) p q = true).
    { intros p q Hpq. rewrite Hsz, Hu, Hle. cbn [fst].
      destruct Hpq as [[-> ->] | [[-> ->] | [-> ->]]];
        apply vline4_segment_fits; solve_Rabs. }
    destruct Hidx as [Hi | [Hi | Hi]].
    + destruct (straight_accept tile_always_in_tile t (pt 0 0) (pt 0 20))
        as (t' & A & B & _); auto; try (rewrite Hl, Hi; reflexivity).
      eauto.
    + destruct (straight_accept tile_always_in_tile t (pt 0 20) (pt 0 40))
        as (t' & A & B & _); auto; try (rewrite Hl, Hi; reflexivity).
      eauto.
    + destruct (straight_accept tile_always_in_tile t (pt 0 40) (pt 0 60))
        as (t' & A & B & _); auto 6; try (rewrite Hl, Hi; reflexivity).
      eauto.
  - destruct Hin as [_ Hc]. specialize (Hc Hp).
    destruct Hidx as [Hi | [Hi | Hi]]; [lia | |].
    + destruct (corner_accept_same_direction tile_always_in_tile t
                  0 0 0 20 0 40 10 1 1 0 [5; 5])
        as (t' & c0 & c1 & A & B & _); auto;
        try (rewrite Hl, Hi; reflexivity); try lra.
      * rewrite sqrt_vertical, no_overrun_ratio.
        replace (Rabs (0 - 20)) with 20 by solve_Rabs. simpl. lra.
      * rewrite sqrt_vertical, no_overrun_ratio.
        replace (Rabs (20 - 40)) with 20 by solve_Rabs. simpl. lra.
      * eauto.
    + destruct (corner_accept_same_direction tile_always_in_tile t
                  0 20 0 40 0 60 10 1 1 0 [5; 5])
        as (t' & c0 & c1 & A & B & _); auto;
        try (rewrite Hl, Hi; reflexivity); try lra.
      * rewrite sqrt_vertical, no_overrun_ratio.
        replace (Rabs (20 - 40)) with 20 by solve_Rabs. simpl. lra.
      * rewrite sqrt_vertical, no_overrun_ratio.
        replace (Rabs (40 - 60)) with 20 by solve_Rabs. simpl. lra.
      * eauto.
Qed.

Lemma vline4_getNextSegment (t : LabelLine) :
  on_vline4 t -> cursor_in_line t ->
  ~ (placement t = MID_POINT /\ segment_index t = 2%Z) ->
  exists s t1,
    getNextSegment t = Ok (Some s, t1) /\
    on_vline4 t1 /\ cursor_in_line t1 /\
    (cursor_measure t1 + 1 = cursor_measure t)%nat.
Proof.
  intros Hv Hin Hnot. pose proof (vline4_index t Hv Hin) as Hidx.
  pose proof Hv as (Hl & Hsz & Hss & Hart & _).
  destruct Hin as [Hi Hc].
  destruct (placement t) eqn:Hp.
  - assert (Hlt : (segment_index t < 2)%Z) by (destruct Hidx as [? | [? | ?]]; [lia | lia | tauto]).
    unfold getNextSegment. unfold_M. rewrite Hp, Hl.
    destruct (Z.geb_spec (segment_index t) (Z.of_nat (length vline4) - 2));
      [simpl in *; lia |].
    rewrite Hart, Hss. cbn [length Z.gtb Z.of_nat Pos.of_succ_nat Pos.succ
                            Z.compare Pos.compare Pos.compare_cont].
    do 2 eexists. split; [reflexivity |].
    split; [exact Hv |].
    unfold cursor_in_line, cursor_measure.
    cbn [segment_index placement lines set_segment_index set_placement].
    rewrite Hl, Hp. change (length vline4) with 4%nat.
    split; [split; [lia | intros _; lia] | lia].
  - rewrite getNextSegment_CORNER by assumption.
    do 2 eexists. split; [reflexivity |].
    split; [exact Hv |].
    unfold cursor_in_line, cursor_measure.
    cbn [segment_index placement lines set_segment_index set_placement].
    rewrite Hp.
    split; [split; [exact Hi | discriminate] | lia].
Qed.

Lemma vline4_nextLabel (label : LabelLine) :
  on_vline4 label -> cursor_in_line label ->
  ~ (placement label = MID_POINT /\ segment_index label = 2%Z) ->
  exists next label',
    @nextLabel tile_always label = Ok (Some next, label') /\
    on_vline4 next /\ cursor_in_line next /\
    (cursor_measure next + 1 = cursor_measure label)%nat.
Proof.
  intros Hv Hin Hnot.
  destruct (vline4_getNextSegment label Hv Hin Hnot)
    as (s & t1 & Hgn & Hv1 & Hin1 & Hm).
  pose proof (getNextSegment_index _ _ _ Hin Hgn) as Hidx.
  destruct (init_next_layout t1 Hidx) as (A & B & C & D & E & F & G & H).
  set (t0 := init_LabelLine (size t1) (lines t1) (next_layout t1)) in *.
  assert (Hv0 : on_vline4 t0).
  { destruct Hv1 as (V1 & V2 & V3 & V4 & V5 & V6 & V7 & V8 & V9 & V10).
    unfold on_vline4. rewrite A, E, F, G, H.
    unfold t0. cbn [size should_articulate layout init_LabelLine next_layout
                    layout_articulated layout_line_exceed
                    layout_units_per_pixel].
    rewrite V6. repeat split; assumption. }
  assert (Hin0 : cursor_in_line t0).
  { unfold cursor_in_line in *. rewrite A, B, C. exact Hin1. }
  destruct (vline4_accepts t0 Hv0 Hin0) as (next & Htry & Hsc).
  apply (new_LabelLine_first_try (ext := tile_always)) in Htry.
  assert (Hta : throw_away next = false).
  { unfold same_cursor in Hsc. decompose [and] Hsc. assumption. }
  exists next, t1. split.
  - unfold nextLabel. rewrite Hgn. fold t0 in Htry. unfold t0 in Htry.
    rewrite Htry, Hta. reflexivity.
  - split; [eapply on_vline4_same_cursor; eauto |].
    split; [eapply cursor_in_line_same; eauto |].
    pose proof (same_cursor_measure _ _ Hsc). lia.
Qed.

Lemma advance_all_S {ext : Collaborators} (fuel : nat) (label : LabelLine) :
  advance_all (S fuel) label =
  match nextLabel label with
  | Ok (None, _) => Ok []
  | Ok (Some next, _) =>
      match advance_all fuel next with
      | Ok rest => Ok (next :: rest)
      | Throw e => Throw e
      | Diverge => Diverge
      end
  | Throw e => Throw e
  | Diverge => Diverge
  end.
Proof. reflexivity. Qed.

Lemma vline4_chain (n : nat) :
  forall label,
  on_vline4 label -> cursor_in_line label -> cursor_measure label = n ->
  exists ls, @advance_all tile_always (S n) label = Ok ls /\ length ls = n.
Proof.
  induction n as [| n IH]; intros label Hv Hin Hm.
  - assert (Hp : placement label = MID_POINT).
    { unfold cursor_measure in Hm. destruct (placement label); [reflexivity | lia]. }
    assert (Hi : (segment_index label >= Z.of_nat (length (lines label)) - 2)%Z).
    { unfold cursor_measure in Hm. rewrite Hp in Hm. lia. }
    exists []. rewrite advance_all_S. unfold nextLabel.
    rewrite getNextSegment_exhausted by assumption. auto.
  - destruct (vline4_nextLabel label Hv Hin) as (next & l' & Hn & Hv' & Hin' & Hm').
    { intros [Hp Hi]. unfold cursor_measure in Hm.
      destruct Hv as (Hl & _). rewrite Hp, Hi, Hl in Hm. simpl in Hm. lia. }
    destruct (IH next Hv' Hin') as (ls & Hls & Hlen); [lia |].
    exists (next :: ls). rewrite advance_all_S. rewrite Hn, Hls.
    simpl. auto.
Qed.

(** On a straight 4-point line every cursor position carries a
    placement: after the first label, advancing yields four more, which
    is more than N - 1 = 3. *)
Lemma C7_counterexample :
  exists label ls,
    @new_LabelLine tile_always (Fin 10, Fin 1) vline4 (example_layout [5; 5])
      = Ok label /\
    throw_away label = false /\
    @advance_all tile_always 5 label = Ok ls /\
    length ls = 4%nat /\
    ~ (length ls <= length vline4 - 1)%nat.
Proof.
  set (t0 := init_LabelLine (Fin 10, Fin 1) vline4 (example_layout [5; 5])).
  assert (Hv0 : on_vline4 t0) by (unfold on_vline4; repeat split).
  assert (Hin0 : cursor_in_line t0).
  { unfold cursor_in_line. simpl. split; [lia | discriminate]. }
  destruct (vline4_accepts t0 Hv0 Hin0) as (label & Htry & Hsc).
  apply (new_LabelLine_first_try (ext := tile_always)) in Htry.
  assert (Hta : throw_away label = false).
  { unfold same_cursor in Hsc. decompose [and] Hsc. assumption. }
  assert (Hm : cursor_measure label = 4%nat).
  { rewrite (same_cursor_measure _ _ Hsc). reflexivity. }
  destruct (vline4_chain 4 label) as (ls & Hls & Hlen); auto.
  { eapply on_vline4_same_cursor; eauto. }
  { eapply cursor_in_line_same; eauto. }
  exists label, ls. repeat split; auto.
  rewrite Hlen. simpl. lia.
Qed.

Lemma C7_witness :
  exists label,
    @new_LabelLine tile_always (Fin 10, Fin 1) line2 (example_layout [5; 5])
      = Ok label /\
    @advance_all tile_always (S (cursor_measure label)) label <> Diverge.
Proof.
  destruct line2_label as (label & A & B & _).
  exists label. split; [exact A |].
  exact (proj1 (C7_advance_chain_bound (ext := tile_always)
                  (Fin 10, Fin 1) line2 (example_layout [5; 5]) label A B)).
Defined.

(** With every option present, a corner placement seeded at index 0
    reads [lines[-1]], and the vector subtraction raises on it. *)
Example corner_seeded_at_index_0_raises :
  @new_LabelLine tile_always (Fin 10, Fin 1) vline3
    (with_placement CORNER 0 (example_layout [5; 5]))
  = Throw TypeError.
Proof. reflexivity. Qed.

(** Scenario B of the specification: a label wider than the only
    segment of the line is marked for discard. *)
Example scenario_B_discards :
  exists label,
    @new_LabelLine tile_always (Fin 200, Fin 1) line2 (example_layout [5; 5])
      = Ok label /\
    throw_away label = true /\ labels label = [].
Proof.
  unfold new_LabelLine, getNextFittingSegment.
  set (t0 := init_LabelLine (Fin 200, Fin 1) line2 (example_layout [5; 5])).
  change (cursor_measure t0 + 2)%nat with 2%nat.
  rewrite rec_unfold_Some.
  rewrite (straight_reject (ext := tile_always) t0 (pt 0 0) (pt 100 0));
    try reflexivity.
  - rewrite rec_unfold_None.
    rewrite getNextSegment_exhausted; [| reflexivity | simpl; lia].
    eexists. split; [reflexivity |]. split; reflexivity.
  - apply short_segment_rejects. solve_Rabs.
Qed.

(** * Further properties *)

(** ** The angle calculator *)

Lemma Rtrunc_0 (r : R) : 0 <= r < 1 -> Rtrunc r = 0%Z.
Proof.
  intros H. unfold Rtrunc. destruct (Rlt_dec r 0); [lra |].
  unfold Int_part. rewrite <- (tech_up r 1); simpl; lra || reflexivity.
Qed.

Lemma Rtrunc_1 (r : R) : 1 <= r < 2 -> Rtrunc r = 1%Z.
Proof.
  intros H. unfold Rtrunc. destruct (Rlt_dec r 0); [lra |].
  unfold Int_part. rewrite <- (tech_up r 2); simpl; lra || reflexivity.
Qed.

(** The four cases of the normalisation. *)
Lemma normalize_angleR_cases (theta : R) :
  (0 <= theta < PI / 2 -> normalize_angleR theta = theta) /\
  (PI / 2 <= theta < PI -> normalize_angleR theta = theta + PI) /\
  (PI <= theta <= 3 * PI / 2 -> normalize_angleR theta = theta - PI) /\
  (- (PI / 2) < theta < 0 -> normalize_angleR theta = theta + 2 * PI).
Proof.
  pose proof PI_RGT_0 as HPI. unfold normalize_angleR.
  repeat split; intros H.
  - destruct (Rle_dec _ _); [lra |]. destruct (Rlt_dec _ _); lra.
  - destruct (Rle_dec _ _); [| lra].
    rewrite Rtrunc_0; [simpl; lra |].
    split.
    + apply Rmult_le_reg_r with (2 * PI); [lra |].
      unfold Rdiv. rewrite Rmult_assoc, Rinv_l by lra. lra.
    + apply Rmult_lt_reg_r with (2 * PI); [lra |].
      unfold Rdiv. rewrite Rmult_assoc, Rinv_l by lra. lra.
  - destruct (Rle_dec _ _); [| lra].
    rewrite Rtrunc_1; [simpl; lra |].
    split.
    + apply Rmult_le_reg_r with (2 * PI); [lra |].
      unfold Rdiv. rewrite Rmult_assoc, Rinv_l by lra. lra.
    + apply Rmult_lt_reg_r with (2 * PI); [lra |].
      unfold Rdiv. rewrite Rmult_assoc, Rinv_l by lra. lra.
  - destruct (Rle_dec _ _); [lra |]. destruct (Rlt_dec _ _); lra.
Qed.

Lemma normalize_angleR_upright (theta : R) :
  - (PI / 2) < theta <= 3 * PI / 2 ->
  0 <= normalize_angleR theta <= PI / 2 \/
  3 * PI / 2 <= normalize_angleR theta < 2 * PI.
Proof.
  pose proof PI_RGT_0 as HPI. intros H.
  destruct (normalize_angleR_cases theta) as (A & B & C & D).
  destruct (Rlt_dec theta 0); [rewrite D by lra; right; lra |].
  destruct (Rlt_dec theta (PI / 2)); [rewrite A by lra; left; lra |].
  destruct (Rlt_dec theta PI); [rewrite B by lra; right; lra |].
  rewrite C by lra. left. lra.
Qed.

(** X1.  The angle of a segment never lies strictly between a quarter
    turn and three quarter turns: it is in [0, pi/2] or in
    [3 pi/2, 2 pi), so that a label along the segment is never
    upside-down. *)
Theorem X1_angle_is_upright (x1 y1 x2 y2 : R) :
  exists r,
    getAngleFromSegment (Some (Fin x1, Fin y1)) (Some (Fin x2, Fin y2))
    = Ok (Fin r) /\
    (0 <= r <= PI / 2 \/ 3 * PI / 2 <= r < 2 * PI).
Proof.
  exists (angleR (x1 - x2) (y1 - y2)).
  split; [apply getAngleFromSegment_Fin |].
  pose proof PI_RGT_0 as HPI.
  pose proof (atan2R_bound (x1 - x2) (y1 - y2)).
  apply normalize_angleR_upright. lra.
Qed.

Lemma atan_range_pos (r : R) : 0 < r -> 0 < atan r < PI / 2.
Proof.
  intros H. split; [now apply atan_pos | apply atan_bound].
Qed.

Lemma atan_range_neg (r : R) : r < 0 -> - (PI / 2) < atan r < 0.
Proof.
  intros H. split.
  - pose proof (atan_bound r). lra.
  - rewrite <- atan_0. now apply atan_increasing.
Qed.

(** The angle of a direction vector that is not vertical. *)
Lemma angleR_reverse (dx dy : R) :
  dx <> 0 -> angleR (- dx) (- dy) = angleR dx dy.
Proof.
  intros Hdx. pose proof PI_RGT_0 as HPI.
  unfold angleR, Math.atan2R.
  destruct (total_order_T dy 0) as [[Hy | Hy] | Hy];
    destruct (total_order_T (- dy) 0) as [[Hy' | Hy'] | Hy']; try lra.
  - (* dy < 0 *)
    replace (- dx / - dy) with (dx / dy) by (field; lra).
    assert (Hi : / dy < 0) by now apply Rinv_lt_0_compat.
    destruct (Rle_dec 0 dx) as [Hx | Hx].
    + assert (Hq : dx / dy < 0) by (unfold Rdiv; nra).
      pose proof (atan_range_neg _ Hq).
      destruct (normalize_angleR_cases (atan (dx / dy) + PI + PI / 2))
        as (_ & _ & C & _).
      destruct (normalize_angleR_cases (atan (dx / dy) + PI / 2))
        as (A & _).
      rewrite C, A by lra. lra.
    + assert (Hq : 0 < dx / dy) by (unfold Rdiv; nra).
      pose proof (atan_range_pos _ Hq).
      destruct (normalize_angleR_cases (atan (dx / dy) - PI + PI / 2))
        as (_ & _ & _ & D).
      destruct (normalize_angleR_cases (atan (dx / dy) + PI / 2))
        as (_ & B & _).
      rewrite D, B by lra. lra.
  - (* dy = 0 *)
    subst dy. unfold Rsign_case.
    destruct (total_order_T dx 0) as [[Hx | Hx] | Hx];
      destruct (total_order_T (- dx) 0) as [[Hx' | Hx'] | Hx']; try lra.
    + destruct (normalize_angleR_cases (PI / 2 + PI / 2)) as (_ & _ & C & _).
      destruct (normalize_angleR_cases (- (PI / 2) + PI / 2)) as (A & _).
      rewrite C, A by lra. lra.
    + destruct (normalize_angleR_cases (PI / 2 + PI / 2)) as (_ & _ & C & _).
      destruct (normalize_angleR_cases (- (PI / 2) + PI / 2)) as (A & _).
      rewrite C, A by lra. lra.
  - (* 0 < dy *)
    replace (- dx / - dy) with (dx / dy) by (field; lra).
    assert (Hi : 0 < / dy) by now apply Rinv_0_lt_compat.
    destruct (Rle_dec 0 (- dx)) as [Hx | Hx].
    + assert (Hq : dx / dy < 0) by (unfold Rdiv; nra).
      pose proof (atan_range_neg _ Hq).
      destruct (normalize_angleR_cases (atan (dx / dy) + PI + PI / 2))
        as (_ & _ & C & _).
      destruct (normalize_angleR_cases (atan (dx / dy) + PI / 2))
        as (A & _).
      rewrite C, A by lra. lra.
    + assert (Hq : 0 < dx / dy) by (unfold Rdiv; nra).
      pose proof (atan_range_pos _ Hq).
      destruct (normalize_angleR_cases (atan (dx / dy) - PI + PI / 2))
        as (_ & _ & _ & D).
      destruct (normalize_angleR_cases (atan (dx / dy) + PI / 2))
        as (_ & B & _).
      rewrite D, B by lra. lra.
Qed.

Lemma angleR_vertical (dy : R) :
  (0 < dy -> angleR 0 dy = 3 * PI / 2) /\
  (dy < 0 -> angleR 0 dy = PI / 2).
Proof.
  pose proof PI_RGT_0 as HPI.
  unfold angleR, Math.atan2R. split; intros H.
  - destruct (total_order_T dy 0) as [[Hy | Hy] | Hy]; try lra.
    replace (0 / dy) with 0 by (field; lra). rewrite atan_0.
    destruct (normalize_angleR_cases (0 + PI / 2)) as (_ & B & _).
    rewrite B by lra. lra.
  - destruct (total_order_T dy 0) as [[Hy | Hy] | Hy]; try lra.
    destruct (Rle_dec 0 0); [| lra].
    replace (0 / dy) with 0 by (field; lra). rewrite atan_0.
    destruct (normalize_angleR_cases (0 + PI + PI / 2)) as (_ & _ & C & _).
    rewrite C by lra. lra.
Qed.

(** X2.  The angle of a segment that is not vertical does not depend on
    the order of its two points. *)
Theorem X2_angle_ignores_direction (x1 y1 x2 y2 : R) :
  x1 <> x2 ->
  getAngleFromSegment (Some (Fin x1, Fin y1)) (Some (Fin x2, Fin y2))
  = getAngleFromSegment (Some (Fin x2, Fin y2)) (Some (Fin x1, Fin y1)).
Proof.
  intros H. rewrite !getAngleFromSegment_Fin.
  replace (x2 - x1) with (- (x1 - x2)) by lra.
  replace (y2 - y1) with (- (y1 - y2)) by lra.
  rewrite angleR_reverse by lra. reflexivity.
Qed.

Lemma X2_witness :
  getAngleFromSegment (Some (Fin 0, Fin 0)) (Some (Fin 4, Fin 3))
  = getAngleFromSegment (Some (Fin 4, Fin 3)) (Some (Fin 0, Fin 0)).
Proof. apply X2_angle_ignores_direction. lra. Defined.

(** X3.  The angle of a vertical segment does depend on the order of its
    points: three quarter turns when the first point has the larger y,
    a quarter turn when it has the smaller y.  The common x coordinate
    is taken different from zero, so that the x difference the program
    computes is +0: the embedding has one zero, and with a coordinate
    -0 against +0 the program's difference is -0, on which its [atan2]
    answers otherwise. *)
Theorem X3_angle_of_vertical_segment (x y1 y2 : R) :
  x <> 0 ->
  (y2 < y1 ->
   getAngleFromSegment (Some (Fin x, Fin y1)) (Some (Fin x, Fin y2))
   = Ok (Fin (3 * PI / 2))) /\
  (y1 < y2 ->
   getAngleFromSegment (Some (Fin x, Fin y1)) (Some (Fin x, Fin y2))
   = Ok (Fin (PI / 2))).
Proof.
  intros _. rewrite getAngleFromSegment_Fin.
  replace (x - x) with 0 by lra.
  destruct (angleR_vertical (y1 - y2)) as [A B].
  split; intros H; [rewrite A | rewrite B]; auto; lra.
Qed.

Lemma X3_witness :
  getAngleFromSegment (Some (Fin 5, Fin 20)) (Some (Fin 5, Fin 0))
  = Ok (Fin (3 * PI / 2)).
Proof.
  apply (proj1 (X3_angle_of_vertical_segment 5 20 0 ltac:(lra))). lra.
Defined.

(** ** Hairpin bends *)

Lemma sqrt_3_4_back : sqrt ((4 - 0) * (4 - 0) + (3 - 0) * (3 - 0)) = 5.
Proof.
  replace ((4 - 0) * (4 - 0) + (3 - 0) * (3 - 0)) with (5 * 5) by lra.
  apply sqrt_square. lra.
Qed.

(** X4.  A bend that turns straight back (the point after the vertex is
    the point before it) on a segment that is not vertical passes both
    the vertical line test and the angle bound, because the two segment
    angles are equal: the corner candidate is accepted as soon as the
    last piece and the rest fit the two segments. *)
Theorem X4_hairpin_accepted_as_corner {ext : Collaborators}
    (in_tile : forall t, inTileBounds t = true)
    (t : LabelLine) (x0 y0 x1 y1 w h u le : R) (rs : list R) :
  placement t = CORNER ->
  js_nth (lines t) (segment_index t - 1) = Some (Fin x0, Fin y0) ->
  js_nth (lines t) (segment_index t) = Some (Fin x1, Fin y1) ->
  js_nth (lines t) (segment_index t + 1) = Some (Fin x0, Fin y0) ->
  x0 <> x1 ->
  options_present t ->
  size t = (Fin w, Fin h) ->
  layout_units_per_pixel (layout t) = Fin u ->
  layout_line_exceed (layout t) = Fin le -> le <> 100 ->
  segment_size t = Some (map Fin rs) -> (2 <= length rs)%nat ->
  u * (w - nth (length rs - 1) rs 0)
    < 100 / (100 - le)
      * sqrt ((x0 - x1) * (x0 - x1) + (y0 - y1) * (y0 - y1)) ->
  u * nth (length rs - 1) rs 0
    < 100 / (100 - le)
      * sqrt ((x1 - x0) * (x1 - x0) + (y1 - y0) * (y1 - y0)) ->
  exists t',
    try_segment (getCurrentSegment t) t = Ok (true, t') /\
    placement t' = CORNER /\ segment_index t' = segment_index t /\
    isArticulated t' = true.
Proof.
  intros Hp H0 H1 H2 Hx Hopt Hsz Hu Hle Hne Hss Hlen Hf1 Hf2.
  destruct (corner_accept in_tile t x0 y0 x1 y1 x0 y0 w h u le rs)
    as (t' & c0 & c1 & Htry & Hsc & Hart & _); auto.
  - intros [_ B].
    pose proof (Rle_0_sqr (y0 - y1)) as Hsq. unfold Rsqr in Hsq. lra.
  - replace (x1 - x0) with (- (x0 - x1)) by lra.
    replace (y1 - y0) with (- (y0 - y1)) by lra.
    rewrite angleR_reverse by lra. apply Rmin_fold_zero.
  - exists t'. unfold same_cursor in Hsc. decompose [and] Hsc.
    split; [exact Htry |]. split; [congruence |]. split; assumption.
Qed.

Lemma X4_witness :
  exists t',
    @try_segment tile_always (getCurrentSegment (corner_on hairpin 4 [2; 2]))
      (corner_on hairpin 4 [2; 2]) = Ok (true, t') /\
    placement t' = CORNER /\
    segment_index t' = segment_index (corner_on hairpin 4 [2; 2]) /\
    isArticulated t' = true.
Proof.
  apply (X4_hairpin_accepted_as_corner tile_always_in_tile
           (corner_on hairpin 4 [2; 2]) 0 0 4 3 4 1 1 0 [2; 2]);
    try reflexivity; try lra.
  - apply options_present_example.
  - rewrite sqrt_4_3, no_overrun_ratio. simpl. lra.
  - rewrite sqrt_3_4_back, no_overrun_ratio. simpl. lra.
Defined.

(** ** What an accepted label holds *)

Section Populated.

Context {ext : Collaborators}.

Lemma updateBBoxes_MID_POINT_label (t t' : LabelLine) :
  updateBBoxes t = Ok (tt, t') -> placement t = MID_POINT ->
  exists a lab,
    angle t = Some a /\
    labels t' = (0%Z, lab) :: filter (fun e => negb (fst e =? 0)%Z) (labels t) /\
    label_position lab = position t /\
    label_angle lab = js_num_at a 0 /\
    obb_angle (label_obb lab) = (- js_num_at a 0)%js /\
    label_size lab = size t /\ label_layout lab = layout t.
Proof.
  unfold updateBBoxes.
  unfold bind at 1 2 3 4. unfold get at 1 2 3. unfold require at 1.
  destruct (layout_buffer (layout t)) as [buf |]; [| discriminate].
  unfold ret at 1. intros H Hp. rewrite Hp in H.
  unfold removeLabel, addLabel in H. unfold_M.
  unfold set_labels in H. cbn in H.
  destruct (angle t) as [a |] eqn:Ha; [| discriminate].
  destruct (position t) as [pos |] eqn:Hpos; [| discriminate].
  destruct (layout_offset (layout t)) as [off |]; [| discriminate].
  inversion H; subst; clear H. cbn.
  eexists a, _. split; [reflexivity |]. split; [reflexivity |].
  cbn. repeat split; reflexivity.
Qed.

Lemma getCurrentAngle_MID_POINT (t : LabelLine) (a : list num) :
  placement t = MID_POINT ->
  getCurrentAngle t = Ok (a, t) ->
  exists theta,
    getAngleFromSegment (js_nth (lines t) (segment_index t))
      (js_nth (lines t) (segment_index t + 1)) = Ok theta /\
    a = [theta].
Proof.
  intros Hp. unfold getCurrentAngle, getCurrentSegment. unfold_M.
  rewrite Hp. seg_simpl. intros H.
  destruct (getAngleFromSegment _ _) as [theta | |]; try discriminate.
  inversion H; subst. exists theta. split; reflexivity.
Qed.

Lemma getCurrentPosition_MID_POINT (t : LabelLine) (pos : vec) (p q : point) :
  placement t = MID_POINT ->
  js_nth (lines t) (segment_index t) = Some p ->
  js_nth (lines t) (segment_index t + 1) = Some q ->
  getCurrentPosition t = Ok (pos, t) ->
  pos = ((fst p + fst q) / Fin 2, (snd p + snd q) / Fin 2)%js.
Proof.
  intros Hp H0 H1. unfold getCurrentPosition, getCurrentSegment. unfold_M.
  rewrite Hp, H0, H1. seg_simpl. intros H. inversion H; reflexivity.
Qed.

Lemma update_unfold (t t' : LabelLine) :
  update t = Ok (tt, t') ->
  exists a p,
    getCurrentAngle t = Ok (a, t) /\
    getCurrentPosition t = Ok (p, t) /\
    updateBBoxes (set_position (Some p) (set_angle (Some a) t))
    = Ok (tt, t').
Proof.
  unfold update. unfold bind at 1.
  destruct (getCurrentAngle t) as [[a t1] | |] eqn:Ha; try discriminate.
  pose proof (getCurrentAngle_state _ _ _ Ha); subst t1.
  unfold bind at 1. unfold modify at 1.
  unfold bind at 1.
  destruct (getCurrentPosition (set_angle (Some a) t)) as [[p t1] | |] eqn:Hp;
    try discriminate.
  pose proof (getCurrentPosition_state _ _ _ Hp); subst t1.
  unfold bind at 1. unfold modify at 1.
  intros H. exists a, p.
  split; [reflexivity |].
  split; [eapply getCurrentPosition_set_angle; eassumption | exact H].
Qed.

(** X5.  A label that the constructor returns as accepted in straight
    mode is anchored at the midpoint of the segment under its cursor,
    carries the single angle of that segment, is not articulated, and
    its store holds exactly one label at key 0, with that anchor, that
    angle and a box whose angle is the negated label angle. *)
Theorem X5_accepted_straight_label (sz : vec) (ln : list point) (l : Layout)
    (label : LabelLine) :
  new_LabelLine sz ln l = Ok label ->
  throw_away label = false ->
  placement label = MID_POINT ->
  exists p q theta lab,
    js_nth ln (segment_index label) = Some p /\
    js_nth ln (segment_index label + 1) = Some q /\
    getAngleFromSegment (Some p) (Some q) = Ok theta /\
    position label
    = Some ((fst p + fst q) / Fin 2, (snd p + snd q) / Fin 2)%js /\
    angle label = Some [theta] /\
    isArticulated label = false /\
    In (0%Z, lab) (labels label) /\
    (forall lab', In (0%Z, lab') (labels label) -> lab' = lab) /\
    label_position lab = position label /\
    label_angle lab = theta /\
    obb_angle (label_obb lab) = (- theta)%js /\
    label_size lab = sz.
Proof.
  intros Hnew Hta Hpl.
  destruct (new_LabelLine_accepted _ _ _ _ Hnew Hta) as (t0 & Hle & Hacc).
  pose proof (accepted_same_cursor _ _ Hacc) as Hsc.
  destruct Hacc as (t1 & t2 & Hfit & Hupd & _ & _ & Heq).
  assert (Hp0 : placement t0 = MID_POINT).
  { unfold same_cursor in Hsc. decompose [and] Hsc. congruence. }
  assert (Hidx : segment_index label = segment_index t0).
  { unfold same_cursor in Hsc. decompose [and] Hsc. assumption. }
  assert (Hln : lines t0 = ln /\ size t0 = sz).
  { unfold cursor_le in Hle. decompose [and] Hle. split; assumption. }
  destruct Hln as [Hln Hsz].
  destruct (doesSegmentFit_MID_POINT_inv _ _ _ Hp0 Hfit)
    as (p & q & H0 & H1 & Ht1 & _).
  subst t1.
  destruct (update_unfold _ _ Hupd) as (a & pos & HA & HP & HU).
  destruct (getCurrentAngle_MID_POINT _ _ Hp0 HA) as (theta & Hth & Ha).
  pose proof (getCurrentPosition_MID_POINT _ _ _ _ Hp0 H0 H1 HP) as Hpos.
  destruct (updateBBoxes_MID_POINT_label _ _ HU Hp0)
    as (a' & lab & Ha' & Hlabs & Hlp & Hla & Hob & Hls & _).
  destruct (updateBBoxes_frame _ _ HU) as (Hsc2 & Hang & Hposn & _).
  cbn in Ha', Hlp, Hls, Hang, Hposn. inversion Ha'; subst a'; clear Ha'.
  assert (Hp2 : placement t2 = MID_POINT).
  { unfold same_cursor in Hsc2. decompose [and] Hsc2.
    cbn in *. congruence. }
  rewrite Hp2 in Heq. subst label. cbn.
  rewrite H0, H1 in Hth. cbn in Hidx. rewrite Hidx, <- Hln.
  exists p, q, theta, lab.
  rewrite Hposn, Hang, Hlabs, Hlp, Hla, Hob, Hls, Hsz.
  subst a pos. cbn.
  repeat split; try reflexivity; try assumption.
  - left. reflexivity.
  - intros lab' [E | E]; [congruence |].
    apply filter_In in E. destruct E as [_ E]. discriminate E.
Qed.

End Populated.

Lemma X5_witness :
  exists label p q theta lab,
    @new_LabelLine tile_always (Fin 10, Fin 1) line2 (example_layout [5; 5])
    = Ok label /\
    js_nth line2 (segment_index label) = Some p /\
    js_nth line2 (segment_index label + 1) = Some q /\
    getAngleFromSegment (Some p) (Some q) = Ok theta /\
    position label
    = Some ((fst p + fst q) / Fin 2, (snd p + snd q) / Fin 2)%js /\
    angle label = Some [theta] /\
    isArticulated label = false /\
    In (0%Z, lab) (labels label) /\
    (forall lab', In (0%Z, lab') (labels label) -> lab' = lab) /\
    label_position lab = position label /\
    label_angle lab = theta /\
    obb_angle (label_obb lab) = (- theta)%js /\
    label_size lab = (Fin 10, Fin 1).
Proof.
  destruct line2_label as (label & Hnew & Hta & Hpl).
  destruct (X5_accepted_straight_label (ext := tile_always)
              _ _ _ _ Hnew Hta Hpl) as (p & q & theta & lab & H).
  exists label, p, q, theta, lab. split; [exact Hnew | exact H].
Defined.

Section PopulatedCorner.

Context {ext : Collaborators}.

Lemma updateBBoxes_side_label (upp height dx : num) (i : Z)
    (t t' : LabelLine) :
  updateBBoxes_side upp height dx i t = Ok (tt, t') ->
  exists a lab,
    angle t = Some a /\
    labels t'
    = (i, lab) :: filter (fun e => negb (fst e =? i)%Z) (labels t) /\
    label_size lab = (js_num_at (collapsed_size t) i, snd (size t)) /\
    label_position lab = position t /\
    label_angle lab = js_num_at a i /\
    obb_angle (label_obb lab) = (- js_num_at a i)%js.
Proof.
  unfold updateBBoxes_side, removeLabel, addLabel. unfold_M.
  unfold set_labels. cbn. intros H.
  destruct (angle t) as [a |] eqn:Ha; [| discriminate].
  cbn in H.
  destruct (position t) as [pos |] eqn:Hpos; [| discriminate].
  cbn in H.
  destruct (layout_offset (layout t)) as [off |]; [| discriminate].
  cbn in H.
  inversion H; subst; clear H. cbn.
  eexists a, _. split; [reflexivity |]. split; [reflexivity |].
  cbn. repeat split; reflexivity.
Qed.

Lemma updateBBoxes_CORNER_labels (t t' : LabelLine) :
  updateBBoxes t = Ok (tt, t') -> placement t = CORNER ->
  exists a lab0 lab1,
    angle t = Some a /\
    labels t'
    = (1%Z, lab1)
      :: filter (fun e => negb (fst e =? 1)%Z)
           ((0%Z, lab0)
            :: filter (fun e => negb (fst e =? 0)%Z) (labels t)) /\
    label_size lab0 = (js_num_at (collapsed_size t) 0, snd (size t)) /\
    label_size lab1 = (js_num_at (collapsed_size t) 1, snd (size t)) /\
    label_position lab0 = position t /\
    label_position lab1 = position t /\
    label_angle lab0 = js_num_at a 0 /\
    label_angle lab1 = js_num_at a 1.
Proof.
  unfold updateBBoxes.
  unfold bind at 1 2 3 4. unfold get at 1 2 3. unfold require at 1.
  destruct (layout_buffer (layout t)) as [buf |]; [| discriminate].
  unfold ret at 1. intros H Hp. rewrite Hp in H.
  unfold bind at 1 2 3 in H. unfold get at 1 in H. unfold require at 1 in H.
  destruct (angle t) as [a |] eqn:Ha; [| discriminate].
  unfold ret at 1 in H. unfold get at 1 in H.
  unfold bind at 1 in H.
  match type of H with
  | match ?m t with _ => _ end = _ =>
      destruct (m t) as [[[] t1] | |] eqn:H0; try discriminate
  end.
  destruct (updateBBoxes_side_label _ _ _ _ _ _ H0)
    as (a0 & lab0 & Ha0 & Hl0 & Hs0 & Hp0 & Hg0 & _).
  destruct (updateBBoxes_side_label _ _ _ _ _ _ H)
    as (a1 & lab1 & Ha1 & Hl1 & Hs1 & Hp1 & Hg1 & _).
  destruct (updateBBoxes_side_frame _ _ _ _ _ _ H0)
    as (Hsc & Hang & Hpos & Hcs & _).
  rewrite Ha in Ha0. inversion Ha0; subst a0.
  rewrite Hang, Ha in Ha1. inversion Ha1; subst a1.
  exists a, lab0, lab1.
  split; [reflexivity |].
  split; [rewrite Hl1, Hl0; reflexivity |].
  unfold same_cursor in Hsc. decompose [and] Hsc.
  repeat split; congruence.
Qed.

Lemma getCurrentPosition_CORNER (t : LabelLine) (pos : vec) :
  placement t = CORNER ->
  getCurrentPosition t = Ok (pos, t) ->
  js_nth (lines t) (segment_index t) = Some pos.
Proof.
  intros Hp. unfold getCurrentPosition, getCurrentSegment. unfold_M.
  rewrite Hp. seg_simpl.
  destruct (js_nth (lines t) (segment_index t)); [| discriminate].
  intros H. inversion H; reflexivity.
Qed.

(** X6.  A label that the constructor returns as accepted in corner
    mode is anchored at the vertex under its cursor, which has a point
    on either side, and its store holds exactly one label at key 0 and
    one at key 1: part [i] has the width [collapsed_size[i]], the
    height of the whole label, the anchor of the whole label and the
    angle [angle[i]]. *)
Theorem X6_accepted_corner_label (sz : vec) (ln : list point) (l : Layout)
    (label : LabelLine) :
  new_LabelLine sz ln l = Ok label ->
  throw_away label = false ->
  placement label = CORNER ->
  exists v a lab0 lab1,
    (1 <= segment_index label <= Z.of_nat (length ln) - 2)%Z /\
    js_nth ln (segment_index label) = Some v /\
    position label = Some v /\
    angle label = Some a /\
    In (0%Z, lab0) (labels label) /\
    In (1%Z, lab1) (labels label) /\
    (forall lab', In (0%Z, lab') (labels label) -> lab' = lab0) /\
    (forall lab', In (1%Z, lab') (labels label) -> lab' = lab1) /\
    label_size lab0 = (js_num_at (collapsed_size label) 0, snd sz) /\
    label_size lab1 = (js_num_at (collapsed_size label) 1, snd sz) /\
    label_position lab0 = position label /\
    label_position lab1 = position label /\
    label_angle lab0 = js_num_at a 0 /\
    label_angle lab1 = js_num_at a 1.
Proof.
  intros Hnew Hta Hpl.
  destruct (new_LabelLine_in_line _ _ _ _ Hnew Hta) as [Hin Hle0].
  destruct (new_LabelLine_accepted _ _ _ _ Hnew Hta) as (t0 & Hle & Hacc).
  pose proof (accepted_same_cursor _ _ Hacc) as Hsc.
  destruct Hacc as (t1 & t2 & Hfit & Hupd & _ & _ & Heq).
  pose proof (doesSegmentFit_frame _ _ _ _ Hfit) as Hsc1.
  assert (Hln : lines label = ln /\ size label = sz).
  { unfold cursor_le in Hle0. decompose [and] Hle0. split; assumption. }
  destruct Hln as [Hln Hsz].
  assert (Hp1 : placement t1 = CORNER).
  { unfold same_cursor in Hsc, Hsc1.
    decompose [and] Hsc. decompose [and] Hsc1. congruence. }
  assert (Hl1 : lines t1 = ln /\ size t1 = sz /\
                segment_index t1 = segment_index label).
  { unfold same_cursor in Hsc, Hsc1.
    decompose [and] Hsc. decompose [and] Hsc1.
    repeat split; congruence. }
  destruct Hl1 as (Hl1 & Hs1 & Hi1).
  destruct (update_unfold _ _ Hupd) as (a & pos & HA & HP & HU).
  pose proof (getCurrentPosition_CORNER _ _ Hp1 HP) as Hv.
  destruct (updateBBoxes_CORNER_labels _ _ HU Hp1)
    as (a' & lab0 & lab1 & Ha' & Hlabs & Hz0 & Hz1 & Hq0 & Hq1 & Hg0 & Hg1).
  destruct (updateBBoxes_frame _ _ HU) as (Hsc2 & Hang & Hposn & Hcs & _).
  cbn in Ha', Hz0, Hz1, Hq0, Hq1, Hang, Hposn, Hcs.
  inversion Ha'; subst a'; clear Ha'.
  assert (Hfields : position label = Some pos /\ angle label = Some a /\
                    collapsed_size label = collapsed_size t1 /\
                    labels label = labels t2).
  { rewrite Heq. cbn. repeat split; assumption. }
  destruct Hfields as (Fp & Fa & Fc & Fl).
  exists pos, a, lab0, lab1.
  rewrite Fp, Fa, Fc, Fl, Hlabs, Hz0, Hz1, Hq0, Hq1, Hg0, Hg1.
  rewrite Hs1. rewrite <- Hi1, <- Hl1.
  unfold cursor_in_line in Hin. destruct Hin as [Hr Hc].
  specialize (Hc Hpl). rewrite Hln, <- Hl1, <- Hi1 in Hr.
  rewrite <- Hi1 in Hc.
  split; [lia |].
  repeat split; try reflexivity; try assumption.
  - right. apply filter_In. split; [left; reflexivity | reflexivity].
  - left. reflexivity.
  - intros lab' [E | E]; [discriminate E |].
    apply filter_In in E. destruct E as [[E | E] _]; [congruence |].
    apply filter_In in E. destruct E as [_ E]. discriminate E.
  - intros lab' [E | E]; [congruence |].
    apply filter_In in E. destruct E as [_ E]. discriminate E.
Qed.

End PopulatedCorner.

Lemma X6_witness :
  exists label v a lab0 lab1,
    @new_LabelLine tile_always (Fin 4, Fin 1) peak
      (with_placement CORNER 1 (example_layout [2; 2])) = Ok label /\
    (1 <= segment_index label <= Z.of_nat (length peak) - 2)%Z /\
    js_nth peak (segment_index label) = Some v /\
    position label = Some v /\
    angle label = Some a /\
    In (0%Z, lab0) (labels label) /\
    In (1%Z, lab1) (labels label) /\
    (forall lab', In (0%Z, lab') (labels label) -> lab' = lab0) /\
    (forall lab', In (1%Z, lab') (labels label) -> lab' = lab1) /\
    label_size lab0 = (js_num_at (collapsed_size label) 0, snd (Fin 4, Fin 1)) /\
    label_size lab1 = (js_num_at (collapsed_size label) 1, snd (Fin 4, Fin 1)) /\
    label_position lab0 = position label /\
    label_position lab1 = position label /\
    label_angle lab0 = js_num_at a 0 /\
    label_angle lab1 = js_num_at a 1.
Proof.
  destruct peak_corner_label as (label & Hnew & Hta & Hpl & _).
  destruct (X6_accepted_corner_label (ext := tile_always)
              _ _ _ _ Hnew Hta Hpl) as (v & a & lab0 & lab1 & H).
  exists label, v, a, lab0, lab1. split; [exact Hnew | exact H].
Defined.

(** ** Where the constructor leaves the cursor *)

Section Outcome.

Context {ext : Collaborators}.

Lemma getNextSegment_index_cap (b : Z) (t t' : LabelLine) (s : Segment) :
  getNextSegment t = Ok (Some s, t') ->
  (segment_index t <= Z.max b (Z.of_nat (length (lines t)) - 2))%Z ->
  (segment_index t' <= Z.max b (Z.of_nat (length (lines t')) - 2))%Z.
Proof.
  intros Hn Hc. apply getNextSegment_Some in Hn.
  destruct Hn as (_ & Hle & _ & _ & Hcase).
  unfold cursor_le in Hle. decompose [and] Hle.
  match goal with H : lines t' = lines t |- _ => rewrite H end.
  destruct Hcase as [(_ & _ & E) | (_ & Hlt & E)]; rewrite E; lia.
Qed.

(** X7.  Every label the constructor returns keeps the size, the line
    and the layout it was given, and its index is at or after the
    seeded one ([segment_index || segment_start || 0]).  An accepted
    label has its index between 0 and [lines.length - 2]; a discarded
    label is in straight mode with its index at [lines.length - 2], or
    at the seeded index when that is larger. *)
Theorem X7_constructor_outcome (sz : vec) (ln : list point) (l : Layout)
    (label : LabelLine) :
  new_LabelLine sz ln l = Ok label ->
  let seed := js_or_index (layout_segment_index l)
                (js_or_index (layout_segment_start l) 0) in
  size label = sz /\ lines label = ln /\ layout label = l /\
  (seed <= segment_index label)%Z /\
  (throw_away label = false ->
   (0 <= segment_index label <= Z.of_nat (length ln) - 2)%Z) /\
  (throw_away label = true ->
   placement label = MID_POINT /\
   segment_index label = Z.max seed (Z.of_nat (length ln) - 2)).
Proof.
  intros Hnew seed.
  assert (Hle : cursor_le (init_LabelLine sz ln l) label /\
                (segment_index label
                 <= Z.max seed (Z.of_nat (length ln) - 2))%Z).
  { revert Hnew. unfold new_LabelLine, getNextFittingSegment.
    destruct (getNextFittingSegment_rec _ _ _) as [[r t1] | |] eqn:H;
      try discriminate.
    assert (Hcap : (segment_index t1
                    <= Z.max seed (Z.of_nat (length (lines t1)) - 2))%Z).
    { refine (rec_invariant
                (fun t => (segment_index t
                   <= Z.max seed (Z.of_nat (length (lines t)) - 2))%Z)
                _ _ _ _ _ _ _ H _).
      - intros t t' Hs Hc. unfold same_cursor in Hs. decompose [and] Hs.
        congruence.
      - intros t s t'. apply getNextSegment_index_cap.
      - cbn. fold seed. lia. }
    apply rec_result in H; [| reflexivity].
    destruct r as [s |]; intros E; inversion E; subst label; clear E.
    - destruct H as (t0 & A & _ & _ & _ & B).
      apply accepted_same_cursor, same_cursor_le in B.
      pose proof (cursor_le_trans _ _ _ A B) as C.
      split; [exact C |].
      unfold cursor_le in C. decompose [and] C. cbn in *. congruence.
    - destruct H as (A & _).
      split.
      + unfold cursor_le, cursor_measure in *. cbn. exact A.
      + unfold cursor_le in A. decompose [and] A. cbn in *. congruence. }
  destruct Hle as [Hle Hcap].
  assert (Hle' := Hle). unfold cursor_le in Hle'. cbn in Hle'.
  fold seed in Hle'. decompose [and] Hle'.
  split; [assumption |]. split; [assumption |]. split; [assumption |].
  split; [assumption |]. split.
  - intros Hta.
    destruct (new_LabelLine_in_line _ _ _ _ Hnew Hta) as [[Hr _] _].
    congruence.
  - intros Hta.
    destruct (new_LabelLine_discarded _ _ _ _ Hnew Hta) as [Hp Hge].
    split; [exact Hp | lia].
Qed.

End Outcome.

Lemma X7_witness :
  exists label,
    @new_LabelLine tile_always (Fin 10, Fin 1) line2 (example_layout [5; 5])
    = Ok label /\
    size label = (Fin 10, Fin 1) /\ lines label = line2 /\
    layout label = example_layout [5; 5] /\
    (0 <= segment_index label)%Z /\
    (throw_away label = false ->
     (0 <= segment_index label <= Z.of_nat (length line2) - 2)%Z) /\
    (throw_away label = true ->
     placement label = MID_POINT /\
     segment_index label = Z.max 0 (Z.of_nat (length line2) - 2)).
Proof.
  destruct line2_label as (label & Hnew & _).
  exists label. split; [exact Hnew |].
  exact (X7_constructor_outcome (ext := tile_always) _ _ _ _ Hnew).
Defined.

(** ** The search returns the first segment that fits *)

Lemma rejected_at_same (t t' : LabelLine) (k : Z) :
  size t' = size t -> layout t' = layout t -> lines t' = lines t ->
  rejected_at t' k -> rejected_at t k.
Proof.
  unfold rejected_at. intros Hs Hl Hn H p q Hp Hq.
  rewrite <- Hs, <- Hl. apply H; rewrite Hn; assumption.
Qed.

Section FirstFit.

Context {ext : Collaborators}.
Hypothesis in_tile : forall t, inTileBounds t = true.

Lemma try_segment_false_straight (t t1 : LabelLine) :
  placement t = MID_POINT ->
  try_segment (getCurrentSegment t) t = Ok (false, t1) ->
  rejected_at t (segment_index t).
Proof.
  intros Hp. unfold try_segment. unfold bind at 1.
  destruct (doesSegmentFit (getCurrentSegment t) t) as [[b t0] | |] eqn:Hf;
    try discriminate.
  destruct (doesSegmentFit_MID_POINT_inv _ _ _ Hp Hf)
    as (p & q & H0 & H1 & -> & Hb).
  destruct b.
  - unfold bind at 1.
    destruct (update t) as [[[] t2] | |] eqn:Hu; try discriminate.
    unfold bind at 1. unfold get at 1. rewrite in_tile.
    apply update_spec in Hu.
    destruct Hu as (a & pos & _ & _ & _ & _ & Hsc & _).
    assert (Hp2 : placement t2 = MID_POINT).
    { unfold same_cursor in Hsc. decompose [and] Hsc. congruence. }
    unfold inAngleBounds. unfold_M. rewrite Hp2. discriminate.
  - intros _ p' q' Hp' Hq'. congruence.
Qed.

Lemma rec_first_fit (fuel : nat) :
  forall (seg : option Segment) (t t' : LabelLine) (r : option Segment),
  straight_only t ->
  getNextFittingSegment_rec fuel seg t = Ok (r, t') ->
  match seg with
  | Some s => s = getCurrentSegment t
  | None => rejected_at t (segment_index t)
  end ->
  forall k,
    (segment_index t <= k)%Z ->
    match r with
    | Some _ => (k < segment_index t')%Z
    | None => (k <= segment_index t')%Z
    end ->
    rejected_at t k.
Proof.
  induction fuel as [| fuel IH]; [discriminate |].
  assert (HSome : forall t t' r,
    straight_only t ->
    getNextFittingSegment_rec (S fuel) (Some (getCurrentSegment t)) t
    = Ok (r, t') ->
    forall k,
      (segment_index t <= k)%Z ->
      match r with
      | Some _ => (k < segment_index t')%Z
      | None => (k <= segment_index t')%Z
      end ->
      rejected_at t k).
  { intros t t' r Hso. rewrite rec_unfold_Some.
    destruct (try_segment (getCurrentSegment t) t) as [[[] t1] | |] eqn:Ht;
      try discriminate.
    - intros E. inversion E; subst. intros k Hk Hlt.
      apply try_segment_frame in Ht.
      unfold same_cursor in Ht. decompose [and] Ht. lia.
    - intros E k Hk Hb.
      pose proof (try_segment_false_straight _ _ (proj1 Hso) Ht) as Hrej.
      apply try_segment_frame in Ht.
      assert (Hso1 : straight_only t1) by (eapply straight_only_same; eauto).
      unfold same_cursor in Ht. decompose [and] Ht.
      apply (rejected_at_same t t1); try assumption.
      apply (IH None t1 t' r Hso1 E); [| lia | exact Hb].
      apply (rejected_at_same t1 t); try congruence.
      match goal with H : segment_index t1 = _ |- _ => rewrite H end.
      exact Hrej. }
  intros [s |] t t' r Hso.
  - intros E Hs. subst s. eapply HSome; eassumption.
  - rewrite rec_unfold_None.
    destruct (getNextSegment t) as [[[s |] t1] | |] eqn:Hn; try discriminate.
    + intros E Hrej k Hk Hb.
      pose proof (straight_only_next _ _ _ Hn Hso) as Hso1.
      apply getNextSegment_Some in Hn.
      destruct Hn as (-> & Hle & _ & _ & Hcase).
      destruct Hcase as [(Hc & _) | (_ & _ & Hi)].
      * destruct Hso as [Hm _]. congruence.
      * unfold cursor_le in Hle. decompose [and] Hle.
        destruct (Z.eq_dec k (segment_index t)) as [-> | Hne];
          [exact Hrej |].
        apply (rejected_at_same t t1); try assumption.
        apply (HSome t1 t' r Hso1 E); [lia | exact Hb].
    + apply getNextSegment_None in Hn. destruct Hn as (-> & _).
      intros E Hrej k Hk Hb. inversion E; subst.
      assert (k = segment_index t') by lia. subst k. exact Hrej.
Qed.

(** X8.  With articulation off (or fewer than two pieces) and every
    candidate inside the tile, the constructor returns the first
    segment that fits: no segment between the seeded index and the
    index of an accepted label passes the straight fit test, and when
    the label is discarded no segment from the seeded index on
    passes it. *)
Theorem X8_first_fitting_segment (sz : vec) (ln : list point) (l : Layout)
    (label : LabelLine) (k : Z) (p q : point) :
  layout_placement l <> Some CORNER -> not_articulated l ->
  new_LabelLine sz ln l = Ok label ->
  (js_or_index (layout_segment_index l)
     (js_or_index (layout_segment_start l) 0) <= k)%Z ->
  (if throw_away label then (k <= segment_index label)%Z
   else (k < segment_index label)%Z) ->
  js_nth ln k = Some p -> js_nth ln (k + 1) = Some q ->
  straight_fit (fst sz) (layout_units_per_pixel l) (layout_line_exceed l)
    p q = false.
Proof.
  intros Hpl Hna Hnew Hk Hb Hp Hq.
  pose proof (init_straight_only sz ln l Hpl Hna) as Hso.
  revert Hnew Hb. unfold new_LabelLine, getNextFittingSegment.
  destruct (getNextFittingSegment_rec _ _ _) as [[r t1] | |] eqn:H;
    try discriminate.
  pose proof (rec_first_fit _ _ _ _ _ Hso H eq_refl k Hk) as Hrej.
  destruct r as [s |]; intros E; inversion E; subst label; clear E.
  - intros Hb.
    assert (Hta : throw_away t1 = false).
    { apply rec_result in H; [| reflexivity].
      destruct H as (t0 & _ & _ & B & _ & C).
      apply accepted_same_cursor in C.
      unfold same_cursor in C. decompose [and] C.
      rewrite init_throw_away in B. congruence. }
    rewrite Hta in Hb. exact (Hrej Hb p q Hp Hq).
  - cbn. intros Hb. exact (Hrej Hb p q Hp Hq).
Qed.

End FirstFit.

Lemma line3_step_label :
  exists label,
    @new_LabelLine tile_always (Fin 10, Fin 1) line3_step layout_straight
    = Ok label /\
    throw_away label = false /\ segment_index label = 1%Z.
Proof.
  unfold new_LabelLine, getNextFittingSegment.
  set (t0 := init_LabelLine (Fin 10, Fin 1) line3_step layout_straight).
  change (cursor_measure t0 + 2)%nat with 4%nat.
  rewrite (straight_search_skip (ext := tile_always) 2 t0 (pt 0 0) (pt 1 0));
    try reflexivity;
    [| apply short_segment_rejects; solve_Rabs].
  set (t1 := set_segment_index (segment_index t0 + 1) t0).
  destruct (straight_search_accept tile_always_in_tile 2 t1 (pt 1 0) (pt 101 0))
    as (label & Hr & Hsc & _); try reflexivity.
  { apply long_segment_accepts. solve_Rabs. }
  { unfold options_present. simpl.
    split; [eexists; split; reflexivity | split; eexists; reflexivity]. }
  rewrite Hr. exists label.
  unfold same_cursor in Hsc. decompose [and] Hsc.
  repeat split; try assumption.
Qed.

Lemma X8_witness :
  straight_fit (fst (Fin 10, Fin 1)) (layout_units_per_pixel layout_straight)
    (layout_line_exceed layout_straight) (pt 0 0) (pt 1 0) = false.
Proof.
  destruct line3_step_label as (label & Hnew & Hta & Hidx).
  apply (X8_first_fitting_segment tile_always_in_tile
           (Fin 10, Fin 1) line3_step layout_straight label 0 (pt 0 0) (pt 1 0)).
  - discriminate.
  - left. reflexivity.
  - exact Hnew.
  - simpl. lia.
  - rewrite Hta, Hidx. lia.
  - reflexivity.
  - reflexivity.
Defined.

(** ** The kink search *)

(** X10.  On finite piece widths the corner fit test is greedy from the
    end: when it succeeds, [kink_index] is the largest split index in
    [1, segment_size.length - 1] whose two sides pass the length test,
    and when it fails after the vertical line test, no split index
    passes. *)
Theorem X10_kink_search_is_greedy (seg : Segment) (t t' : LabelLine)
    (b : bool) (rs : list R) (s0 : R) (p0p1 p1p2 : vec) :
  segment_size t = Some (map Fin rs) ->
  fst (size t) = Fin s0 ->
  Vector.sub (js_nth_opt seg 0) (js_nth_opt seg 1) = Ok p0p1 ->
  Vector.sub (js_nth_opt seg 1) (js_nth_opt seg 2) = Ok p1p2 ->
  (fst p0p1 * fst p1p2 <? Fin 0)%js && (snd p0p1 * snd p1p2 >? Fin 0)%js
  = false ->
  fitKinkedSegment seg t = Ok (b, t') ->
  let fits := split_fits (layout_units_per_pixel (layout t))
                (excess_ratio (layout t)) (Vector.length p0p1)
                (Vector.length p1p2) s0 rs in
  if b then
    (0 < kink_index t' < Z.of_nat (length rs))%Z /\
    fits (Z.to_nat (kink_index t')) = true /\
    (forall j, (Z.to_nat (kink_index t') < j < length rs)%nat ->
               fits j = false)
  else
    forall j, (1 <= j < length rs)%nat -> fits j = false.
Proof.
  intros Hss Hs0 H0 H1 Hsign H fits.
  unfold fitKinkedSegment in H. unfold_M.
  rewrite H0, H1, Hsign, Hss, Hs0 in H.
  destruct (kink_search _ _ _ _ _ _) as [[[f k] l1] l2] eqn:Hk.
  unfold kink_search in Hk. rewrite length_map in Hk.
  destruct (kink_loop _ _ _ _ _ _ _ _) as [[[f' k'] l1'] l2'] eqn:Hloop.
  inversion Hk; subst f l1 l2. clear Hk.
  apply (kink_loop_greedy rs _ _ _ _ s0) in Hloop.
  - destruct f'.
    + destruct Hloop as (Hr & Hf & Hrest).
      destruct (Z.ltb_spec (Z.of_nat (length rs) - 1) 0) as [Hneg | Hpos];
        [lia |].
      subst k.
      destruct (Z.gtb_spec (Z.of_nat k') 0) as [Hgt | Hle]; [| lia].
      cbn in H. inversion H; subst b t'. cbn.
      rewrite Nat2Z.id.
      split; [lia |]. split; [exact Hf |].
      intros j Hj. apply Hrest. lia.
    + cbn in H. inversion H; subst b t'.
      intros j Hj. apply Hloop. lia.
  - lia.
  - rewrite skipn_all2 by lia. unfold Rsum. simpl. lra.
  - rewrite skipn_all2 by lia. unfold Rsum. simpl. lra.
Qed.

Lemma X10_witness :
  exists t' p0p1 p1p2,
    fitKinkedSegment
      [Some (Fin 0, Fin 0); Some (Fin 4, Fin 3); Some (Fin 8, Fin 0)]
      (corner_on peak 4 [2; 2]) = Ok (true, t') /\
    (0 < kink_index t' < Z.of_nat (length [2; 2]))%Z /\
    split_fits (layout_units_per_pixel (layout (corner_on peak 4 [2; 2])))
      (excess_ratio (layout (corner_on peak 4 [2; 2])))
      (Vector.length p0p1) (Vector.length p1p2) 4 [2; 2]
      (Z.to_nat (kink_index t')) = true /\
    (forall j, (Z.to_nat (kink_index t') < j < length [2; 2])%nat ->
       split_fits (layout_units_per_pixel (layout (corner_on peak 4 [2; 2])))
         (excess_ratio (layout (corner_on peak 4 [2; 2])))
         (Vector.length p0p1) (Vector.length p1p2) 4 [2; 2] j = false).
Proof.
  destruct (fitKinkedSegment_last_piece (corner_on peak 4 [2; 2])
              0 0 4 3 8 0 4 1 1 0 [2; 2])
    as (c0 & c1 & Hfit & _); try reflexivity; try lra.
  - rewrite sqrt_4_3, no_overrun_ratio. simpl. lra.
  - rewrite sqrt_4_3', no_overrun_ratio. simpl. lra.
  - destruct (fitKinkedSegment_true _ _ _ Hfit)
      as (ss & p0p1 & p1p2 & k & l1 & l2 & _ & H0 & H1 & Hsign & _).
    eexists _, p0p1, p1p2. split; [exact Hfit |].
    exact (X10_kink_search_is_greedy _ (corner_on peak 4 [2; 2]) _ true
             [2; 2] 4 p0p1 p1p2 eq_refl eq_refl H0 H1 Hsign Hfit).
Defined.

Lemma kink_search_few_pieces (ss : list num) (opp ex len1 len2 size0 : num) :
  (length ss <= 1)%nat ->
  fst (fst (fst (kink_search ss opp ex len1 len2 size0))) = false.
Proof.
  intros Hlen. unfold kink_search.
  replace (Z.to_nat (Z.of_nat (length ss) - 1)) with O by lia.
  reflexivity.
Qed.

Lemma fitKinkedSegment_few_pieces (seg : Segment) (t t' : LabelLine)
    (b : bool) (ss : list num) :
  segment_size t = Some ss -> (length ss <= 1)%nat ->
  fitKinkedSegment seg t = Ok (b, t') -> b = false.
Proof.
  intros Hss Hlen. unfold fitKinkedSegment. unfold_M.
  destruct (Vector.sub (js_nth_opt seg 0) (js_nth_opt seg 1))
    as [p0p1 | |]; try discriminate.
  destruct (Vector.sub (js_nth_opt seg 1) (js_nth_opt seg 2))
    as [p1p2 | |]; try discriminate.
  destruct (_ && _); [intros H; inversion H; reflexivity |].
  rewrite Hss.
  pose proof (kink_search_few_pieces ss (layout_units_per_pixel (layout t))
                (excess_ratio (layout t)) (Vector.length p0p1)
                (Vector.length p1p2) (fst (size t)) Hlen) as Hk.
  destruct (kink_search _ _ _ _ _ _) as [[[f k] l1] l2].
  cbn in Hk. subst f. cbn. intros H. inversion H; reflexivity.
Qed.

Section FewPieces.

Context {ext : Collaborators}.

(** X9.  With fewer than two pieces in [segment_size] the corner fit
    test always fails, so no label the constructor accepts is
    articulated, even when the layout seeds the corner mode. *)
Theorem X9_few_pieces_never_articulate (sz : vec) (ln : list point)
    (l : Layout) (label : LabelLine) (ss : list num) :
  layout_segment_size l = Some ss -> (length ss <= 1)%nat ->
  new_LabelLine sz ln l = Ok label ->
  throw_away label = false ->
  placement label = MID_POINT /\ isArticulated label = false.
Proof.
  intros Hss Hlen Hnew Hta.
  destruct (new_LabelLine_accepted _ _ _ _ Hnew Hta) as (t0 & Hle & Hacc).
  pose proof (accepted_same_cursor _ _ Hacc) as Hsc.
  destruct Hacc as (t1 & t2 & Hfit & _ & _ & _ & Heq).
  assert (Hss0 : segment_size t0 = Some ss).
  { unfold cursor_le in Hle. cbn in Hle. decompose [and] Hle. congruence. }
  assert (Hpl : placement label = placement t0).
  { unfold same_cursor in Hsc. decompose [and] Hsc. assumption. }
  assert (Hp2 : placement t2 = placement t0).
  { rewrite <- Hpl, Heq. reflexivity. }
  destruct (placement t0) eqn:Hp0.
  - split; [exact Hpl |]. rewrite Heq, Hp2. reflexivity.
  - unfold doesSegmentFit in Hfit. unfold bind at 1, get at 1 in Hfit.
    rewrite Hp0 in Hfit.
    pose proof (fitKinkedSegment_few_pieces _ _ _ _ _ Hss0 Hlen Hfit).
    discriminate.
Qed.

End FewPieces.

Lemma X9_witness :
  exists label,
    @new_LabelLine tile_always (Fin 10, Fin 1) line3_step layout_straight
    = Ok label /\
    placement label = MID_POINT /\ isArticulated label = false.
Proof.
  destruct line3_step_label as (label & Hnew & Hta & _).
  exists label. split; [exact Hnew |].
  apply (X9_few_pieces_never_articulate (ext := tile_always)
           (Fin 10, Fin 1) line3_step layout_straight label [Fin 10]).
  - reflexivity.
  - simpl. lia.
  - exact Hnew.
  - exact Hta.
Defined.

(** ** Advancing to the next label *)

Lemma getNextSegment_keeps_placement_data (t t' : LabelLine)
    (s : option Segment) :
  getNextSegment t = Ok (s, t') ->
  position t' = position t /\ angle t' = angle t /\
  isArticulated t' = isArticulated t /\
  collapsed_size t' = collapsed_size t /\ kink_index t' = kink_index t /\
  labels t' = labels t /\ throw_away t' = throw_away t.
Proof.
  unfold getNextSegment. unfold_M. intros H.
  run_hyp H; inversion H; subst; cbn; repeat split; reflexivity.
Qed.

Section Advance.

Context {ext : Collaborators}.

(** X11.  A label returned by [nextLabel] for a label whose cursor is
    inside the line is an accepted label on the same line, with the
    same size, strictly later in the order of the cursor: at a larger
    index, or at the same index in straight mode after corner mode. *)
Theorem X11_next_label_is_later (label next label' : LabelLine) :
  cursor_in_line label ->
  nextLabel label = Ok (Some next, label') ->
  throw_away next = false /\
  lines next = lines label /\ size next = size label /\
  cursor_in_line next /\
  ((segment_index label < segment_index next)%Z \/
   (segment_index next = segment_index label /\
    placement label = CORNER /\ placement next = MID_POINT)).
Proof.
  intros Hin Hnext.
  destruct (nextLabel_Some _ _ _ Hin Hnext) as (Hin' & Hln & Hlt).
  unfold nextLabel in Hnext.
  destruct (getNextSegment label) as [[[s |] l1] | |] eqn:Hn;
    try discriminate.
  apply getNextSegment_Some in Hn.
  destruct Hn as (_ & Hle & _ & _ & _).
  destruct (new_LabelLine _ _ _) as [nl | |] eqn:Hc; try discriminate.
  destruct (throw_away nl) eqn:Hta; [discriminate |].
  inversion Hnext; subst next label'. clear Hnext.
  destruct (new_LabelLine_in_line _ _ _ _ Hc Hta) as [_ Hnle].
  split; [exact Hta |]. split; [exact Hln |].
  split.
  { unfold cursor_le in Hle, Hnle. cbn in Hnle.
    decompose [and] Hle. decompose [and] Hnle. congruence. }
  split; [exact Hin' |].
  unfold cursor_in_line in Hin, Hin'. unfold cursor_measure in Hlt.
  rewrite Hln in *.
  destruct Hin as [Hr Hc0]. destruct Hin' as [Hr' Hc'].
  destruct (Z.eq_dec (segment_index nl) (segment_index label)) as [E | E].
  - right. split; [exact E |].
    destruct (placement label), (placement nl);
      try (split; reflexivity); lia.
  - left. destruct (placement label), (placement nl); lia.
Qed.

(** X12.  [nextLabel] advances the cursor of the label it is given in
    place, by one step, and refreshes nothing else: the angle, the
    position, the articulation flag, the collapsed sizes and the store
    of that label still describe the placement before the call.  The
    cursor stays where it is only when the label is in straight mode
    on or after the last segment, and then the call returns [false]. *)
Theorem X12_nextLabel_moves_its_argument (label label' : LabelLine)
    (r : option LabelLine) :
  nextLabel label = Ok (r, label') ->
  position label' = position label /\ angle label' = angle label /\
  isArticulated label' = isArticulated label /\
  collapsed_size label' = collapsed_size label /\
  labels label' = labels label /\
  ((placement label = MID_POINT /\
    (segment_index label >= Z.of_nat (length (lines label)) - 2)%Z /\
    label' = label /\ r = None)
   \/
   (placement label = CORNER /\ placement label' = MID_POINT /\
    segment_index label' = segment_index label)
   \/
   (placement label = MID_POINT /\
    (segment_index label < Z.of_nat (length (lines label)) - 2)%Z /\
    segment_index label' = (segment_index label + 1)%Z)).
Proof.
  unfold nextLabel.
  destruct (getNextSegment label) as [[[s |] l1] | |] eqn:Hn;
    try discriminate.
  - destruct (new_LabelLine _ _ _) as [nl | |]; try discriminate.
    intros E. inversion E; subst label' r. clear E.
    destruct (getNextSegment_keeps_placement_data _ _ _ Hn)
      as (A & B & C & D & _ & F & _).
    apply getNextSegment_Some in Hn.
    destruct Hn as (_ & _ & _ & _ & Hcase).
    repeat (split; [assumption |]).
    right. destruct Hcase as [H | H]; [left | right]; exact H.
  - intros E. inversion E; subst label' r. clear E.
    destruct (getNextSegment_keeps_placement_data _ _ _ Hn)
      as (A & B & C & D & _ & F & _).
    apply getNextSegment_None in Hn. destruct Hn as (Heq & Hp & Hge).
    repeat (split; [assumption |]).
    left. repeat split; assumption.
Qed.

End Advance.

Lemma vline4_start_advances :
  exists next label',
    @nextLabel tile_always vline4_start = Ok (Some next, label') /\
    cursor_in_line vline4_start.
Proof.
  assert (Hv0 : on_vline4 vline4_start) by (unfold on_vline4; repeat split).
  assert (Hin0 : cursor_in_line vline4_start).
  { unfold cursor_in_line. simpl. split; [lia | discriminate]. }
  destruct (vline4_nextLabel vline4_start Hv0 Hin0)
    as (next & label' & Hn & _).
  - intros [_ Hi]. discriminate Hi.
  - exists next, label'. split; assumption.
Qed.

Lemma X11_witness :
  exists next label',
    @nextLabel tile_always vline4_start = Ok (Some next, label') /\
    throw_away next = false /\
    lines next = lines vline4_start /\ size next = size vline4_start /\
    cursor_in_line next /\
    ((segment_index vline4_start < segment_index next)%Z \/
     (segment_index next = segment_index vline4_start /\
      placement vline4_start = CORNER /\ placement next = MID_POINT)).
Proof.
  destruct vline4_start_advances as (next & label' & Hn & Hin).
  exists next, label'. split; [exact Hn |].
  exact (X11_next_label_is_later (ext := tile_always) _ _ _ Hin Hn).
Defined.

Lemma X12_witness :
  exists next label',
    @nextLabel tile_always vline4_start = Ok (Some next, label') /\
    position label' = position vline4_start /\
    angle label' = angle vline4_start /\
    isArticulated label' = isArticulated vline4_start /\
    collapsed_size label' = collapsed_size vline4_start /\
    labels label' = labels vline4_start /\
    ((placement vline4_start = MID_POINT /\
      (segment_index vline4_start
       >= Z.of_nat (length (lines vline4_start)) - 2)%Z /\
      label' = vline4_start /\ Some next = None)
     \/
     (placement vline4_start = CORNER /\ placement label' = MID_POINT /\
      segment_index label' = segment_index vline4_start)
     \/
     (placement vline4_start = MID_POINT /\
      (segment_index vline4_start
       < Z.of_nat (length (lines vline4_start)) - 2)%Z /\
      segment_index label' = (segment_index vline4_start + 1)%Z)).
Proof.
  destruct vline4_start_advances as (next & label' & Hn & _).
  exists next, label'. split; [exact Hn |].
  exact (X12_nextLabel_moves_its_argument (ext := tile_always) _ _ _ Hn).
Defined.

(** ** Termination of the search *)

Section Termination.

Context {ext : Collaborators}.

Lemma rec_fuel_step (fuel : nat) :
  forall (seg : option Segment) (t : LabelLine),
  getNextFittingSegment_rec fuel seg t <> Diverge ->
  getNextFittingSegment_rec (S fuel) seg t
  = getNextFittingSegment_rec fuel seg t.
Proof.
  induction fuel as [| fuel IH]; intros seg t H;
    [exfalso; apply H; reflexivity |].
  assert (HSome : forall s t,
    getNextFittingSegment_rec (S fuel) (Some s) t <> Diverge ->
    getNextFittingSegment_rec (S (S fuel)) (Some s) t
    = getNextFittingSegment_rec (S fuel) (Some s) t).
  { intros s u. rewrite !rec_unfold_Some.
    destruct (try_segment s u) as [[[] t1] | |]; try reflexivity.
    apply IH. }
  destruct seg as [s |]; [now apply HSome |].
  revert H. rewrite (rec_unfold_None (S fuel)), (rec_unfold_None fuel).
  destruct (getNextSegment t) as [[[s |] t1] | |]; try reflexivity.
  apply HSome.
Qed.

Lemma rec_fuel_more (n fuel : nat) (seg : option Segment) (t : LabelLine) :
  getNextFittingSegment_rec fuel seg t <> Diverge ->
  getNextFittingSegment_rec (fuel + n) seg t
  = getNextFittingSegment_rec fuel seg t.
Proof.
  intros H. induction n as [| n IH].
  - now rewrite Nat.add_0_r.
  - rewrite Nat.add_succ_r. rewrite rec_fuel_step; [exact IH |].
    rewrite IH. exact H.
Qed.

(** X13.  The recursive search for a fitting segment terminates on
    every object, whatever its cursor and options: it returns or
    raises within [2 (lines.length - 2 - segment_index) + 2] nested
    calls (one more in corner mode), and a larger budget of calls never
    changes its outcome.  So the constructor and [nextLabel] always
    return or raise. *)
Theorem X13_search_terminates (seg : option Segment) (t : LabelLine) :
  getNextFittingSegment seg t <> Diverge /\
  (forall n,
     getNextFittingSegment_rec (cursor_measure t + 2 + n) seg t
     = getNextFittingSegment seg t) /\
  (forall sz ln l, new_LabelLine sz ln l <> Diverge) /\
  (forall label, nextLabel label <> Diverge).
Proof.
  split; [apply getNextFittingSegment_no_diverge |].
  split.
  - intros n. unfold getNextFittingSegment. apply rec_fuel_more.
    apply (getNextFittingSegment_no_diverge seg t).
  - split; [apply new_LabelLine_no_diverge | apply nextLabel_no_diverge].
Qed.

End Termination.

(** ** A permitted overrun above 100 percent *)

Lemma Vector_length_cases (v : vec) :
  Vector.length v = NaN \/ Vector.length v = PInf \/
  exists d, Vector.length v = Fin d /\ 0 <= d.
Proof.
  unfold Vector.length, Math.sqrt.
  destruct (fst v * fst v + snd v * snd v)%js as [x | | |]; auto.
  destruct (Rlt_dec x 0); auto.
  right. right. exists (sqrt x). split; [reflexivity | apply sqrt_pos].
Qed.

Lemma negative_excess_rejects (a e : R) (v : vec) :
  0 <= a -> e < 0 -> (Fin a <? Fin e * Vector.length v)%js = false.
Proof.
  intros Ha He.
  destruct (Vector_length_cases v) as [-> | [-> | (d & -> & Hd)]].
  - reflexivity.
  - cbn [js_mul]. rewrite Rsign_case_neg by assumption. reflexivity.
  - cbn [js_mul]. apply js_lt_Fin_false. nra.
Qed.

Lemma excess_above_100 (le : R) : 100 < le -> 100 / (100 - le) < 0.
Proof.
  intros H. unfold Rdiv.
  assert (/ (100 - le) < 0) by (apply Rinv_lt_0_compat; lra). nra.
Qed.

Lemma Rsum_nonneg (l : list R) : Forall (fun r => 0 <= r) l -> 0 <= Rsum l.
Proof.
  induction 1 as [| x l Hx _ IH]; unfold Rsum in *; simpl; lra.
Qed.

Lemma Forall_firstn_skipn (P : R -> Prop) (n k : nat) (l : list R) :
  Forall P l -> Forall P (firstn n (skipn k l)).
Proof.
  intros H.
  rewrite <- (firstn_skipn k l) in H. apply Forall_app in H.
  destruct H as [_ H].
  rewrite <- (firstn_skipn n (skipn k l)) in H. apply Forall_app in H.
  exact (proj1 H).
Qed.

Section Overrun.

Context {ext : Collaborators}.

(** X14.  With [line_exceed] above 100 the excess ratio is negative,
    so neither fit test can pass for a label of non-negative widths:
    every label the constructor returns is marked for discard. *)
Theorem X14_line_exceed_above_100_discards (h : num) (w u le : R)
    (rs : list R) (ln : list point) (l : Layout) (label : LabelLine) :
  layout_line_exceed l = Fin le -> 100 < le ->
  layout_units_per_pixel l = Fin u -> 0 <= u -> 0 <= w ->
  layout_segment_size l = Some (map Fin rs) ->
  Forall (fun r => 0 <= r) rs ->
  new_LabelLine (Fin w, h) ln l = Ok label ->
  throw_away label = true.
Proof.
  intros Hle Hgt Hu Hu0 Hw0 Hss Hrs Hnew.
  destruct (throw_away label) eqn:Hta; [reflexivity | exfalso].
  destruct (new_LabelLine_accepted _ _ _ _ Hnew Hta) as (t0 & Hc & Hacc).
  destruct Hacc as (t1 & t2 & Hfit & _).
  unfold cursor_le in Hc. cbn in Hc. decompose [and] Hc.
  assert (He : excess_ratio (layout t0) = Fin (100 / (100 - le))).
  { unfold excess_ratio.
    replace (layout t0) with l by congruence.
    rewrite Hle. apply excess_Fin. lra. }
  pose proof (excess_above_100 le Hgt) as Hneg.
  assert (Hu' : layout_units_per_pixel (layout t0) = Fin u) by congruence.
  assert (Hsz : size t0 = (Fin w, h)) by congruence.
  destruct (placement t0) eqn:Hp.
  - destruct (doesSegmentFit_MID_POINT_inv _ _ _ Hp Hfit)
      as (p & q & _ & _ & _ & Hb).
    unfold straight_fit, distance in Hb.
    change (Fin 100 / (Fin 100 - layout_line_exceed (layout t0)))%js
      with (excess_ratio (layout t0)) in Hb.
    rewrite He, Hu', Hsz in Hb. cbn [fst] in Hb.
    change (Fin w * Fin u)%js with (Fin (w * u)) in Hb.
    rewrite negative_excess_rejects in Hb by (assumption || nra).
    discriminate.
  - unfold doesSegmentFit in Hfit. unfold bind at 1, get at 1 in Hfit.
    rewrite Hp in Hfit.
    apply fitKinkedSegment_true in Hfit.
    destruct Hfit as (ss & p0p1 & p1p2 & k & l1 & l2 & Hss' & _ & _ & _
                      & Hk & _).
    assert (ss = map Fin rs) by congruence. subst ss.
    rewrite He, Hu', Hsz in Hk. cbn [fst] in Hk.
    apply kink_search_true in Hk.
    destruct Hk as (Hr & Hloop & _ & Ht2).
    rewrite length_map in Hr, Hloop.
    apply kink_loop_widths in Hloop; [| lia].
    destruct Hloop as (a' & b' & -> & -> & _ & Hb').
    pose proof (Rsum_nonneg _
      (Forall_firstn_skipn _ (length rs - 1 + 1 - Z.to_nat k)
         (Z.to_nat k) rs Hrs)) as Hsum.
    change (Fin u * Fin b')%js with (Fin (u * b')) in Ht2.
    rewrite negative_excess_rejects in Ht2 by (assumption || nra).
    discriminate.
Qed.

End Overrun.

Lemma line2_exceed_150 :
  exists label,
    @new_LabelLine tile_always (Fin 10, Fin 1) line2 layout_exceed_150
    = Ok label.
Proof.
  unfold new_LabelLine, getNextFittingSegment.
  set (t0 := init_LabelLine (Fin 10, Fin 1) line2 layout_exceed_150).
  change (cursor_measure t0 + 2)%nat with 2%nat.
  rewrite rec_unfold_Some.
  rewrite (straight_reject (ext := tile_always) t0 (pt 0 0) (pt 100 0));
    try reflexivity.
  - rewrite rec_unfold_None.
    rewrite getNextSegment_exhausted; [| reflexivity | simpl; lia].
    eexists. reflexivity.
  - unfold straight_fit, distance.
    change (layout_line_exceed (layout t0)) with (Fin 150).
    rewrite excess_Fin by lra.
    change (fst (size t0) * layout_units_per_pixel (layout t0))%js
      with (Fin (10 * 1)).
    apply negative_excess_rejects; [lra | apply excess_above_100; lra].
Qed.

Lemma X14_witness :
  exists label,
    @new_LabelLine tile_always (Fin 10, Fin 1) line2 layout_exceed_150
    = Ok label /\
    throw_away label = true.
Proof.
  destruct line2_exceed_150 as (label & Hnew).
  exists label. split; [exact Hnew |].
  apply (X14_line_exceed_above_100_discards (ext := tile_always)
           (Fin 1) 10 1 150 [5; 5] line2 layout_exceed_150 label);
    try reflexivity; try lra.
  - repeat constructor; lra.
  - exact Hnew.
Defined.

(** ** A cursor seeded outside the line *)

Lemma fitKinkedSegment_Ok_points (seg : Segment) (t t' : LabelLine)
    (b : bool) :
  fitKinkedSegment seg t = Ok (b, t') ->
  exists p0p1 p1p2,
    Vector.sub (js_nth_opt seg 0) (js_nth_opt seg 1) = Ok p0p1 /\
    Vector.sub (js_nth_opt seg 1) (js_nth_opt seg 2) = Ok p1p2.
Proof.
  unfold fitKinkedSegment. unfold_M.
  destruct (Vector.sub (js_nth_opt seg 0) (js_nth_opt seg 1))
    as [p0p1 | |]; try discriminate.
  destruct (Vector.sub (js_nth_opt seg 1) (js_nth_opt seg 2))
    as [p1p2 | |]; try discriminate.
  intros _. eauto.
Qed.

Lemma doesSegmentFit_Ok_in_line (t t' : LabelLine) (b : bool) :
  doesSegmentFit (getCurrentSegment t) t = Ok (b, t') -> cursor_in_line t.
Proof.
  intros Hf. destruct (placement t) eqn:Hp.
  - apply doesSegmentFit_MID_POINT_inv in Hf; [| assumption].
    destruct Hf as (p & q & A & B & _).
    apply js_nth_Some_range in A, B.
    split; [lia | congruence].
  - unfold doesSegmentFit in Hf. unfold bind at 1, get at 1 in Hf.
    rewrite Hp in Hf. apply fitKinkedSegment_Ok_points in Hf.
    destruct Hf as (v1 & v2 & A & B).
    unfold getCurrentSegment in A, B. rewrite Hp in A, B.
    rewrite ?js_nth_opt_0, ?js_nth_opt_1 in A.
    rewrite js_nth_opt_1, js_nth_opt_2 in B.
    apply Vector_sub_Ok in A, B.
    destruct A as (p & q & A & _), B as (_ & r & _ & B).
    apply js_nth_Some_range in A, B.
    unfold cursor_in_line, point, vec in *.
    split; [lia | intros _; lia].
Qed.

Lemma Vector_sub_Throw (a b : option vec) (e : js_error) :
  Vector.sub a b = Throw e -> e = TypeError.
Proof.
  destruct a as [[? ?] |], b as [[? ?] |]; cbn; intros H;
    inversion H; reflexivity.
Qed.

Lemma doesSegmentFit_Throw (seg : Segment) (t : LabelLine) (e : js_error) :
  doesSegmentFit seg t = Throw e -> e = TypeError.
Proof.
  unfold doesSegmentFit, fitKinkedSegment. unfold_M. intros H.
  run_hyp H;
    try (inversion H; reflexivity);
    repeat match goal with
    | E : Vector.sub _ _ = Throw _ |- _ =>
        apply Vector_sub_Throw in E; subst
    end;
    inversion H; reflexivity.
Qed.

Section Outside.

Context {ext : Collaborators}.

(** X15.  When the seeded cursor does not read existing points of the
    line (index below 0 or above [lines.length - 2], or index 0 in
    corner mode) the constructor raises a TypeError at the first fit
    test.  In particular it raises on every line with fewer than two
    points. *)
Theorem X15_seed_outside_line_raises (sz : vec) (ln : list point)
    (l : Layout) :
  (length ln < 2)%nat \/ ~ cursor_in_line (init_LabelLine sz ln l) ->
  new_LabelLine sz ln l = Throw TypeError.
Proof.
  intros H.
  assert (Hout : ~ cursor_in_line (init_LabelLine sz ln l)).
  { destruct H as [H | H]; [| exact H].
    intros [Hr _]. cbn [lines init_LabelLine] in Hr. lia. }
  clear H. unfold new_LabelLine, getNextFittingSegment.
  replace (cursor_measure (init_LabelLine sz ln l) + 2)%nat
    with (S (cursor_measure (init_LabelLine sz ln l) + 1)) by lia.
  rewrite rec_unfold_Some. unfold try_segment. unfold bind at 1.
  destruct (doesSegmentFit _ _) as [[b t1] | e |] eqn:Hf.
  - exfalso. apply Hout. eapply doesSegmentFit_Ok_in_line. exact Hf.
  - apply doesSegmentFit_Throw in Hf. subst e. reflexivity.
  - exfalso. revert Hf. apply doesSegmentFit_no_diverge.
Qed.

End Outside.

Lemma X15_witness :
  @new_LabelLine tile_always (Fin 10, Fin 1) [] (example_layout [5; 5])
  = Throw TypeError.
Proof.
  apply (X15_seed_outside_line_raises (ext := tile_always)).
  left. simpl. lia.
Defined.

(** ** The store of part labels *)

Lemma fitKinkedSegment_labels (seg : Segment) (t t' : LabelLine) (b : bool) :
  fitKinkedSegment seg t = Ok (b, t') -> labels t' = labels t.
Proof.
  unfold fitKinkedSegment. unfold_M. intros H.
  run_hyp H; inversion H; subst; reflexivity.
Qed.

Lemma doesSegmentFit_labels (seg : Segment) (t t' : LabelLine) (b : bool) :
  doesSegmentFit seg t = Ok (b, t') -> labels t' = labels t.
Proof.
  unfold doesSegmentFit. unfold bind at 1. unfold get at 1.
  destruct (placement t) eqn:Hp.
  - unfold_M. intros H. run_hyp H. inversion H; subst. reflexivity.
  - apply fitKinkedSegment_labels.
Qed.

Lemma replace_key_ok (i : Z) (lab : Label) (L : list (Z * Label)) :
  (i = 0 \/ i = 1)%Z ->
  NoDup (map fst L) ->
  (forall j l, In (j, l) L -> j = 0 \/ j = 1)%Z ->
  NoDup (map fst ((i, lab) :: filter (fun e => negb (fst e =? i)%Z) L)) /\
  (forall j l,
     In (j, l) ((i, lab) :: filter (fun e => negb (fst e =? i)%Z) L) ->
     j = 0 \/ j = 1)%Z.
Proof.
  intros Hi Hnd Hk. split.
  - cbn [map fst]. constructor.
    + intros Hin. apply in_map_iff in Hin.
      destruct Hin as ([j l] & Hj & Hin). cbn in Hj. subst j.
      apply filter_In in Hin. destruct Hin as [_ Hin]. cbn in Hin.
      rewrite Z.eqb_refl in Hin. discriminate.
    + clear Hk. induction L as [| [j l] L IH]; [constructor |].
      cbn [map fst] in Hnd. inversion Hnd as [| ? ? Hnot Hrest]; subst.
      cbn [filter fst]. destruct (negb (j =? i)%Z).
      * cbn [map fst]. constructor; [| now apply IH].
        intros Hin. apply Hnot. apply in_map_iff in Hin.
        destruct Hin as ([j' l'] & Hj & Hin). cbn in Hj. subst j'.
        apply filter_In in Hin. destruct Hin as [Hin _].
        apply in_map_iff. exists (j, l'). split; [reflexivity | exact Hin].
      * now apply IH.
  - intros j l [E | Hin].
    + inversion E; subst. exact Hi.
    + apply filter_In in Hin. destruct Hin as [Hin _]. eapply Hk; eauto.
Qed.

Section Store.

Context {ext : Collaborators}.

Lemma update_store_ok (t t' : LabelLine) :
  update t = Ok (tt, t') -> store_ok t -> store_ok t'.
Proof.
  intros Hu [Hnd Hk].
  destruct (update_unfold _ _ Hu) as (a & pos & _ & _ & HU).
  unfold store_ok.
  destruct (placement t) eqn:Hp.
  - destruct (updateBBoxes_MID_POINT_label _ _ HU Hp)
      as (a' & lab & _ & Hl & _).
    rewrite Hl. cbn [labels set_position set_angle].
    apply replace_key_ok; auto.
  - destruct (updateBBoxes_CORNER_labels _ _ HU Hp)
      as (a' & lab0 & lab1 & _ & Hl & _).
    rewrite Hl. cbn [labels set_position set_angle].
    destruct (replace_key_ok 0 lab0 (labels t)) as [Hnd0 Hk0]; auto.
    apply replace_key_ok; auto.
Qed.

Lemma try_segment_store_ok (seg : Segment) (t t' : LabelLine) (b : bool) :
  try_segment seg t = Ok (b, t') -> store_ok t -> store_ok t'.
Proof.
  unfold try_segment. unfold_M.
  destruct (doesSegmentFit seg t) as [[[] t1] | |] eqn:Hf; try discriminate.
  - apply doesSegmentFit_labels in Hf.
    destruct (update t1) as [[[] t2] | |] eqn:Hu; try discriminate.
    intros H Hok.
    assert (Hok1 : store_ok t1) by (unfold store_ok in *; now rewrite Hf).
    pose proof (update_store_ok _ _ Hu Hok1) as Hok2.
    destruct (inTileBounds t2).
    + destruct (inAngleBounds t2) as [[[] t3] | |] eqn:Ha; try discriminate;
        pose proof (inAngleBounds_state _ _ _ Ha); subst t3;
        inversion H; subst; exact Hok2.
    + inversion H; subst; exact Hok2.
  - apply doesSegmentFit_labels in Hf.
    intros H Hok. inversion H; subst.
    unfold store_ok in *. now rewrite Hf.
Qed.

Lemma rec_store_ok (fuel : nat) :
  forall (seg : option Segment) (t t' : LabelLine) (r : option Segment),
  getNextFittingSegment_rec fuel seg t = Ok (r, t') ->
  store_ok t -> store_ok t'.
Proof.
  induction fuel as [| fuel IH]; [discriminate |].
  assert (HSome : forall s t t' r,
    getNextFittingSegment_rec (S fuel) (Some s) t = Ok (r, t') ->
    store_ok t -> store_ok t').
  { intros s t t' r. rewrite rec_unfold_Some.
    destruct (try_segment s t) as [[[] t1] | |] eqn:Ht; try discriminate.
    - intros E. inversion E; subst. eapply try_segment_store_ok; eauto.
    - intros E Hok. eapply IH; [exact E |].
      eapply try_segment_store_ok; eauto. }
  intros [s |] t t' r.
  - apply HSome.
  - rewrite rec_unfold_None.
    destruct (getNextSegment t) as [[[s |] t1] | |] eqn:Hn; try discriminate.
    + intros E Hok. eapply HSome; [exact E |].
      apply getNextSegment_keeps_placement_data in Hn.
      destruct Hn as (_ & _ & _ & _ & _ & Hl & _).
      unfold store_ok in *. now rewrite Hl.
    + apply getNextSegment_None in Hn. destruct Hn as (-> & _).
      intros E. inversion E; subst. auto.
Qed.

(** X16.  The store of every label the constructor returns, accepted
    or discarded, holds at most one label per key and no key other
    than 0 and 1: the candidates tried during the search replace the
    entries of their keys and add no others. *)
Theorem X16_store_has_at_most_two_parts (sz : vec) (ln : list point)
    (l : Layout) (label : LabelLine) :
  new_LabelLine sz ln l = Ok label ->
  NoDup (map fst (labels label)) /\
  (forall i lab, In (i, lab) (labels label) -> i = 0%Z \/ i = 1%Z) /\
  (length (labels label) <= 2)%nat.
Proof.
  intros Hnew.
  assert (Hok : store_ok label).
  { revert Hnew. unfold new_LabelLine, getNextFittingSegment.
    destruct (getNextFittingSegment_rec _ _ _) as [[r t1] | |] eqn:H;
      try discriminate.
    apply rec_store_ok in H.
    - destruct r; intros E; inversion E; subst; exact H.
    - split; [constructor | intros i lab []]. }
  destruct Hok as [Hnd Hk]. split; [exact Hnd |]. split; [exact Hk |].
  rewrite <- (length_map fst).
  assert (Hincl : incl (map fst (labels label)) [0%Z; 1%Z]).
  { intros i Hi. apply in_map_iff in Hi.
    destruct Hi as ([j lab] & Hj & Hin). cbn in Hj. subst j.
    destruct (Hk _ _ Hin) as [-> | ->]; simpl; auto. }
  apply (NoDup_incl_length Hnd Hincl).
Qed.

End Store.

Lemma X16_witness :
  exists label,
    @new_LabelLine tile_always (Fin 4, Fin 1) peak
      (with_placement CORNER 1 (example_layout [2; 2])) = Ok label /\
    NoDup (map fst (labels label)) /\
    (forall i lab, In (i, lab) (labels label) -> i = 0%Z \/ i = 1%Z) /\
    (length (labels label) <= 2)%nat.
Proof.
  destruct peak_corner_label as (label & Hnew & _).
  exists label. split; [exact Hnew |].
  exact (X16_store_has_at_most_two_parts (ext := tile_always) _ _ _ _ Hnew).
Defined.

(** ** The upper bound of the index range *)

Ltac forget_simpl :=
  unfold forget_end_after, result_map, forget_end; cbn.

Ltac forget_done :=
  unfold getCurrentSegment, set_position, set_placement, set_isArticulated,
    set_collapsed_size, set_kink_index, set_segment_index, set_throw_away,
    set_angle, set_labels;
  cbn;
  repeat match goal with
         | E : _ = _ |- _ => rewrite E; clear E
         end;
  reflexivity.

Ltac forget_cases :=
  repeat (match goal with
          | |- context [match ?x with _ => _ end] =>
              lazymatch x with
              | context [match _ with _ => _ end] => fail
              | _ => destruct x eqn:?
              end
          end; cbn);
  forget_done.

Lemma forget_end_getNextSegment (t : LabelLine) :
  getNextSegment (forget_end t) = forget_end_after (getNextSegment t).
Proof.
  unfold getNextSegment. unfold_M. forget_simpl.
  destruct (placement t) eqn:Hp; [| forget_done].
  destruct (_ >=? _)%Z; [forget_done |].
  destruct (should_articulate t) eqn:Ha; [| forget_done].
  destruct (segment_size t) as [ss |] eqn:Hs; [| forget_done].
  cbn. destruct (_ >? _)%Z; forget_done.
Qed.

Lemma forget_end_fitKinkedSegment (seg : Segment) (t : LabelLine) :
  fitKinkedSegment seg (forget_end t)
  = forget_end_after (fitKinkedSegment seg t).
Proof.
  unfold fitKinkedSegment. unfold_M. forget_simpl.
  destruct (Vector.sub (js_nth_opt seg 0) (js_nth_opt seg 1))
    as [p0p1 | |]; try reflexivity.
  destruct (Vector.sub (js_nth_opt seg 1) (js_nth_opt seg 2))
    as [p1p2 | |]; try reflexivity.
  destruct (_ && _); [reflexivity |].
  destruct (segment_size t) as [ss |] eqn:Hs; [| reflexivity].
  cbn.
  change (excess_ratio (with_segment_end None (layout t)))
    with (excess_ratio (layout t)).
  destruct (kink_search _ _ _ _ _ _) as [[[f k] l1] l2].
  cbn. destruct (f && _); forget_done.
Qed.

Lemma forget_end_bind {A B : Type} (m : M A) (k : A -> M B) (t : LabelLine) :
  m (forget_end t) = forget_end_after (m t) ->
  (forall a u, k a (forget_end u) = forget_end_after (k a u)) ->
  bind m k (forget_end t) = forget_end_after (bind m k t).
Proof.
  intros Hm Hk. unfold bind. rewrite Hm.
  destruct (m t) as [[a u] | |]; cbn; [apply Hk | reflexivity | reflexivity].
Qed.

Lemma forget_end_doesSegmentFit (seg : Segment) (t : LabelLine) :
  doesSegmentFit seg (forget_end t)
  = forget_end_after (doesSegmentFit seg t).
Proof.
  unfold doesSegmentFit. apply forget_end_bind; [reflexivity |].
  intros p u. destruct p; [| apply forget_end_fitKinkedSegment].
  unfold_M. forget_simpl.
  destruct (Vector.sub _ _) as [p0p1 | |]; reflexivity.
Qed.

Lemma forget_end_getCurrentAngle (t : LabelLine) :
  getCurrentAngle (forget_end t) = forget_end_after (getCurrentAngle t).
Proof.
  unfold getCurrentAngle, getCurrentSegment. unfold_M. forget_simpl.
  forget_cases.
Qed.

Lemma forget_end_getCurrentPosition (t : LabelLine) :
  getCurrentPosition (forget_end t)
  = forget_end_after (getCurrentPosition t).
Proof.
  unfold getCurrentPosition, getCurrentSegment. unfold_M. forget_simpl.
  forget_cases.
Qed.

Lemma forget_end_inAngleBounds (t : LabelLine) :
  inAngleBounds (forget_end t) = forget_end_after (inAngleBounds t).
Proof.
  unfold inAngleBounds. unfold_M. forget_simpl.
  destruct (placement t) eqn:Hp; [forget_done |].
  destruct (angle t) as [a |] eqn:Ha; forget_done.
Qed.

Lemma filter_forget_end (i : Z) (L : list (Z * Label)) :
  filter (fun e => negb (fst e =? i)%Z) (map forget_end_label L)
  = map forget_end_label (filter (fun e => negb (fst e =? i)%Z) L).
Proof.
  induction L as [| [j lab] L IH]; [reflexivity |].
  cbn [map filter forget_end_label fst].
  destruct (negb (j =? i)%Z); cbn [map]; now rewrite IH.
Qed.

Lemma forget_end_idem (t : LabelLine) :
  forget_end (forget_end t) = forget_end t.
Proof.
  unfold forget_end. cbn. rewrite map_map. reflexivity.
Qed.

Lemma forget_end_set_throw_away (b : bool) (t : LabelLine) :
  forget_end (set_throw_away b (forget_end t))
  = forget_end (set_throw_away b t).
Proof.
  unfold forget_end, set_throw_away. cbn. rewrite map_map. reflexivity.
Qed.

Section ForgetEnd.

Context {ext : Collaborators}.

Lemma forget_end_updateBBoxes_side (upp height dx : num) (i : Z)
    (t : LabelLine) :
  updateBBoxes_side upp height dx i (forget_end t)
  = forget_end_after (updateBBoxes_side upp height dx i t).
Proof.
  unfold updateBBoxes_side, removeLabel, addLabel. unfold_M. forget_simpl.
  destruct (angle t) as [a |] eqn:Ha; [| forget_done].
  cbn. destruct (position t) as [pos |] eqn:Hpos; [| forget_done].
  cbn. destruct (layout_offset (layout t)) as [off |] eqn:Ho;
    [| forget_done].
  unfold set_labels. cbn. rewrite filter_forget_end. forget_done.
Qed.

Lemma forget_end_updateBBoxes (t : LabelLine) :
  updateBBoxes (forget_end t) = forget_end_after (updateBBoxes t).
Proof.
  unfold updateBBoxes, updateBBoxes_side, removeLabel, addLabel.
  unfold_M. forget_simpl.
  destruct (layout_buffer (layout t)) as [buf |]; [| reflexivity].
  destruct (placement t) eqn:Hp, (angle t) as [a |] eqn:Ha,
    (position t) as [pos |] eqn:Hpos,
    (layout_offset (layout t)) as [off |] eqn:Ho;
    unfold set_labels;
    repeat (progress (cbn; rewrite ?Ha, ?Hpos, ?Ho, ?Hp));
    rewrite ?filter_forget_end; try reflexivity.
Qed.

Lemma forget_end_modify (f : LabelLine -> LabelLine) (t : LabelLine) :
  f (forget_end t) = forget_end (f t) ->
  modify f (forget_end t) = forget_end_after (modify f t).
Proof. intros H. unfold modify. cbn. now rewrite H. Qed.

Lemma forget_end_update (t : LabelLine) :
  update (forget_end t) = forget_end_after (update t).
Proof.
  unfold update.
  apply forget_end_bind; [apply forget_end_getCurrentAngle |].
  intros a u.
  apply forget_end_bind; [now apply forget_end_modify |].
  intros _ v.
  apply forget_end_bind; [apply forget_end_getCurrentPosition |].
  intros p w.
  apply forget_end_bind; [now apply forget_end_modify |].
  intros _ x. apply forget_end_updateBBoxes.
Qed.

Hypothesis tile_ignores_end :
  forall t, inTileBounds (forget_end t) = inTileBounds t.

Lemma forget_end_try_segment (seg : Segment) (t : LabelLine) :
  try_segment seg (forget_end t) = forget_end_after (try_segment seg t).
Proof.
  unfold try_segment.
  apply forget_end_bind; [apply forget_end_doesSegmentFit |].
  intros [] u; [| reflexivity].
  apply forget_end_bind; [apply forget_end_update |].
  intros _ v.
  apply forget_end_bind.
  { unfold get. cbn. now rewrite tile_ignores_end. }
  intros tile w.
  apply forget_end_bind.
  { destruct tile; [apply forget_end_inAngleBounds | reflexivity]. }
  intros [] x; [| reflexivity].
  apply forget_end_bind; [now apply forget_end_modify | reflexivity].
Qed.

Lemma forget_end_rec (fuel : nat) :
  forall (seg : option Segment) (t : LabelLine),
  getNextFittingSegment_rec fuel seg (forget_end t)
  = forget_end_after (getNextFittingSegment_rec fuel seg t).
Proof.
  induction fuel as [| fuel IH]; [reflexivity |].
  assert (HSome : forall s t,
    getNextFittingSegment_rec (S fuel) (Some s) (forget_end t)
    = forget_end_after (getNextFittingSegment_rec (S fuel) (Some s) t)).
  { intros s t. rewrite !rec_unfold_Some.
    rewrite forget_end_try_segment.
    destruct (try_segment s t) as [[[] t1] | |]; try reflexivity.
    cbn. apply IH. }
  intros [s |] t; [apply HSome |].
  rewrite !rec_unfold_None. rewrite forget_end_getNextSegment.
  destruct (getNextSegment t) as [[[s |] t1] | |]; try reflexivity.
  cbn. apply HSome.
Qed.

Lemma forget_end_new_LabelLine (sz : vec) (ln : list point) (l : Layout)
    (e : option Z) :
  result_map forget_end (new_LabelLine sz ln (with_segment_end e l))
  = result_map forget_end (new_LabelLine sz ln l).
Proof.
  assert (Hnew : forall l',
    result_map forget_end (new_LabelLine sz ln l')
    = result_map forget_end
        match getNextFittingSegment_rec
                (cursor_measure (init_LabelLine sz ln l') + 2)
                (Some (getCurrentSegment (init_LabelLine sz ln l')))
                (forget_end (init_LabelLine sz ln l')) with
        | Ok (Some _, this) => Ok this
        | Ok (None, this) => Ok (set_throw_away true this)
        | Throw x => Throw x
        | Diverge => Diverge
        end).
  { intros l'. unfold new_LabelLine, getNextFittingSegment.
    rewrite forget_end_rec.
    destruct (getNextFittingSegment_rec _ _ _) as [[[s |] t1] | |];
      cbn; rewrite ?forget_end_idem, ?forget_end_set_throw_away;
      reflexivity. }
  rewrite (Hnew l), (Hnew (with_segment_end e l)). reflexivity.
Qed.

End ForgetEnd.

(** X17.  The option [segment_end] has no influence on the placement:
    with a tile test that does not read it, giving it any other value or
    leaving it out makes the constructor return a label with the same
    discard flag, cursor, anchor, angles, articulation flag, kink index
    and collapsed sizes, or raise the same exception. *)
Theorem X17_segment_end_is_ignored {ext : Collaborators}
    (tile_ignores_end :
       forall t, inTileBounds (forget_end t) = inTileBounds t)
    (sz : vec) (ln : list point) (l : Layout) (e : option Z) :
  (forall a, new_LabelLine sz ln l = Ok a ->
     exists b,
       new_LabelLine sz ln (with_segment_end e l) = Ok b /\
       throw_away b = throw_away a /\
       placement b = placement a /\ segment_index b = segment_index a /\
       position b = position a /\ angle b = angle a /\
       isArticulated b = isArticulated a /\
       kink_index b = kink_index a /\
       collapsed_size b = collapsed_size a) /\
  (forall x, new_LabelLine sz ln l = Throw x ->
     new_LabelLine sz ln (with_segment_end e l) = Throw x).
Proof.
  pose proof (forget_end_new_LabelLine tile_ignores_end sz ln l e) as H.
  split.
  - intros a Ha. rewrite Ha in H.
    destruct (new_LabelLine sz ln (with_segment_end e l)) as [b | |];
      try discriminate.
    exists b. split; [reflexivity |].
    cbn in H. inversion H. repeat split; assumption.
  - intros x Hx. rewrite Hx in H.
    destruct (new_LabelLine sz ln (with_segment_end e l)) as [b | |];
      try discriminate.
    cbn in H. inversion H. reflexivity.
Qed.

Lemma tile_always_ignores_end (t : LabelLine) :
  @inTileBounds tile_always (forget_end t) = @inTileBounds tile_always t.
Proof. reflexivity. Qed.

Lemma X17_witness :
  (forall a,
     @new_LabelLine tile_always (Fin 10, Fin 1) line10 layout_2_5 = Ok a ->
     exists b,
       @new_LabelLine tile_always (Fin 10, Fin 1) line10
         (with_segment_end None layout_2_5) = Ok b /\
       throw_away b = throw_away a /\
       placement b = placement a /\ segment_index b = segment_index a /\
       position b = position a /\ angle b = angle a /\
       isArticulated b = isArticulated a /\
       kink_index b = kink_index a /\
       collapsed_size b = collapsed_size a) /\
  (forall x,
     @new_LabelLine tile_always (Fin 10, Fin 1) line10 layout_2_5 = Throw x ->
     @new_LabelLine tile_always (Fin 10, Fin 1) line10
       (with_segment_end None layout_2_5) = Throw x).
Proof.
  exact (X17_segment_end_is_ignored (ext := tile_always)
           tile_always_ignores_end (Fin 10, Fin 1) line10 layout_2_5 None).
Defined.
